(** * InternetRobustness: attacks on a network and the simulation loop

    A shallow embedding of [attacker.py] (class [NetworkAttacker]) and of
    the core of [simulator.py] ([measure], [simulate]), followed by the
    properties the design document states about them.

    Python objects that are mutated in place (the graphs, the result
    dictionaries) live in an object store and are named by references;
    the code runs in a state-and-exception monad over that store.  The
    graphs are networkx graphs: the part of the networkx interface the
    code calls is modelled in module [nx]. *)

From Stdlib Require Import ZArith String Ascii PrimFloat FloatOps SpecFloat Uint63.
From stdpp Require Import gmap list strings pretty sorting.

Set Warnings "-inexact-float".

Local Open Scope Z_scope.

(** ** Exceptions and results *)

Inductive Exn : Type :=
  | IndexError      (* random.choice on an empty sequence *)
  | ValueError      (* max() of an empty sequence, int() of a nan *)
  | OverflowError   (* int() of an infinite float *)
  | NetworkXError   (* a node that is not in the graph *)
  | TypeError.      (* a call of an object that is not callable *)

Inductive Res (A : Type) : Type :=
  | Ok (a : A)
  | Raise (e : Exn).
Arguments Ok {A} a.
Arguments Raise {A} e.

(** [max(iterable, key=...)]: the first item whose key is not exceeded by a
    later one; [None] stands for the [ValueError] on an empty iterable. *)
Definition py_max {A} (key : A → Z) (l : list A) : option A :=
  match l with
  | [] => None
  | x :: r => Some (fold_left (λ best y, if key best <? key y then y else best) r x)
  end.

(** [seq[i]] for an index drawn below [len(seq)]. *)
Definition pick {A} (r : nat) (x : A) (l : list A) : A :=
  nth (r mod length (x :: l))%nat (x :: l) x.

(** ** The networkx graph interface *)

Module nx.

(** An undirected graph is its adjacency dictionary: every node is a key,
    mapped to the set of its neighbours.  networkx keeps the adjacency
    symmetric, and every neighbour is a node; the iteration order of its
    dictionaries is abstracted to the order of [elements]. *)
Abbreviation Graph := (gmap Z (gset Z)).

(** [G.nodes()] and [len(G)] *)
Definition nodes (g : Graph) : list Z := elements (dom g).
Definition number_of_nodes (g : Graph) : nat := size (dom g).

(** [G[v]] *)
Definition adj (g : Graph) (v : Z) : gset Z := default ∅ (g !! v).

(** [G.neighbors(v)]: fails for a node that is not in the graph. *)
Definition neighbors (g : Graph) (v : Z) : Res (list Z) :=
  match g !! v with
  | Some nbrs => Ok (elements nbrs)
  | None => Raise NetworkXError
  end.

(** [G.remove_node(v)]: fails for a node that is not in the graph;
    otherwise deletes [v] from the adjacency of each of its neighbours,
    then deletes [v]. *)
Definition remove_node (g : Graph) (v : Z) : Res Graph :=
  match g !! v with
  | Some nbrs =>
      Ok (delete v (foldr (λ u adj, alter (λ s, s ∖ {[v]}) u adj) g (elements nbrs)))
  | None => Raise NetworkXError
  end.

(** [G.copy()] *)
Definition copy (g : Graph) : Graph := g.

(** The degree of a node; a self-loop counts twice. *)
Definition deg (g : Graph) (v : Z) : Z :=
  Z.of_nat (size (adj g v)) + (if decide (v ∈ adj g v) then 1 else 0).

(** [G.nbunch_iter(nbunch)]: the nodes of [nbunch] that are in the graph,
    or all nodes. *)
Definition nbunch_iter (g : Graph) (nbunch : option (list Z)) : list Z :=
  match nbunch with
  | None => nodes g
  | Some l => filter (λ v, v ∈ dom g) l
  end.

(** A degree metric, as a caller can pass it for [metric]: the pairs
    (node, degree) for the nodes of [nbunch] that are in the graph, or for
    all nodes.  It is [Graph.degree_iter(G, nbunch)] in networkx 1.x and
    what [G.degree(nbunch)] iterates over from 2.0 on; it is not what
    [NetworkAttacker] falls back on when no metric is passed (see
    [GraphDegree] below). *)
Definition degree_iter (g : Graph) (nbunch : option (list Z)) : list (Z * Z) :=
  map (λ v, (v, deg g v)) (nbunch_iter g nbunch).

(** [_plain_bfs]: level by level; [seen] grows by the nodes of the level
    that are new, the next level collects their neighbours. *)
Fixpoint bfs (g : Graph) (fuel : nat) (seen level : gset Z) : gset Z :=
  match fuel with
  | O => seen
  | S fuel' =>
      if decide (level = ∅) then seen
      else
        let new := level ∖ seen in
        bfs g fuel' (seen ∪ new) (⋃ (adj g <$> elements new))
  end.

(** Every level but the last one adds a node, so [len(G) + 2] rounds are
    enough ([plain_bfs_fuel_enough] below). *)
Definition plain_bfs (g : Graph) (source : Z) : gset Z :=
  bfs g (S (S (number_of_nodes g))) ∅ {[source]}.

(** [connected_components]: one breadth-first search from each node that
    no earlier component contains. *)
Definition cc_step (g : Graph) (acc : gset Z * list (gset Z)) (v : Z)
  : gset Z * list (gset Z) :=
  if decide (v ∈ acc.1) then acc
  else let c := plain_bfs g v in (acc.1 ∪ c, acc.2 ++ [c]).

Definition connected_components (g : Graph) : list (gset Z) :=
  (fold_left (cc_step g) (nodes g) (∅, [])).2.

(** Building graphs (used for concrete networks). *)
Definition add_node (g : Graph) (v : Z) : Graph :=
  match g !! v with Some _ => g | None => <[v := ∅]> g end.

Definition add_edge (g : Graph) (u v : Z) : Graph :=
  let g1 := add_node (add_node g u) v in
  alter (λ s, s ∪ {[u]}) v (alter (λ s, s ∪ {[v]}) u g1).

Definition from_edges (ns : list Z) (es : list (Z * Z)) : Graph :=
  fold_left (λ g e, add_edge g e.1 e.2) es (fold_left add_node ns ∅).

End nx.

Abbreviation Graph := nx.Graph.

(** ** The object store and the monad

    A reference is an index into the store.  [graphs] holds the networkx
    graphs and [dicts] the result dictionaries (insertion-ordered, keyed
    by strings); [rand] is the sequence of values the random generator
    will produce and [drawn] counts the draws made so far.  A failing
    computation keeps the store as it was when the exception was raised. *)

Definition Measurement : Type := nat * nat.
Definition Dict : Type := list (string * Measurement).

Record World : Type := mkWorld {
  graphs : list Graph;
  dicts : list Dict;
  rand : nat → nat;
  drawn : nat
}.

Definition M (A : Type) : Type := World → Res A * World.

Definition raise {A} (e : Exn) : M A := λ w, (Raise e, w).
Definition lift {A} (r : Res A) : M A := λ w, (r, w).

#[global] Instance M_ret : MRet M := λ A a w, (Ok a, w).
#[global] Instance M_bind : MBind M := λ A B k m w,
  match m w with
  | (Ok a, w') => k a w'
  | (Raise e, w') => (Raise e, w')
  end.

Definition graph_at (w : World) (l : nat) : Graph := graphs w !!! l.
Definition dict_at (w : World) (l : nat) : Dict := dicts w !!! l.

Definition load (l : nat) : M Graph := λ w, (Ok (graph_at w l), w).
Definition store (l : nat) (g : Graph) : M unit :=
  λ w, (Ok tt, mkWorld (<[l := g]> (graphs w)) (dicts w) (rand w) (drawn w)).
Definition alloc (g : Graph) : M nat :=
  λ w, (Ok (length (graphs w)),
        mkWorld (graphs w ++ [g]) (dicts w) (rand w) (drawn w)).

(** [random.choice(seq)] *)
Definition choice (l : list Z) : M Z :=
  λ w, match l with
       | [] => (Raise IndexError, w)
       | x :: r =>
           (Ok (pick (rand w (drawn w)) x r),
            mkWorld (graphs w) (dicts w) (rand w) (S (drawn w)))
       end.

(** [d[k] = v] on a dictionary *)
Fixpoint dict_set (d : Dict) (k : string) (v : Measurement) : Dict :=
  match d with
  | [] => [(k, v)]
  | (k', v') :: r =>
      if String.eqb k' k then (k', v) :: r else (k', v') :: dict_set r k v
  end.

Definition setitem (l : nat) (k : string) (v : Measurement) : M unit :=
  λ w, (Ok tt,
        mkWorld (graphs w) (<[l := dict_set (dict_at w l) k v]> (dicts w))
                (rand w) (drawn w)).

(** Methods of the graph object behind a reference. *)
Definition net_neighbors (l : nat) (v : Z) : M (list Z) :=
  g ← load l ; lift (nx.neighbors g v).

Definition net_remove_node (l : nat) (v : Z) : M unit :=
  g ← load l ; g' ← lift (nx.remove_node g v) ; store l g'.

Definition net_copy (l : nat) : M nat :=
  g ← load l ; alloc (nx.copy g).

(** ** attacker.py: class NetworkAttacker *)

(** A metric ranks the nodes of [nodes] (all nodes for [None]) on the
    current network: an iterable of pairs (node, score). *)
Definition Metric : Type := Graph → option (list Z) → list (Z * Z).

(** What [self._metric] holds: the [metric] argument or, when there is
    none, [type(self._network).degree], the attribute [degree] of the class
    of the graph.  That attribute is no metric.  From networkx 2.0 on it is
    a property object, which cannot be called: the call in [_best_node]
    raises [TypeError].  (In networkx 1.x it is a method that returns a
    dictionary from nodes to degrees; iterating a dictionary gives its
    keys, and the key function [item[1]] of [_best_node] raises [TypeError]
    on the first node.  Only a dictionary without any key fares otherwise:
    [max] raises its [ValueError].  The properties that name the
    [TypeError] of this metric are stated where there is a node to
    rank.) *)
Inductive MetricObj : Type :=
  | Given (metric : Metric)
  | GraphDegree.

Record Attacker : Type := mkAttacker {
  _network : nat;      (* reference to the working copy *)
  _n : Z;
  _metric : MetricObj
}.

(** [__init__(self, network, n, metric=None)] *)
Definition NetworkAttacker (network : nat) (n : Z) (metric : option Metric)
  : M Attacker :=
  l ← net_copy network;
  mret (mkAttacker l n (match metric with
                        | None => GraphDegree
                        | Some m => Given m
                        end)).

(** [self._metric(self._network, nodes)] *)
Definition call_metric (m : MetricObj) (g : Graph) (nodes : option (list Z))
  : Res (list (Z * Z)) :=
  match m with
  | Given metric => Ok (metric g nodes)
  | GraphDegree => Raise TypeError
  end.

(** [_random_node(self, nodes=None)] *)
Definition _random_node (self : Attacker) (nodes : option (list Z)) : M Z :=
  match nodes with
  | Some l => choice l
  | None => g ← load (_network self); choice (nx.nodes g)
  end.

(** [_best_node(self, nodes=None)] *)
Definition _best_node (self : Attacker) (nodes : option (list Z)) : M Z :=
  g ← load (_network self);
  ranks ← lift (call_metric (_metric self) g nodes);
  match py_max snd ranks with
  | Some (node, _) => mret node
  | None => raise ValueError
  end.

(** One round of the loop of [_attack]: [choose_target] is called, with
    the state its closure holds, and the node it returns is removed. *)
Definition attack_round {S} (self : Attacker) (choose_target : S → M (Z * S))
    (s : S) : M S :=
  '(t, s') ← choose_target s;
  net_remove_node (_network self) t;;
  mret s'.

Fixpoint attack_loop {S} (self : Attacker) (choose_target : S → M (Z * S))
    (k : nat) (s : S) : M unit :=
  match k with
  | O => mret tt
  | S k' => s' ← attack_round self choose_target s;
            attack_loop self choose_target k' s'
  end.

(** [_attack(self, choose_target, n=None)]; [range(n)] is empty for a
    negative [n]. *)
Definition _attack {S} (self : Attacker) (choose_target : S → M (Z * S))
    (s : S) (n : option Z) : M unit :=
  let n := match n with None => _n self | Some n => n end in
  attack_loop self choose_target (Z.to_nat n) s.

(** The variables [target] and [neighbors] of [_path_chooser], which its
    inner function [choose_target] rebinds ([nonlocal]). *)
Record Walk : Type := mkWalk {
  target : Z;
  neighbors : option (list Z)
}.

(** The body of the inner function [choose_target]. *)
Definition choose_target (self : Attacker)
    (neighbor_discriminator : list Z → M Z) (st : Walk) : M (Z * Walk) :=
  t ← match neighbors st with
      | Some nbrs =>
          match nbrs with
          | [] => _random_node self None
          | _ :: _ => neighbor_discriminator nbrs
          end
      | None => mret (target st)
      end;
  nbrs' ← net_neighbors (_network self) t;
  mret (t, mkWalk t (Some nbrs')).

(** [_path_chooser(self, neighbor_discriminator)]: draws the start node
    and returns the closure, that is its initial state. *)
Definition _path_chooser (self : Attacker) : M Walk :=
  t ← _random_node self None;
  mret (mkWalk t None).

(** A bound method used as [choose_target] holds no state. *)
Definition stateless (f : M Z) : unit → M (Z * unit) :=
  λ _, t ← f; mret (t, tt).

Definition random (self : Attacker) (n : option Z) : M unit :=
  _attack self (stateless (_random_node self None)) tt n.

Definition targeted (self : Attacker) (n : option Z) : M unit :=
  _attack self (stateless (_best_node self None)) tt n.

Definition random_path (self : Attacker) (n : option Z) : M unit :=
  st ← _path_chooser self;
  _attack self (choose_target self (λ nbrs, _random_node self (Some nbrs))) st n.

Definition targeted_path (self : Attacker) (n : option Z) : M unit :=
  st ← _path_chooser self;
  _attack self (choose_target self (λ nbrs, _best_node self (Some nbrs))) st n.

(** The attack types of [simulator.py] and the method each one names. *)
Inductive AttackType : Type :=
  | Random | Targeted | RandomPath | TargetedPath.

Definition attack_name (ty : AttackType) : string :=
  match ty with
  | Random => "random"
  | Targeted => "targeted"
  | RandomPath => "random_path"
  | TargetedPath => "targeted_path"
  end.

Definition attack_types : list AttackType :=
  [Random; Targeted; RandomPath; TargetedPath].

(** [getattr(attacker, attack_type)] *)
Definition policy (ty : AttackType) : Attacker → option Z → M unit :=
  match ty with
  | Random => random
  | Targeted => targeted
  | RandomPath => random_path
  | TargetedPath => targeted_path
  end.

(** ** simulator.py *)

(** The module's constants are binary64 floats ([start] is the integer 0,
    converted when it meets a float). *)
Definition start : float := 0%float.
Definition end_ : float := 0.1%float.
Definition step : float := 0.001%float.

(** [int(x)] truncates towards zero. *)
Definition py_int (x : float) : Res Z :=
  match Prim2SF x with
  | S754_zero _ => Ok 0
  | S754_finite s m e =>
      let a := if 0 <=? e then Z.pos m * 2 ^ e else Z.pos m / 2 ^ (- e) in
      Ok (if s then - a else a)
  | S754_infinity _ => Raise OverflowError
  | S754_nan => Raise ValueError
  end.

(** [float(k)] for a small non-negative integer. *)
Definition py_float (k : nat) : float :=
  PrimFloat.of_uint63 (Uint63.of_Z (Z.of_nat k)).

(** ["{:.3f}".format(num)]: the exact value of the float, times 1000,
    rounded to the nearest integer (ties to even), printed with the point
    three digits from the right. *)
Definition round_half_even (num den : Z) : Z :=
  let q := num / den in
  match 2 * (num mod den) ?= den with
  | Lt => q
  | Gt => q + 1
  | Eq => if Z.even q then q else q + 1
  end.

Definition thousandths (m : positive) (e : Z) : Z :=
  if 0 <=? e then Z.pos m * 2 ^ e * 1000
  else round_half_even (Z.pos m * 1000) (2 ^ (- e)).

Definition digit (d : Z) : ascii := ascii_of_nat (48 + Z.to_nat d).

Definition fixed3 (neg : bool) (k : Z) : string :=
  String.append (if neg then "-" else "")
    (String.append (pretty (Z.to_N (k / 1000)))
       (String "." (String (digit (k / 100 mod 10))
          (String (digit (k / 10 mod 10))
             (String (digit (k mod 10)) EmptyString))))).

Definition fmt (num : float) : string :=
  match Prim2SF num with
  | S754_zero s => fixed3 s 0
  | S754_finite s m e => fixed3 s (thousandths m e)
  | S754_infinity s => if s then "-inf" else "inf"
  | S754_nan => "nan"
  end.

(** [measure(network)] *)
Definition measure (network : Graph) : Res Measurement :=
  let components := nx.connected_components network in
  match py_max (λ c, Z.of_nat (size c)) components with
  | Some gigantic_component => Ok (length components, size gigantic_component)
  | None => Raise ValueError
  end.

Definition measure_net (l : nat) : M Measurement :=
  g ← load l; lift (measure g).

(** The body of the loop of [simulate], for the index [i]. *)
Definition simulate_round (attacker : Attacker) (attack_type : AttackType)
    (result_store : nat) (i : nat) : M unit :=
  policy attack_type attacker None;;
  m ← measure_net (_network attacker);
  setitem result_store (fmt (py_float (i + 1) * step)) m.

Fixpoint for_range (body : nat → M unit) (i k : nat) : M unit :=
  match k with
  | O => mret tt
  | S k' => body i;; for_range body (S i) k'
  end.

(** [simulate(attacker, attack_type, result_store)] *)
Definition simulate (attacker : Attacker) (attack_type : AttackType)
    (result_store : nat) : M unit :=
  iters ← lift (py_int ((end_ - start) / step));
  m ← measure_net (_network attacker);
  setitem result_store (fmt 0) m;;
  for_range (simulate_round attacker attack_type result_store) 0 (Z.to_nat iters).

(** [round(x)] of a float: the nearest integer, ties to even. *)
Definition py_round (x : float) : Res Z :=
  match Prim2SF x with
  | S754_zero _ => Ok 0
  | S754_finite s m e =>
      let a := if 0 <=? e then Z.pos m * 2 ^ e
               else round_half_even (Z.pos m) (2 ^ (- e)) in
      Ok (if s then - a else a)
  | S754_infinity _ => Raise OverflowError
  | S754_nan => Raise ValueError
  end.

(** The main program's [n = int(round(len(network) * step))]; [int] of an
    integer is that integer. *)
Definition attack_size (network : Graph) : Res Z :=
  py_round (py_float (nx.number_of_nodes network) * step).

(** ** data_reader.py *)

Module data_reader.
Section read_data.
Context {G T : Type}.

(** [time.strptime(filename, filename_format)], which raises [ValueError]
    on a name that does not match the format, and the [reader], called on
    a path. *)
Variable strptime : string → Res T.
Variable reader : string → Res G.

(** [os.walk(dirname)], a generator: the pairs (root, filenames) of the
    triples it yields (their lists of subdirectories are not used) and
    the exception that ends it, if any.  [os.walk] passes over the errors
    of the file system, but not over a [dirname] that cannot be a path:
    one with a NUL character in it makes the walk raise [ValueError],
    before it yields anything. *)
Variable os_walk : string → list (string * list string) * option Exn.

(** [os.path.join(root, filename)] *)
Definition path_join (root filename : string) : string :=
  match filename with
  | String "/" _ => filename
  | _ =>
      match root with
      | EmptyString => filename
      | _ =>
          if String.eqb (substring (String.length root - 1) 1 root) "/"
          then String.append root filename
          else String.append root (String "/" filename)
      end
  end.

(** The inner loop, over the [filenames] of one directory of the walk.  The
    generator is modelled by the list of the pairs it yields and the
    exception that ends it, if any. *)
Fixpoint read_files (root : string) (filenames : list string)
  : list (G * T) * option Exn :=
  match filenames with
  | [] => ([], None)
  | filename :: rest =>
      match strptime filename with
      | Ok timestamp =>
          match reader (path_join root filename) with
          | Ok graph =>
              let '(ys, e) := read_files root rest in
              ((graph, timestamp) :: ys, e)
          | Raise ValueError => read_files root rest
          | Raise e => ([], Some e)
          end
      | Raise ValueError => read_files root rest
      | Raise e => ([], Some e)
      end
  end.

(** The outer loop, over what the walk yields; it is not inside the [try]:
    the exception that ends the walk, [raised], ends the generator. *)
Fixpoint read_walk (walk : list (string * list string)) (raised : option Exn)
  : list (G * T) * option Exn :=
  match walk with
  | [] => ([], raised)
  | (root, filenames) :: rest =>
      match read_files root filenames with
      | (ys, Some e) => (ys, Some e)
      | (ys, None) => let '(zs, e) := read_walk rest raised in (ys ++ zs, e)
      end
  end.

(** [read_data(dirname, filename_format, reader)] *)
Definition read_data (dirname : string) : list (G * T) * option Exn :=
  read_walk (os_walk dirname).1 (os_walk dirname).2.

End read_data.
End data_reader.

(** * Vocabulary of the properties *)

(** What a computation leaves alone: [same_store] for one that only reads
    the objects (it may draw random numbers), [same_dicts] and
    [same_graphs_but l] for one that writes the graph behind [l] only. *)
Definition same_store (w w' : World) : Prop :=
  graphs w' = graphs w ∧ dicts w' = dicts w ∧ rand w' = rand w.

Definition same_graphs_but (l : nat) (w w' : World) : Prop :=
  length (graphs w') = length (graphs w) ∧
  ∀ l', l' ≠ l → graphs w' !! l' = graphs w !! l'.

Definition same_dicts (w w' : World) : Prop :=
  dicts w' = dicts w ∧ rand w' = rand w.

Definition reads_only {A} (m : M A) : Prop :=
  ∀ w, same_store w (m w).2.

(** A successful run of the loop of [_attack] is a sequence of rounds.  A
    round records the state of the closure and the store when
    [choose_target] is called, the node it returns, the state it leaves
    and the store after the node's removal. *)
Record Round (S : Type) : Type := mkRound {
  r_state : S;
  r_world : World;
  r_target : Z;
  r_next : S;
  r_after : World
}.
Arguments mkRound {S}.
Arguments r_state {S}.
Arguments r_world {S}.
Arguments r_target {S}.
Arguments r_next {S}.
Arguments r_after {S}.

Inductive Rounds {S} (self : Attacker) (choose : S → M (Z * S))
  : S → World → list (Round S) → World → Prop :=
  | Rounds_nil s w : Rounds self choose s w [] w
  | Rounds_cons s w t s' w1 w2 rs w3 :
      choose s w = (Ok (t, s'), w1) →
      net_remove_node (_network self) t w1 = (Ok tt, w2) →
      Rounds self choose s' w2 rs w3 →
      Rounds self choose s w (mkRound s w t s' w2 :: rs) w3.

(** The number of rounds a call makes. *)
Definition rounds_of (self : Attacker) (n : option Z) : nat :=
  Z.to_nat (default (_n self) n).

(** [k] successful calls of a policy, each with the attacker's own [n]. *)
Inductive Calls (ty : AttackType) (self : Attacker) : nat → World → World → Prop :=
  | Calls_O w : Calls ty self 0 w w
  | Calls_S k w w1 w2 :
      policy ty self None w = (Ok tt, w1) →
      Calls ty self k w1 w2 →
      Calls ty self (S k) w w2.

(** The [choose_target] of each policy. *)
Definition random_chooser (self : Attacker) : unit → M (Z * unit) :=
  stateless (_random_node self None).
Definition targeted_chooser (self : Attacker) : unit → M (Z * unit) :=
  stateless (_best_node self None).
Definition random_path_chooser (self : Attacker) : Walk → M (Z * Walk) :=
  choose_target self (λ nbrs, _random_node self (Some nbrs)).
Definition targeted_path_chooser (self : Attacker) : Walk → M (Z * Walk) :=
  choose_target self (λ nbrs, _best_node self (Some nbrs)).

(** A concrete network: the path on the nodes 1 to 5, in a store with one
    empty result dictionary, and an attacker made from it with the degree
    as metric. *)
Definition g5 : Graph := nx.from_edges [1; 2; 3; 4; 5] [(1, 2); (2, 3); (3, 4); (4, 5)].
Definition w5 : World := mkWorld [g5] [[]] (λ i, i * 7 + 3)%nat 0.
Definition a5 : Attacker := mkAttacker 1 1 (Given nx.degree_iter).
Definition w5a : World := (NetworkAttacker 0 1 (Some nx.degree_iter) w5).2.


Definition path_chooser_of (ty : AttackType) (self : Attacker) : Walk → M (Z * Walk) :=
  match ty with
  | TargetedPath => targeted_path_chooser self
  | _ => random_path_chooser self
  end.

(** How the neighbour discriminator of a path policy picks [t] from a
    non-empty cache, in the store [w]. *)
Definition cache_choice (ty : AttackType) (self : Attacker) (w : World)
    (cache : list Z) (t : Z) : Prop :=
  match ty with
  | TargetedPath =>
      ∃ ranks score,
        call_metric (_metric self) (graph_at w (_network self)) (Some cache)
        = Ok ranks ∧
        py_max snd ranks = Some (t, score)
  | _ => ∃ x c, cache = x :: c ∧ t = pick (rand w (drawn w)) x c
  end.

(** A fresh draw among all the nodes present in the store [w]. *)
Definition fresh_draw (self : Attacker) (w : World) (t : Z) : Prop :=
  ∃ x ns, nx.nodes (graph_at w (_network self)) = x :: ns ∧
          t = pick (rand w (drawn w)) x ns.

(** A round of a path policy: the cache it leaves is read off the network
    before the removal, and its target comes from the cache it found. *)
Definition walk_round (ty : AttackType) (self : Attacker) (r : Round Walk) : Prop :=
  let g := graph_at (r_world r) (_network self) in
  r_next r = mkWalk (r_target r) (Some (elements (nx.adj g (r_target r)))) ∧
  nx.remove_node g (r_target r) = Ok (graph_at (r_after r) (_network self)) ∧
  match neighbors (r_state r) with
  | None => r_target r = target (r_state r)
  | Some [] => fresh_draw self (r_world r) (r_target r)
  | Some (x :: c) => cache_choice ty self (r_world r) (x :: c) (r_target r)
  end.

(** The store after a draw. *)
Definition after_draw (w : World) : World :=
  mkWorld (graphs w) (dicts w) (rand w) (S (drawn w)).

(** An attacker on an empty network. *)
Definition w_empty : World := mkWorld [∅] [[]] (λ i, i) 0.
Definition a_empty : Attacker := mkAttacker 0 1 (Given nx.degree_iter).

(** Shapes of networks: no edge at all; an edge between any two distinct
    nodes; every neighbour a node. *)
Definition isolated (g : Graph) : Prop := ∀ v, nx.adj g v = ∅.
Definition complete (g : Graph) : Prop :=
  ∀ v, v ∈ dom g → nx.adj g v = dom g ∖ {[v]}.
Definition closed (g : Graph) : Prop := ∀ v, nx.adj g v ⊆ dom g.

Definition isolated3 : Graph := nx.from_edges [1; 2; 3] [].
Definition complete3 : Graph := nx.from_edges [1; 2; 3] [(1, 2); (2, 3); (1, 3)].

(** The key written by the round of index [i], and keys in increasing
    order. *)
Definition round_key (i : nat) : string := fmt (py_float (i + 1) * step).
Definition key_lt (a b : string) : Prop := String.ltb a b = true.

(** The dictionary after a sequence of assignments. *)
Definition dict_sets (d : Dict) (kvs : list (string * Measurement)) : Dict :=
  fold_left (λ d kv, dict_set d kv.1 kv.2) kvs d.

(** [simulate] up to its round of index [j], excluded. *)
Definition simulate_upto (attacker : Attacker) (attack_type : AttackType)
    (result_store : nat) (j : nat) : M unit :=
  m ← measure_net (_network attacker);
  setitem result_store (fmt 0) m;;
  for_range (simulate_round attacker attack_type result_store) 0 j.

#[local] Instance key_lt_dec a b : Decision (key_lt a b).
Proof. unfold key_lt. apply _. Defined.

(** A path of 120 nodes, attacked one node at a time. *)
Definition path_graph (n : nat) : Graph :=
  nx.from_edges (Z.of_nat <$> seq 1 n)
    ((λ i, (Z.of_nat i, Z.of_nat (i + 1))) <$> seq 1 (n - 1)).
Definition w120 : World :=
  (NetworkAttacker 0 1 (Some nx.degree_iter)
     (mkWorld [path_graph 120] [[]] (λ i, i * 7 + 3)%nat 0)).2.

(** Three nodes, of which each call is to remove two. *)
Definition a3 : Attacker := mkAttacker 1 2 (Given nx.degree_iter).
Definition w3 : World :=
  (NetworkAttacker 0 2 (Some nx.degree_iter)
     (mkWorld [complete3] [[]] (λ i, i) 0)).2.

(** Any sequence of policy calls on an attacker, whether they return or
    raise. *)
Inductive Attacks (self : Attacker) : World → World → Prop :=
  | Attacks_nil w : Attacks self w w
  | Attacks_call ty n w r w1 w2 :
      policy ty self n w = (r, w1) →
      Attacks self w1 w2 →
      Attacks self w w2.

(** Simple graphs, as networkx keeps them when no self-loop is added: the
    adjacency is symmetric, every neighbour is a node, no node is its own
    neighbour. *)
Definition symmetric (g : Graph) : Prop := ∀ u v, u ∈ nx.adj g v → v ∈ nx.adj g u.
Definition loop_free (g : Graph) : Prop := ∀ v, v ∉ nx.adj g v.
Definition simple (g : Graph) : Prop := symmetric g ∧ closed g ∧ loop_free g.

(** Paths of the graph. *)
Definition edge (g : Graph) (u v : Z) : Prop := v ∈ nx.adj g u.
Definition connected (g : Graph) : Prop :=
  ∀ u v, u ∈ dom g → v ∈ dom g → rtc (edge g) u v.

(** A metric that ranks exactly the nodes requested, those of them that
    are in the network. *)
Definition ranks_requested (m : MetricObj) : Prop :=
  ∀ g nodes, ∃ ranks,
    call_metric m g nodes = Ok ranks ∧ ranks.*1 = nx.nbunch_iter g nodes.

(** The removal of the nodes [ts], one after the other. *)
Fixpoint remove_nodes (g : Graph) (ts : list Z) : Res Graph :=
  match ts with
  | [] => Ok g
  | t :: ts' =>
      match nx.remove_node g t with
      | Ok g' => remove_nodes g' ts'
      | Raise e => Raise e
      end
  end.

(** What a walk needs to go on, on the network [g]: the start node, or
    every node of the cache, is in the network. *)
Definition walk_ok (st : Walk) (g : Graph) : Prop :=
  simple g ∧
  match neighbors st with
  | None => target st ∈ dom g
  | Some cache => ∀ v, v ∈ cache → v ∈ dom g
  end.

(** What each policy relies on: a metric that ranks what it is asked to,
    for the targeted ones, and a simple graph for the walks. *)
Definition policy_ready (ty : AttackType) (self : Attacker) (g : Graph) : Prop :=
  match ty with
  | Random => True
  | Targeted => ranks_requested (_metric self)
  | RandomPath => simple g
  | TargetedPath => simple g ∧ ranks_requested (_metric self)
  end.

Definition is_path (ty : AttackType) : bool :=
  match ty with
  | RandomPath | TargetedPath => true
  | Random | Targeted => false
  end.

(** The exception of a policy that finds no node to take. *)
Definition exhausted (ty : AttackType) : Exn :=
  match ty with
  | Targeted => ValueError
  | _ => IndexError
  end.

(** ** Vocabulary of the further properties *)

(** Node 1 with a self-loop, node 2 apart. *)
Definition g_loop : Graph := nx.add_node (nx.add_edge ∅ 1 1) 2.
Definition w_loop : World := mkWorld [g_loop] [[]] (λ _, 1%nat) 0.
Definition a_loop : Attacker := mkAttacker 0 1 (Given nx.degree_iter).

(** A set of nodes that holds the neighbours of its members, and what the
    loop of [connected_components] keeps true of the nodes seen and the
    components found so far. *)
Definition adj_closed (g : Graph) (X : gset Z) : Prop :=
  ∀ u, u ∈ X → nx.adj g u ⊆ X.

Definition cc_inv (g : Graph) (acc : gset Z * list (gset Z)) : Prop :=
  adj_closed g acc.1 ∧ acc.1 ⊆ dom g ∧ acc.1 = ⋃ acc.2 ∧
  size acc.1 = sum_list (size <$> acc.2).

(** The store after a computation that wrote at most the graph behind [l]
    and the dictionary behind [d]. *)
Definition wrote_only (l d : nat) (w w' : World) : Prop :=
  same_graphs_but l w w' ∧
  length (dicts w') = length (dicts w) ∧
  (∀ d', d' ≠ d → dicts w' !! d' = dicts w !! d') ∧
  rand w' = rand w.

(** The key of the entry of index [i] of the curve. *)
Definition curve_key (i : nat) : string :=
  match i with
  | O => fmt 0
  | S j => round_key j
  end.

(** The check of [attack_size] at a number of nodes [k], and at each number
    from [k] on, [fuel] times. *)
Definition attack_size_check (k : Z) : bool :=
  match py_round (PrimFloat.of_uint63 (Uint63.of_Z k) * step) with
  | Ok n =>
      (n =? round_half_even k 1000) && (0 <=? n) && ((k =? 0) || (100 * n <? k))
  | Raise _ => false
  end.

Fixpoint checks_from (fuel : nat) (k : Z) : bool :=
  match fuel with
  | O => true
  | S fuel' => if attack_size_check k then checks_from fuel' (k + 1) else false
  end.

Definition w600 : World := mkWorld [path_graph 600] [[]] (λ i, i * 7 + 3)%nat 0.

(** The calls in which no node is ranked. *)
Definition unranked (ty : AttackType) (rounds : nat) : Prop :=
  match ty with
  | Random | RandomPath => True
  | Targeted => rounds = 0%nat
  | TargetedPath => (rounds ≤ 1)%nat
  end.

(** The pair a file gives, when its name parses and the reader returns. *)
Definition file_pair {G T : Type} (strptime : string → Res T)
    (reader : string → Res G) (root filename : string) : option (G * T) :=
  match strptime filename with
  | Ok timestamp =>
      match reader (data_reader.path_join root filename) with
      | Ok graph => Some (graph, timestamp)
      | Raise _ => None
      end
  | Raise _ => None
  end.

(** The exception a file raises in the loop, if any: that of [strptime],
    or that of the reader when the name parsed. *)
Definition file_raises {G T : Type} (strptime : string → Res T)
    (reader : string → Res G) (root filename : string) (e : Exn) : Prop :=
  strptime filename = Raise e ∨
  (∃ timestamp, strptime filename = Ok timestamp) ∧
  reader (data_reader.path_join root filename) = Raise e.

(** [g'] has some of the nodes of [g] and some of its edges. *)
Definition subgraph (g' g : Graph) : Prop :=
  dom g' ⊆ dom g ∧ ∀ u, nx.adj g' u ⊆ nx.adj g u.

(** * Properties *)

(** ** The graph interface *)

Section graph_facts.
Implicit Types (g : Graph) (v u : Z).

Lemma dom_del_edges g v (us : list Z) :
  dom (foldr (λ u adj, alter (λ s, s ∖ {[v]}) u adj) g us) = dom g.
Proof.
  induction us as [|u us IH]; simpl; [done|].
  by rewrite dom_alter_L.
Qed.

Lemma remove_node_Ok g v g' :
  nx.remove_node g v = Ok g' → v ∈ dom g ∧ dom g' = dom g ∖ {[v]}.
Proof.
  unfold nx.remove_node. destruct (g !! v) as [nbrs|] eqn:E; [|done].
  intros [= <-]. split.
  - apply elem_of_dom. eauto.
  - by rewrite dom_delete_L, dom_del_edges.
Qed.

Lemma remove_node_absent g v :
  v ∉ dom g → nx.remove_node g v = Raise NetworkXError.
Proof.
  intros H. unfold nx.remove_node.
  apply not_elem_of_dom in H. by rewrite H.
Qed.

Lemma remove_node_present g v :
  v ∈ dom g → ∃ g', nx.remove_node g v = Ok g'.
Proof.
  intros [nbrs E]%elem_of_dom. unfold nx.remove_node. rewrite E. eauto.
Qed.

Lemma remove_node_size g v g' :
  nx.remove_node g v = Ok g' →
  (nx.number_of_nodes g' + 1 = nx.number_of_nodes g)%nat.
Proof.
  intros [Hin Hdom]%remove_node_Ok. unfold nx.number_of_nodes.
  rewrite Hdom, size_difference by set_solver.
  rewrite size_singleton.
  assert (size (dom g) ≠ 0%nat); [|lia].
  intros H0%size_empty_inv. set_solver.
Qed.

Lemma neighbors_Ok g v l :
  nx.neighbors g v = Ok l → v ∈ dom g ∧ l = elements (nx.adj g v).
Proof.
  unfold nx.neighbors, nx.adj. destruct (g !! v) as [nbrs|] eqn:E; [|done].
  intros [= <-]. split; [|done]. apply elem_of_dom; eauto.
Qed.

Lemma nodes_nil g : nx.nodes g = [] ↔ dom g = ∅.
Proof.
  unfold nx.nodes. split.
  - intros H. apply leibniz_equiv, elements_empty_inv. by rewrite H.
  - intros ->. apply elements_empty.
Qed.

Lemma elem_of_nodes g v : v ∈ nx.nodes g ↔ v ∈ dom g.
Proof. unfold nx.nodes. apply elem_of_elements. Qed.

Lemma empty_graph_at (gs : list Graph) (l : nat) :
  (length gs ≤ l)%nat → gs !!! l = (∅ : Graph).
Proof.
  intros H. rewrite list_lookup_total_alt.
  by rewrite (proj2 (lookup_ge_None gs l)) by done.
Qed.
End graph_facts.

(** ** The monad *)

Lemma bind_Ok {A B} (m : M A) (k : A → M B) w b w' :
  (m ≫= k) w = (Ok b, w') ↔ ∃ a w1, m w = (Ok a, w1) ∧ k a w1 = (Ok b, w').
Proof.
  unfold mbind, M_bind. destruct (m w) as [[a|e] w1]; split.
  - eauto.
  - by intros (? & ? & [= -> ->] & ?).
  - done.
  - by intros (? & ? & [=] & ?).
Qed.

Lemma bind_Ok_l {A B} (m : M A) (k : A → M B) w a w1 :
  m w = (Ok a, w1) → (m ≫= k) w = k a w1.
Proof. intros H. unfold mbind, M_bind. by rewrite H. Qed.

Lemma bind_Raise_l {A B} (m : M A) (k : A → M B) w e w1 :
  m w = (Raise e, w1) → (m ≫= k) w = (Raise e, w1).
Proof. intros H. unfold mbind, M_bind. by rewrite H. Qed.

Lemma same_store_refl w : same_store w w.
Proof. by repeat split. Qed.

Lemma same_store_trans w1 w2 w3 :
  same_store w1 w2 → same_store w2 w3 → same_store w1 w3.
Proof. unfold same_store. intros (->&->&->) (->&->&->). done. Qed.

Lemma same_store_graph_at w w' l : same_store w w' → graph_at w' l = graph_at w l.
Proof. intros (H&_). unfold graph_at. by rewrite H. Qed.

Lemma reads_only_bind {A B} (m : M A) (k : A → M B) :
  reads_only m → (∀ a, reads_only (k a)) → reads_only (m ≫= k).
Proof.
  intros Hm Hk w. specialize (Hm w). unfold mbind, M_bind.
  destruct (m w) as [[a|e] w1]; simpl in *; [|done].
  eapply same_store_trans; [done|apply Hk].
Qed.

Lemma reads_only_ret {A} (a : A) : reads_only (mret a).
Proof. intros w. apply same_store_refl. Qed.

Lemma reads_only_raise {A} e : reads_only (@raise A e).
Proof. intros w. apply same_store_refl. Qed.

Lemma reads_only_lift {A} (r : Res A) : reads_only (lift r).
Proof. intros w. apply same_store_refl. Qed.

Lemma reads_only_load l : reads_only (load l).
Proof. intros w. apply same_store_refl. Qed.

Lemma reads_only_choice l : reads_only (choice l).
Proof. intros w. unfold choice. destruct l; by repeat split. Qed.

Create HintDb reads.
#[local] Hint Resolve reads_only_ret reads_only_raise reads_only_lift
  reads_only_load reads_only_choice : reads.

Ltac reads :=
  repeat first
    [ progress eauto with reads
    | apply reads_only_bind; [|intros ?]
    | match goal with
      | |- reads_only (match ?x with _ => _ end) => destruct x
      end ].

Lemma reads_only_random_node self nodes : reads_only (_random_node self nodes).
Proof. unfold _random_node. reads. Qed.

Lemma reads_only_best_node self nodes : reads_only (_best_node self nodes).
Proof. unfold _best_node. reads. Qed.

Lemma reads_only_net_neighbors l v : reads_only (net_neighbors l v).
Proof. unfold net_neighbors. reads. Qed.

#[local] Hint Resolve reads_only_random_node reads_only_best_node
  reads_only_net_neighbors : reads.

Lemma reads_only_stateless f : reads_only f → ∀ s, reads_only (stateless f s).
Proof. intros H s. unfold stateless. reads. Qed.

Lemma reads_only_choose_target self disc st :
  (∀ nbrs, reads_only (disc nbrs)) → reads_only (choose_target self disc st).
Proof. intros H. unfold choose_target. reads. Qed.

Lemma reads_only_path_chooser self : reads_only (_path_chooser self).
Proof. unfold _path_chooser. reads. Qed.

Lemma reads_only_measure_net l : reads_only (measure_net l).
Proof. unfold measure_net. reads. Qed.

(** ** Removing a node from the graph behind a reference *)

Lemma graph_at_valid w l v : v ∈ dom (graph_at w l) → (l < length (graphs w))%nat.
Proof.
  intros H. destruct (decide (l < length (graphs w))%nat) as [|Hge]; [done|].
  unfold graph_at in H. rewrite empty_graph_at in H by lia. set_solver.
Qed.

Lemma net_remove_node_Ok l v w w' :
  net_remove_node l v w = (Ok tt, w') →
  nx.remove_node (graph_at w l) v = Ok (graph_at w' l) ∧
  same_dicts w w' ∧ same_graphs_but l w w' ∧ drawn w' = drawn w.
Proof.
  unfold net_remove_node, mbind, M_bind, load, lift, store. simpl.
  destruct (nx.remove_node (graph_at w l) v) as [g'|e] eqn:E; [|done].
  intros [= <-]. pose proof (remove_node_Ok _ _ _ E) as [Hin _].
  apply graph_at_valid in Hin.
  repeat split; simpl.
  - unfold graph_at at 1. simpl. by rewrite list_lookup_total_insert_eq.
  - apply length_insert.
  - intros l' Hne. by rewrite list_lookup_insert_ne.
Qed.

Lemma net_remove_node_Raise l v w e w' :
  net_remove_node l v w = (Raise e, w') → w' = w.
Proof.
  unfold net_remove_node, mbind, M_bind, load, lift, store. simpl.
  destruct (nx.remove_node (graph_at w l) v); [done|]. by intros [= _ <-].
Qed.

Lemma net_remove_node_absent l v w :
  v ∉ dom (graph_at w l) → net_remove_node l v w = (Raise NetworkXError, w).
Proof.
  intros H. unfold net_remove_node, mbind, M_bind, load, lift. simpl.
  by rewrite remove_node_absent.
Qed.

Lemma net_remove_node_frame l v w r w' :
  net_remove_node l v w = (r, w') →
  same_dicts w w' ∧ same_graphs_but l w w' ∧ drawn w' = drawn w.
Proof.
  destruct r as [[]|e]; intros H.
  - by apply net_remove_node_Ok in H as (_&?&?&?).
  - apply net_remove_node_Raise in H as ->. by repeat split.
Qed.

(** ** The rounds of [_attack] *)

Section rounds.
Context {S : Type} (self : Attacker) (choose : S → M (Z * S)).

Lemma attack_round_Ok s w s' w' :
  attack_round self choose s w = (Ok s', w') ↔
  ∃ t w1, choose s w = (Ok (t, s'), w1) ∧
          net_remove_node (_network self) t w1 = (Ok tt, w').
Proof.
  unfold attack_round. rewrite bind_Ok. split.
  - intros ([t s1] & w1 & Hc & H). apply bind_Ok in H as ([] & w2 & Hr & [= <- <-]).
    eauto.
  - intros (t & w1 & Hc & Hr). exists (t, s'), w1. split; [done|].
    by rewrite (bind_Ok_l _ _ _ _ _ Hr).
Qed.

Lemma attack_loop_Rounds k s w w' :
  attack_loop self choose k s w = (Ok tt, w') ↔
  ∃ rs, length rs = k ∧ Rounds self choose s w rs w'.
Proof.
  revert s w. induction k as [|k IH]; intros s w; simpl.
  - split.
    + intros [= <-]. exists []. split; [done|constructor].
    + intros (rs & Hl & HR). destruct rs; [|done]. by inversion HR.
  - rewrite bind_Ok. split.
    + intros (s' & w2 & (t & w1 & Hc & Hr)%attack_round_Ok & (rs & Hl & HR)%IH).
      eexists (_ :: rs). split; [simpl; by f_equal|]. by econstructor.
    + intros (rs & Hl & HR). destruct rs as [|r rs]; [done|].
      inversion HR; subst. eexists _, _. split.
      * apply attack_round_Ok. eauto.
      * apply IH. exists rs. split; [by injection Hl|done].
Qed.

Lemma Rounds_Forall (P : Round S → Prop) s w rs w' :
  (∀ s w t s' w1 w2,
      choose s w = (Ok (t, s'), w1) →
      net_remove_node (_network self) t w1 = (Ok tt, w2) →
      P (mkRound s w t s' w2)) →
  Rounds self choose s w rs w' → Forall P rs.
Proof. intros HP. induction 1; constructor; eauto. Qed.

Lemma Rounds_head s w rs w' r :
  Rounds self choose s w rs w' → head rs = Some r →
  r_state r = s ∧ r_world r = w.
Proof. destruct 1; simpl; [done|]. by intros [= <-]. Qed.


(** With a [choose_target] that only reads, each round takes exactly one
    node of the network away. *)
Hypothesis choose_reads : ∀ s, reads_only (choose s).

Lemma round_graph s w t s' w1 w2 :
  choose s w = (Ok (t, s'), w1) →
  net_remove_node (_network self) t w1 = (Ok tt, w2) →
  same_store w w1 ∧
  nx.remove_node (graph_at w (_network self)) t = Ok (graph_at w2 (_network self)).
Proof.
  intros Hc Hr. pose proof (choose_reads s w) as Hs. rewrite Hc in Hs. simpl in Hs.
  split; [done|]. apply net_remove_node_Ok in Hr as (Hr&_).
  by rewrite (same_store_graph_at _ _ _ Hs) in Hr.
Qed.

Lemma Rounds_nodes s w rs w' :
  Rounds self choose s w rs w' →
  dom (graph_at w' (_network self)) ⊆ dom (graph_at w (_network self)) ∧
  (nx.number_of_nodes (graph_at w' (_network self)) + length rs
   = nx.number_of_nodes (graph_at w (_network self)))%nat.
Proof.
  induction 1 as [|s w t s' w1 w2 rs w3 Hc Hr HR [IH1 IH2]]; simpl.
  - split; [done|lia].
  - destruct (round_graph _ _ _ _ _ _ Hc Hr) as [_ Hg].
    pose proof (remove_node_size _ _ _ Hg).
    apply remove_node_Ok in Hg as [_ Hd]. split; [set_solver|lia].
Qed.

Lemma attack_loop_frame k s w r w' :
  attack_loop self choose k s w = (r, w') →
  same_dicts w w' ∧ same_graphs_but (_network self) w w'.
Proof.
  revert s w. induction k as [|k IH]; intros s w; simpl.
  - intros [= _ <-]. by repeat split.
  - unfold mbind, M_bind, attack_round. unfold mbind, M_bind.
    pose proof (choose_reads s w) as Hs.
    destruct (choose s w) as [[[t s']|e] w1]; simpl in Hs;
      destruct Hs as (Hg&Hd&Hrd).
    2:{ intros [= _ <-]. unfold same_dicts, same_graphs_but.
        rewrite Hg, Hd, Hrd. done. }
    destruct (net_remove_node (_network self) t w1) as [[[]|e] w2] eqn:Hr;
      apply net_remove_node_frame in Hr as ((Hd1&Hr1)&(Hl1&Hg1)&_);
      rewrite Hg in *; rewrite Hd in *; rewrite Hrd in *.
    + intros ((Hd2&Hr2)&(Hl2&Hg2))%IH. repeat split; try congruence.
      intros l' Hne. rewrite Hg2, Hg1; done.
    + intros [= _ <-]. done.
Qed.

(** Asking for more rounds than there are nodes fails. *)
Lemma attack_loop_over k s w :
  (nx.number_of_nodes (graph_at w (_network self)) < k)%nat →
  ∃ e w', attack_loop self choose k s w = (Raise e, w').
Proof.
  revert s w. induction k as [|k IH]; intros s w Hlt; [lia|]. simpl.
  destruct (attack_round self choose s w) as [[s'|e] w2] eqn:Ha.
  - rewrite (bind_Ok_l _ _ _ _ _ Ha).
    apply attack_round_Ok in Ha as (t & w1 & Hc & Hr).
    destruct (round_graph _ _ _ _ _ _ Hc Hr) as [_ Hg%remove_node_size].
    apply IH. lia.
  - rewrite (bind_Raise_l _ _ _ _ _ Ha). eauto.
Qed.
End rounds.

(** ** The four policies *)

Lemma attack_unfold {S} self (choose : S → M (Z * S)) s n :
  _attack self choose s n = attack_loop self choose (rounds_of self n) s.
Proof. unfold _attack, rounds_of. by destruct n. Qed.

Lemma reads_random_chooser self s : reads_only (random_chooser self s).
Proof. apply reads_only_stateless. eauto with reads. Qed.
Lemma reads_targeted_chooser self s : reads_only (targeted_chooser self s).
Proof. apply reads_only_stateless. eauto with reads. Qed.
Lemma reads_random_path_chooser self s : reads_only (random_path_chooser self s).
Proof. apply reads_only_choose_target. eauto with reads. Qed.
Lemma reads_targeted_path_chooser self s : reads_only (targeted_path_chooser self s).
Proof. apply reads_only_choose_target. eauto with reads. Qed.

#[local] Hint Resolve reads_random_chooser reads_targeted_chooser
  reads_random_path_chooser reads_targeted_path_chooser : reads.

(** A successful call is a sequence of rounds, after the draw of the start
    node for the path policies. *)
Lemma random_Rounds self n w w' :
  random self n w = (Ok tt, w') ↔
  ∃ rs, length rs = rounds_of self n ∧ Rounds self (random_chooser self) tt w rs w'.
Proof. unfold random. rewrite attack_unfold. apply attack_loop_Rounds. Qed.

Lemma targeted_Rounds self n w w' :
  targeted self n w = (Ok tt, w') ↔
  ∃ rs, length rs = rounds_of self n ∧ Rounds self (targeted_chooser self) tt w rs w'.
Proof. unfold targeted. rewrite attack_unfold. apply attack_loop_Rounds. Qed.

Lemma random_path_Rounds self n w w' :
  random_path self n w = (Ok tt, w') ↔
  ∃ st w1 rs, _path_chooser self w = (Ok st, w1) ∧ length rs = rounds_of self n ∧
              Rounds self (random_path_chooser self) st w1 rs w'.
Proof.
  unfold random_path, random_path_chooser, targeted_path_chooser. split.
  - intros (st & w1 & Hp & Ha)%bind_Ok. rewrite attack_unfold in Ha.
    apply attack_loop_Rounds in Ha as (rs & ? & ?). eauto 10.
  - intros (st & w1 & rs & Hp & Hl & HR). apply bind_Ok. exists st, w1.
    split; [done|]. rewrite attack_unfold. apply attack_loop_Rounds. eauto.
Qed.

Lemma targeted_path_Rounds self n w w' :
  targeted_path self n w = (Ok tt, w') ↔
  ∃ st w1 rs, _path_chooser self w = (Ok st, w1) ∧ length rs = rounds_of self n ∧
              Rounds self (targeted_path_chooser self) st w1 rs w'.
Proof.
  unfold targeted_path, random_path_chooser, targeted_path_chooser. split.
  - intros (st & w1 & Hp & Ha)%bind_Ok. rewrite attack_unfold in Ha.
    apply attack_loop_Rounds in Ha as (rs & ? & ?). eauto 10.
  - intros (st & w1 & rs & Hp & Hl & HR). apply bind_Ok. exists st, w1.
    split; [done|]. rewrite attack_unfold. apply attack_loop_Rounds. eauto.
Qed.

Lemma path_chooser_same self w r w1 :
  _path_chooser self w = (r, w1) → same_store w w1.
Proof. intros H. pose proof (reads_only_path_chooser self w) as Hs. by rewrite H in Hs. Qed.

Lemma policy_nodes ty self n w w' :
  policy ty self n w = (Ok tt, w') →
  dom (graph_at w' (_network self)) ⊆ dom (graph_at w (_network self)) ∧
  (nx.number_of_nodes (graph_at w' (_network self)) + rounds_of self n
   = nx.number_of_nodes (graph_at w (_network self)))%nat.
Proof.
  destruct ty; simpl.
  - intros (rs & <- & HR)%random_Rounds.
    eapply Rounds_nodes; [|done]. eauto with reads.
  - intros (rs & <- & HR)%targeted_Rounds.
    eapply Rounds_nodes; [|done]. eauto with reads.
  - intros (st & w1 & rs & Hp%path_chooser_same & <- & HR)%random_path_Rounds.
    rewrite <- (same_store_graph_at _ _ (_network self) Hp).
    eapply Rounds_nodes; [|done]. eauto with reads.
  - intros (st & w1 & rs & Hp%path_chooser_same & <- & HR)%targeted_path_Rounds.
    rewrite <- (same_store_graph_at _ _ (_network self) Hp).
    eapply Rounds_nodes; [|done]. eauto with reads.
Qed.

Ltac chooser_reads :=
  let s := fresh "s" in
  intros s;
  first [ exact (reads_random_chooser _ s) | exact (reads_targeted_chooser _ s)
        | exact (reads_random_path_chooser _ s)
        | exact (reads_targeted_path_chooser _ s) ].

Lemma policy_frame ty self n w r w' :
  policy ty self n w = (r, w') →
  same_dicts w w' ∧ same_graphs_but (_network self) w w'.
Proof.
  assert (∀ w1, same_store w w1 →
            (same_dicts w1 w' ∧ same_graphs_but (_network self) w1 w') →
            same_dicts w w' ∧ same_graphs_but (_network self) w w') as Hstep.
  { intros w1 (Hg&Hd&Hr). unfold same_dicts, same_graphs_but.
    by rewrite Hg, Hd, Hr. }
  destruct ty; simpl.
  - unfold random. rewrite attack_unfold. apply attack_loop_frame. chooser_reads.
  - unfold targeted. rewrite attack_unfold. apply attack_loop_frame. chooser_reads.
  - unfold random_path, mbind, M_bind.
    destruct (_path_chooser self w) as [[st|e] w1] eqn:Hp;
      apply path_chooser_same in Hp.
    + rewrite attack_unfold. intros H%attack_loop_frame; [|chooser_reads].
      by apply (Hstep w1).
    + intros [= _ <-]. apply (Hstep w1); [done|].
      by repeat split.
  - unfold targeted_path, mbind, M_bind.
    destruct (_path_chooser self w) as [[st|e] w1] eqn:Hp;
      apply path_chooser_same in Hp.
    + rewrite attack_unfold. intros H%attack_loop_frame; [|chooser_reads].
      by apply (Hstep w1).
    + intros [= _ <-]. apply (Hstep w1); [done|].
      by repeat split.
Qed.

Lemma policy_over ty self n w :
  (nx.number_of_nodes (graph_at w (_network self)) < rounds_of self n)%nat →
  ∃ e w', policy ty self n w = (Raise e, w').
Proof.
  intros Hlt. destruct ty; simpl.
  - unfold random. rewrite attack_unfold. apply attack_loop_over; [chooser_reads|done].
  - unfold targeted. rewrite attack_unfold. apply attack_loop_over; [chooser_reads|done].
  - unfold random_path.
    destruct (_path_chooser self w) as [[st|e] w1] eqn:Hp.
    + rewrite (bind_Ok_l _ _ _ _ _ Hp), attack_unfold.
      apply path_chooser_same in Hp.
      apply attack_loop_over; [chooser_reads|].
      by rewrite (same_store_graph_at _ _ _ Hp).
    + rewrite (bind_Raise_l _ _ _ _ _ Hp). eauto.
  - unfold targeted_path.
    destruct (_path_chooser self w) as [[st|e] w1] eqn:Hp.
    + rewrite (bind_Ok_l _ _ _ _ _ Hp), attack_unfold.
      apply path_chooser_same in Hp.
      apply attack_loop_over; [chooser_reads|].
      by rewrite (same_store_graph_at _ _ _ Hp).
    + rewrite (bind_Raise_l _ _ _ _ _ Hp). eauto.
Qed.

Lemma Calls_nodes ty self k w w' :
  Calls ty self k w w' →
  (nx.number_of_nodes (graph_at w' (_network self)) + k * rounds_of self None
   = nx.number_of_nodes (graph_at w (_network self)))%nat.
Proof.
  induction 1 as [|k w w1 w2 Hp _ IH]; [lia|].
  apply policy_nodes in Hp as [_ Hp]. lia.
Qed.

(** C1: after [k] successful calls of a policy on an attacker with
    per-step count [n], the working network has [k * n] nodes fewer than
    at the start; and one more successful call, with the attacker's count
    or a count of the caller's, removes exactly that many distinct nodes
    of the network. *)
Theorem attack_node_count ty self k n w wk w' :
  0 ≤ _n self →
  Calls ty self k w wk →
  0 ≤ default (_n self) n →
  policy ty self n wk = (Ok tt, w') →
  Z.of_nat (nx.number_of_nodes (graph_at wk (_network self)))
  = Z.of_nat (nx.number_of_nodes (graph_at w (_network self))) - Z.of_nat k * _n self ∧
  dom (graph_at w' (_network self)) ⊆ dom (graph_at wk (_network self)) ∧
  Z.of_nat (size (dom (graph_at wk (_network self)) ∖ dom (graph_at w' (_network self))))
  = default (_n self) n.
Proof.
  intros Hn HC Hc Hp. apply Calls_nodes in HC.
  apply policy_nodes in Hp as [Hsub Hp].
  unfold rounds_of, nx.number_of_nodes in *. simpl in HC.
  split; [nia|]. split; [done|].
  rewrite size_difference by done. lia.
Qed.

(** ** Choosing a node *)

Lemma fold_max_spec {A} (key : A → Z) (r : list A) (x : A) :
  let m := fold_left (λ best y, if key best <? key y then y else best) r x in
  m ∈ x :: r ∧ key x ≤ key m ∧ ∀ y, y ∈ r → key y ≤ key m.
Proof.
  revert x. induction r as [|y r IH]; intros x; simpl.
  - split; [left|]. split; [lia|]. intros y Hy. by apply elem_of_nil in Hy.
  - destruct (Z.ltb_spec (key x) (key y)) as [Hlt|Hge].
    + destruct (IH y) as (Hin & Hle & Hall). split; [by right|].
      split; [lia|]. intros z [->|Hz]%elem_of_cons; [lia|by apply Hall].
    + destruct (IH x) as (Hin & Hle & Hall). split.
      { apply elem_of_cons in Hin as [->|Hin]; [left|right; by right]. }
      split; [lia|]. intros z [->|Hz]%elem_of_cons; [lia|by apply Hall].
Qed.

Lemma py_max_Some {A} (key : A → Z) (l : list A) (x : A) :
  py_max key l = Some x → x ∈ l ∧ ∀ y, y ∈ l → key y ≤ key x.
Proof.
  destruct l as [|a r]; [done|]. simpl. intros [= <-].
  destruct (fold_max_spec key r a) as (Hin & Hle & Hall).
  split; [done|]. intros y [->|Hy]%elem_of_cons; [done|by apply Hall].
Qed.

Lemma py_max_None {A} (key : A → Z) (l : list A) : py_max key l = None ↔ l = [].
Proof. by destruct l. Qed.

Lemma pick_elem {A} (r : nat) (x : A) (l : list A) : pick r x l ∈ x :: l.
Proof.
  unfold pick. apply list_elem_of_In, nth_In.
  apply Nat.mod_upper_bound. simpl. lia.
Qed.

Lemma pick_any {A} (x : A) (l : list A) (v : A) :
  v ∈ x :: l → ∃ r, pick r x l = v.
Proof.
  intros (i & Hi)%list_elem_of_lookup. exists i. unfold pick.
  pose proof (lookup_lt_Some _ _ _ Hi) as Hlt.
  rewrite Nat.mod_small by done.
  by apply nth_lookup_Some.
Qed.

Lemma choice_Ok l w t w' :
  choice l w = (Ok t, w') →
  ∃ x r, l = x :: r ∧ t = pick (rand w (drawn w)) x r ∧ same_store w w' ∧
         drawn w' = S (drawn w).
Proof.
  unfold choice. destruct l as [|x r]; [done|]. intros [= <- <-].
  exists x, r. by repeat split.
Qed.

Lemma random_node_Ok self nodes w t w' :
  _random_node self nodes w = (Ok t, w') →
  ∃ x r, default (nx.nodes (graph_at w (_network self))) nodes = x :: r ∧
         t = pick (rand w (drawn w)) x r ∧ same_store w w' ∧
         drawn w' = S (drawn w).
Proof.
  unfold _random_node. destruct nodes as [l|]; simpl.
  - apply choice_Ok.
  - unfold mbind, M_bind, load. apply choice_Ok.
Qed.

Lemma best_node_Ok self nodes w t w' :
  _best_node self nodes w = (Ok t, w') →
  w' = w ∧
  ∃ ranks score,
    call_metric (_metric self) (graph_at w (_network self)) nodes = Ok ranks ∧
    py_max snd ranks = Some (t, score).
Proof.
  unfold _best_node, mbind, M_bind, load, lift. simpl.
  destruct (call_metric _ _ _) as [ranks|e]; [|done].
  destruct (py_max snd ranks) as [[node score]|] eqn:Hmax; [|done].
  intros [= <- <-]. eauto.
Qed.

Lemma attack_node_count_witness :
  let w1 := (policy Targeted a5 None w5a).2 in
  let w2 := (policy Targeted a5 (Some 2) w1).2 in
  Z.of_nat (nx.number_of_nodes (graph_at w1 1))
  = Z.of_nat (nx.number_of_nodes (graph_at w5a 1)) - Z.of_nat 1 * 1 ∧
  dom (graph_at w2 1) ⊆ dom (graph_at w1 1) ∧
  Z.of_nat (size (dom (graph_at w1 1) ∖ dom (graph_at w2 1))) = 2.
Proof.
  intros w1 w2.
  apply (attack_node_count Targeted a5 1 (Some 2) w5a w1 w2).
  - simpl. lia.
  - apply Calls_S with (w1 := w1); [vm_compute; reflexivity|apply Calls_O].
  - simpl. lia.
  - vm_compute. reflexivity.
Defined.

(** The rounds of a successful call of [targeted]. *)
Lemma targeted_removes_max_rounds self n w w' :
  targeted self n w = (Ok tt, w') →
  ∃ rs, length rs = rounds_of self n ∧
        Rounds self (targeted_chooser self) tt w rs w' ∧
        Forall (λ r,
          let g := graph_at (r_world r) (_network self) in
          nx.remove_node g (r_target r) = Ok (graph_at (r_after r) (_network self)) ∧
          ∃ ranks score,
            call_metric (_metric self) g None = Ok ranks ∧
            (r_target r, score) ∈ ranks ∧
            ∀ v s, (v, s) ∈ ranks → s ≤ score) rs.
Proof.
  intros (rs & Hl & HR)%targeted_Rounds. exists rs. split; [done|]. split; [done|].
  eapply Rounds_Forall; [|done]. clear. intros [] w t [] w1 w2 Hc Hr. simpl.
  destruct (round_graph self _ (reads_targeted_chooser self) _ _ _ _ _ _ Hc Hr)
    as [_ Hg].
  split; [done|].
  unfold targeted_chooser, stateless in Hc.
  apply bind_Ok in Hc
    as (t' & w0 & (-> & ranks & score & Hcall & Hmax)%best_node_Ok & [= <- <-]).
  apply py_max_Some in Hmax as [Hin Hall]. exists ranks, score.
  split; [done|]. split; [done|].
  intros v s Hv. apply (Hall (v, s) Hv).
Qed.

(** C2: every removal the targeted policy makes takes a node whose score is
    at least the score of each node the metric ranks on the network as it
    is at that moment. *)
Theorem targeted_removes_maximum self n w w' :
  targeted self n w = (Ok tt, w') →
  ∃ rs, length rs = rounds_of self n ∧
        Rounds self (targeted_chooser self) tt w rs w' ∧
        Forall (λ r,
          let g := graph_at (r_world r) (_network self) in
          nx.remove_node g (r_target r) = Ok (graph_at (r_after r) (_network self)) ∧
          ∃ ranks score,
            call_metric (_metric self) g None = Ok ranks ∧
            (r_target r, score) ∈ ranks ∧
            ∀ v s, (v, s) ∈ ranks → s ≤ score) rs.
Proof. apply targeted_removes_max_rounds. Qed.

Lemma targeted_removes_maximum_witness :
  ∃ rs, length rs = 2%nat ∧
        Rounds a5 (targeted_chooser a5) tt w5a rs (targeted a5 (Some 2) w5a).2 ∧
        Forall (λ r,
          let g := graph_at (r_world r) 1 in
          nx.remove_node g (r_target r) = Ok (graph_at (r_after r) 1) ∧
          ∃ ranks score,
            call_metric (Given nx.degree_iter) g None = Ok ranks ∧
            (r_target r, score) ∈ ranks ∧
            ∀ v s, (v, s) ∈ ranks → s ≤ score) rs.
Proof.
  apply (targeted_removes_maximum a5 (Some 2) w5a). vm_compute. reflexivity.
Defined.

(** ** The path policies *)


Lemma net_neighbors_Ok l t w nbrs w' :
  net_neighbors l t w = (Ok nbrs, w') →
  w' = w ∧ t ∈ dom (graph_at w l) ∧ nbrs = elements (nx.adj (graph_at w l) t).
Proof.
  unfold net_neighbors, mbind, M_bind, load, lift. simpl.
  destruct (nx.neighbors (graph_at w l) t) as [ns|e] eqn:E; [|done].
  intros [= <- <-]. by apply neighbors_Ok in E as [? ->].
Qed.

Lemma path_round_spec ty self st w t st' w1 w2 :
  ty = RandomPath ∨ ty = TargetedPath →
  path_chooser_of ty self st w = (Ok (t, st'), w1) →
  net_remove_node (_network self) t w1 = (Ok tt, w2) →
  walk_round ty self (mkRound st w t st' w2).
Proof.
  intros Hty Hc Hr.
  assert (∀ s, reads_only (path_chooser_of ty self s)) as Hreads.
  { destruct Hty as [-> | ->]; simpl; eauto with reads. }
  destruct (round_graph self _ Hreads _ _ _ _ _ _ Hc Hr) as [Hs Hg].
  unfold walk_round. simpl.
  assert (∃ w0, (match neighbors st with
                 | Some [] => _random_node self None
                 | Some (x :: c) =>
                     match ty with
                     | TargetedPath => _best_node self (Some (x :: c))
                     | _ => _random_node self (Some (x :: c))
                     end
                 | None => mret (target st)
                 end) w = (Ok t, w0) ∧
               st' = mkWalk t (Some (elements (nx.adj (graph_at w0 (_network self)) t))) ∧
               same_store w w0) as (w0 & Hfirst & -> & Hs0).
  { destruct Hty as [-> | ->]; simpl in Hc;
      unfold random_path_chooser, targeted_path_chooser, choose_target in Hc;
      apply bind_Ok in Hc as (t' & w0 & Hfirst & Hrest);
      apply bind_Ok in Hrest as (nbrs & w0' & (-> & _ & ->)%net_neighbors_Ok & [= <- <- <-]);
      exists w0; (split; [|split; [done|]]).
    - by destruct (neighbors st) as [[|x c]|].
    - destruct (neighbors st) as [[|x c]|]; cbv beta iota in Hfirst.
      + pose proof (reads_only_random_node self None w) as H. by rewrite Hfirst in H.
      + pose proof (reads_only_random_node self (Some (x :: c)) w) as H.
        by rewrite Hfirst in H.
      + injection Hfirst as <- <-. apply same_store_refl.
    - by destruct (neighbors st) as [[|x c]|].
    - destruct (neighbors st) as [[|x c]|]; cbv beta iota in Hfirst.
      + pose proof (reads_only_random_node self None w) as H. by rewrite Hfirst in H.
      + pose proof (reads_only_best_node self (Some (x :: c)) w) as H.
        by rewrite Hfirst in H.
      + injection Hfirst as <- <-. apply same_store_refl. }
  rewrite (same_store_graph_at _ _ _ Hs0). split; [done|]. split; [done|].
  destruct (neighbors st) as [[|x c]|].
  - apply random_node_Ok in Hfirst as (y & ns & Hn & -> & _). simpl in Hn.
    by exists y, ns.
  - destruct Hty as [-> | ->]; simpl.
    + apply random_node_Ok in Hfirst as (y & ns & Hn & -> & _). simpl in Hn.
      by exists y, ns.
    + apply best_node_Ok in Hfirst as (_ & ranks & score & Hcall & Hmax).
      by exists ranks, score.
  - by injection Hfirst as <- _.
Qed.

Lemma path_policy_Rounds ty self n w w' :
  ty = RandomPath ∨ ty = TargetedPath →
  policy ty self n w = (Ok tt, w') →
  ∃ st w1 rs, _path_chooser self w = (Ok st, w1) ∧ neighbors st = None ∧
              fresh_draw self w (target st) ∧ same_store w w1 ∧
              length rs = rounds_of self n ∧
              Rounds self (path_chooser_of ty self) st w1 rs w' ∧
              Forall (walk_round ty self) rs.
Proof.
  intros Hty Hp.
  assert (∃ st w1 rs, _path_chooser self w = (Ok st, w1) ∧
            length rs = rounds_of self n ∧
            Rounds self (path_chooser_of ty self) st w1 rs w')
    as (st & w1 & rs & Hpc & Hl & HR).
  { destruct Hty as [-> | ->]; simpl in *.
    - by apply random_path_Rounds.
    - by apply targeted_path_Rounds. }
  exists st, w1, rs. split; [done|].
  pose proof (path_chooser_same _ _ _ _ Hpc) as Hs.
  unfold _path_chooser in Hpc.
  apply bind_Ok in Hpc as (t & w0 & Hrn & [= <- <-]). simpl.
  apply random_node_Ok in Hrn as (x & ns & Hn & -> & _). simpl in Hn.
  split; [done|]. split; [by exists x, ns|]. split; [done|]. split; [done|].
  split; [done|].
  eapply Rounds_Forall; [|done]. intros. by eapply path_round_spec.
Qed.



(** C9: the walk state is made anew by every call of a path policy: the
    closure starts with no cache, and the first node a call removes is the
    start node it has just drawn, at random among all the nodes present
    when the call is made, whatever store the earlier calls have left. *)
Theorem path_call_starts_fresh ty self n w w' :
  ty = RandomPath ∨ ty = TargetedPath →
  policy ty self n w = (Ok tt, w') →
  ∃ st w1 rs,
    _path_chooser self w = (Ok st, w1) ∧ neighbors st = None ∧
    length rs = rounds_of self n ∧
    Rounds self (path_chooser_of ty self) st w1 rs w' ∧
    ∀ r, head rs = Some r →
      ∃ x ns, nx.nodes (graph_at w (_network self)) = x :: ns ∧
              r_target r = pick (rand w (drawn w)) x ns ∧
              ∀ v, v ∈ dom (graph_at w (_network self)) → ∃ d, pick d x ns = v.
Proof.
  intros Hty Hp.
  destruct (path_policy_Rounds _ _ _ _ _ Hty Hp)
    as (st & w1 & rs & Hpc & Hnone & (x & ns & Hn & Ht) & _ & Hl & HR & Hall).
  exists st, w1, rs. repeat (split; [done|]).
  intros r Hhd. exists x, ns. split; [done|].
  destruct (Rounds_head _ _ _ _ _ _ _ HR Hhd) as [Hst _].
  assert (rs !! 0%nat = Some r) as H0 by (by destruct rs).
  rewrite Forall_lookup in Hall. destruct (Hall _ _ H0) as (_ & _ & Hsel).
  rewrite Hst, Hnone in Hsel. split; [congruence|].
  intros v Hv. apply pick_any. rewrite <- Hn. by apply elem_of_nodes.
Qed.

Lemma path_call_starts_fresh_witness :
  let w := (policy RandomPath a5 (Some 2) w5a).2 in
  ∃ st w1 rs,
    _path_chooser a5 w = (Ok st, w1) ∧ neighbors st = None ∧
    length rs = rounds_of a5 (Some 1) ∧
    Rounds a5 (path_chooser_of RandomPath a5) st w1 rs
      (policy RandomPath a5 (Some 1) w).2 ∧
    ∀ r, head rs = Some r →
      ∃ x ns, nx.nodes (graph_at w (_network a5)) = x :: ns ∧
              r_target r = pick (rand w (drawn w)) x ns ∧
              ∀ v, v ∈ dom (graph_at w (_network a5)) → ∃ d, pick d x ns = v.
Proof.
  intros w.
  apply (path_call_starts_fresh RandomPath a5 (Some 1) w).
  - left. reflexivity.
  - vm_compute. reflexivity.
Defined.

(** ** A count of zero *)

(** C10, as stated, fails: on an empty network the path policies raise
    even for a count of zero, because the start node is drawn before the
    loop is entered. *)
Lemma zero_count_raises :
  policy RandomPath a_empty (Some 0) w_empty = (Raise IndexError, w_empty) ∧
  ¬ (∀ ty self w, ∃ w', policy ty self (Some 0) w = (Ok tt, w') ∧
                        graph_at w' (_network self) = graph_at w (_network self)).
Proof.
  split; [reflexivity|].
  intros H. destruct (H RandomPath a_empty w_empty) as (w' & Hp & _).
  discriminate Hp.
Qed.

(** C10, amended: a call with a count of zero never changes a graph of the
    store; [random] and [targeted] return at once, leaving the store as it
    is; [random_path] and [targeted_path] first draw their start node, so
    that they return normally (one random number consumed) on a network
    with a node, and raise on an empty network. *)
Theorem zero_count ty self w :
  graphs (policy ty self (Some 0) w).2 = graphs w ∧
  policy ty self (Some 0) w =
    match ty with
    | Random | Targeted => (Ok tt, w)
    | RandomPath | TargetedPath =>
        match nx.nodes (graph_at w (_network self)) with
        | [] => (Raise IndexError, w)
        | _ :: _ => (Ok tt, after_draw w)
        end
    end.
Proof.
  assert (policy ty self (Some 0) w =
    match ty with
    | Random | Targeted => (Ok tt, w)
    | RandomPath | TargetedPath =>
        match nx.nodes (graph_at w (_network self)) with
        | [] => (Raise IndexError, w)
        | _ :: _ => (Ok tt, after_draw w)
        end
    end) as Heq.
  { destruct ty; simpl; [done|done| |];
      unfold random_path, targeted_path, _path_chooser, _random_node,
        mbind, M_bind, load, choice; simpl;
      by destruct (nx.nodes (graph_at w (_network self))). }
  split; [|done]. rewrite Heq.
  destruct ty; try done; by destruct (nx.nodes (graph_at w (_network self))).
Qed.

(** ** Connected components and [measure] *)

Section components.
Context (g : Graph).
Implicit Types (seen level : gset Z) (v : Z).

Lemma adj_absent v : v ∉ dom g → nx.adj g v = ∅.
Proof. intros H%not_elem_of_dom. unfold nx.adj. by rewrite H. Qed.

Lemma union_adj_subseteq (D : gset Z) (l : list Z) :
  (∀ v, nx.adj g v ⊆ D) → ⋃ (nx.adj g <$> l) ⊆ D.
Proof.
  intros H x (X & (v & -> & _)%list_elem_of_fmap & Hx)%elem_of_union_list.
  by apply (H v).
Qed.

Lemma bfs_S fuel seen level :
  nx.bfs g (S fuel) seen level =
  if decide (level = ∅) then seen
  else nx.bfs g fuel (seen ∪ level ∖ seen) (⋃ (nx.adj g <$> elements (level ∖ seen))).
Proof. done. Qed.

Lemma bfs_nil fuel seen : nx.bfs g fuel seen ∅ = seen.
Proof. destruct fuel; [done|]. by rewrite bfs_S, decide_True. Qed.

(** A level that brings nothing new ends the search. *)
Lemma bfs_saturated fuel seen level :
  level ⊆ seen → nx.bfs g fuel seen level = seen.
Proof.
  intros Hsub. destruct fuel as [|fuel]; [done|]. rewrite bfs_S.
  destruct (decide (level = ∅)); [done|].
  assert (level ∖ seen = ∅) as -> by set_solver.
  rewrite elements_empty, bfs_nil. set_solver.
Qed.

(** [len(G) + 2] rounds are enough: one more changes nothing. *)
Lemma bfs_fuel_enough fuel seen level :
  closed g → level ⊆ dom g →
  (size (dom g ∖ seen) + 2 ≤ fuel)%nat →
  nx.bfs g (S fuel) seen level = nx.bfs g fuel seen level.
Proof.
  intros Hcl. revert seen level.
  induction fuel as [|fuel IH]; intros seen level Hlev Hsz; [lia|].
  rewrite (bfs_S (S fuel) seen level), (bfs_S fuel seen level).
  destruct (decide (level = ∅)); [done|].
  destruct (decide (level ∖ seen = ∅)) as [Hnew|Hnew].
  - rewrite Hnew, elements_empty. by rewrite !bfs_nil.
  - apply IH; [by apply union_adj_subseteq|].
    assert (size (dom g ∖ (seen ∪ level ∖ seen)) < size (dom g ∖ seen))%nat; [|lia].
    apply subset_size. apply set_choose_L in Hnew as [x Hx]. set_solver.
Qed.

Lemma plain_bfs_fuel_enough v k :
  closed g → v ∈ dom g →
  nx.bfs g (k + S (S (nx.number_of_nodes g))) ∅ {[v]} = nx.plain_bfs g v.
Proof.
  intros Hcl Hv. induction k as [|k IH]; [done|].
  rewrite Nat.add_succ_l, bfs_fuel_enough; [done|done|set_solver|].
  unfold nx.number_of_nodes.
  assert (dom g ∖ ∅ = dom g) as -> by set_solver. lia.
Qed.

(** The first level of a search from [v]. *)
Lemma plain_bfs_first v :
  nx.plain_bfs g v = nx.bfs g (S (nx.number_of_nodes g)) {[v]} (nx.adj g v).
Proof.
  unfold nx.plain_bfs. rewrite bfs_S, decide_False by set_solver.
  assert (({[v]} : gset Z) ∖ ∅ = {[v]}) as -> by set_solver.
  rewrite elements_singleton.
  assert (⋃ (nx.adj g <$> [v]) = nx.adj g v) as -> by (simpl; set_solver).
  by assert ((∅ : gset Z) ∪ {[v]} = {[v]}) as -> by set_solver.
Qed.

Lemma plain_bfs_isolated v : isolated g → nx.plain_bfs g v = {[v]}.
Proof. intros Hiso. by rewrite plain_bfs_first, Hiso, bfs_nil. Qed.

Lemma plain_bfs_complete v : complete g → v ∈ dom g → nx.plain_bfs g v = dom g.
Proof.
  intros Hc Hv. rewrite plain_bfs_first, (Hc v Hv), bfs_S.
  destruct (decide (dom g ∖ {[v]} = ∅)) as [He|Hne].
  - apply set_eq. intros x. destruct (decide (x = v)); set_solver.
  - assert ({[v]} ∪ (dom g ∖ {[v]}) ∖ {[v]} = dom g) as ->.
    { apply set_eq. intros x. destruct (decide (x = v)); set_solver. }
    apply bfs_saturated, union_adj_subseteq. intros u.
    destruct (decide (u ∈ dom g)) as [Hu|Hu].
    + rewrite (Hc u Hu). set_solver.
    + rewrite adj_absent by done. set_solver.
Qed.

Lemma cc_skip (l : list Z) (acc : gset Z * list (gset Z)) :
  (∀ v, v ∈ l → v ∈ acc.1) → fold_left (nx.cc_step g) l acc = acc.
Proof.
  revert acc. induction l as [|v l IH]; intros acc H; simpl; [done|].
  unfold nx.cc_step at 2. rewrite decide_True by (apply H; left).
  apply IH. intros u Hu. apply H. by right.
Qed.

Lemma cc_isolated (l : list Z) (acc : gset Z * list (gset Z)) :
  isolated g → NoDup l → (∀ v, v ∈ l → v ∉ acc.1) →
  (fold_left (nx.cc_step g) l acc).2 = acc.2 ++ (singleton <$> l).
Proof.
  intros Hiso. revert acc. induction l as [|v l IH]; intros acc Hnd H; simpl.
  - by rewrite app_nil_r.
  - apply NoDup_cons in Hnd as [Hv Hnd].
    unfold nx.cc_step at 2. rewrite decide_False by (apply H; left).
    rewrite plain_bfs_isolated by done. rewrite IH; simpl.
    + by rewrite <- app_assoc.
    + done.
    + intros u Hu [Hin| ->%elem_of_singleton]%elem_of_union; [|done].
      revert Hin. apply H. by right.
Qed.
End components.

Lemma measure_empty g : dom g = ∅ → measure g = Raise ValueError.
Proof.
  intros H%nodes_nil. unfold measure, nx.connected_components. by rewrite H.
Qed.

Lemma measure_isolated g :
  isolated g → dom g ≠ ∅ → measure g = Ok (nx.number_of_nodes g, 1%nat).
Proof.
  intros Hiso Hne. unfold measure, nx.connected_components.
  rewrite cc_isolated; [|done|unfold nx.nodes; apply NoDup_elements|set_solver]. simpl.
  destruct (py_max _ _) as [c|] eqn:Hmax.
  - apply py_max_Some in Hmax as [(v & -> & _)%list_elem_of_fmap _].
    rewrite length_fmap, size_singleton. done.
  - apply py_max_None, fmap_nil_inv, nodes_nil in Hmax. done.
Qed.

Lemma cc_complete g :
  complete g → dom g ≠ ∅ → nx.connected_components g = [dom g].
Proof.
  intros Hc Hne. unfold nx.connected_components.
  destruct (nx.nodes g) as [|v l] eqn:Hn; [by apply nodes_nil in Hn|].
  assert (∀ u, u ∈ v :: l → u ∈ dom g) as Hin.
  { intros u. rewrite <- Hn. apply elem_of_nodes. }
  simpl. unfold nx.cc_step at 2. simpl. rewrite decide_False by set_solver.
  rewrite plain_bfs_complete by (done || (apply Hin; left)).
  rewrite cc_skip; simpl; [done|].
  intros u Hu. apply elem_of_union_r, Hin. by right.
Qed.

Lemma measure_complete g :
  complete g → dom g ≠ ∅ → measure g = Ok (1%nat, nx.number_of_nodes g).
Proof. intros Hc Hne. unfold measure. by rewrite cc_complete. Qed.

(** C4, as stated, fails on the empty network. *)
Lemma measure_empty_raises :
  measure ∅ = Raise ValueError ∧ measure ∅ ≠ Ok (0%nat, 0%nat).
Proof. split; [reflexivity|discriminate]. Qed.

(** C4, amended: on a network of [N ≥ 1] nodes [measure] returns [(N, 1)]
    when no node has a neighbour, and [(1, N)] when every node is adjacent
    to every other one; on the empty network it raises, [max] being called
    on an empty list of components. *)
Theorem measure_shapes (g : Graph) (N : nat) :
  nx.number_of_nodes g = N →
  (isolated g → (1 ≤ N)%nat → measure g = Ok (N, 1%nat)) ∧
  (complete g → (1 ≤ N)%nat → measure g = Ok (1%nat, N)) ∧
  (N = 0%nat → measure g = Raise ValueError).
Proof.
  intros <-. unfold nx.number_of_nodes.
  assert ((1 ≤ size (dom g))%nat → dom g ≠ ∅) as Hne.
  { intros H He. rewrite He, size_empty in H. lia. }
  split; [|split].
  - intros Hiso H1. by apply measure_isolated, Hne.
  - intros Hc H1. by apply measure_complete, Hne.
  - intros H0%size_empty_inv. apply measure_empty. by apply leibniz_equiv.
Qed.

(** Both shapes can be checked entry by entry of the adjacency. *)
Lemma isolated_alt g : map_Forall (λ _ s, s = ∅) g → isolated g.
Proof.
  intros H v. unfold nx.adj. destruct (g !! v) as [s|] eqn:E; [|done].
  by apply (H v s).
Qed.

Lemma complete_alt g : map_Forall (λ v s, s = dom g ∖ {[v]}) g → complete g.
Proof.
  intros H v [s E]%elem_of_dom. unfold nx.adj. rewrite E. by apply (H v s).
Qed.

Lemma measure_shapes_witness :
  measure isolated3 = Ok (3%nat, 1%nat) ∧
  measure complete3 = Ok (1%nat, 3%nat) ∧
  measure (∅ : Graph) = Raise ValueError.
Proof.
  split; [|split].
  - apply (measure_shapes isolated3 3); [reflexivity| |lia].
    apply isolated_alt. refine (bool_decide_unpack _ _). vm_compute. exact I.
  - apply (measure_shapes complete3 3); [reflexivity| |lia].
    apply complete_alt. refine (bool_decide_unpack _ _). vm_compute. exact I.
  - by apply (measure_shapes ∅ 0).
Defined.

(** ** The simulation loop *)

Lemma dict_set_fresh d k v : k ∉ d.*1 → dict_set d k v = d ++ [(k, v)].
Proof.
  induction d as [|[k' v'] d IH]; simpl; [done|].
  intros H. apply not_elem_of_cons in H as [Hne H].
  destruct (String.eqb_spec k' k) as [->|_]; [done|]. by rewrite IH.
Qed.

Lemma dict_sets_fresh d ks ms :
  NoDup ks → (∀ k, k ∈ ks → k ∉ d.*1) → length ms = length ks →
  dict_sets d (zip ks ms) = d ++ zip ks ms.
Proof.
  revert d ms. induction ks as [|k ks IH]; intros d ms Hnd Hfresh Hl.
  - simpl. by rewrite app_nil_r.
  - destruct ms as [|m ms]; [done|]. apply NoDup_cons in Hnd as [Hk Hnd].
    change (dict_sets d (zip (k :: ks) (m :: ms)))
      with (dict_sets (dict_set d k m) (zip ks ms)).
    rewrite dict_set_fresh by (apply Hfresh; left).
    rewrite IH; [by rewrite <- app_assoc|done| |by injection Hl].
    intros k' Hk'. rewrite fmap_app, elem_of_app. simpl.
    intros [Hin|Hin%list_elem_of_singleton].
    + revert Hin. apply Hfresh. by right.
    + by subst.
Qed.

Lemma measure_net_eq l w : measure_net l w = (measure (graph_at w l), w).
Proof. done. Qed.

Lemma dict_at_insert (ds : list Dict) l d :
  (l < length ds)%nat → (<[l := d]> ds) !!! l = d.
Proof. intros H. by rewrite list_lookup_total_insert_eq. Qed.

Section simulate.
Context (attacker : Attacker) (ty : AttackType) (rs : nat).

Lemma simulate_round_Ok i w w' :
  simulate_round attacker ty rs i w = (Ok tt, w') →
  ∃ m, dicts w' = <[rs := dict_set (dict_at w rs) (round_key i) m]> (dicts w).
Proof.
  unfold simulate_round.
  intros ([] & w1 & [(Hd & _) _]%policy_frame & H)%bind_Ok.
  apply bind_Ok in H as (m & w2 & Hm & Hset).
  rewrite measure_net_eq in Hm. injection Hm as _ <-.
  injection Hset as <-. exists m. simpl. unfold dict_at. by rewrite Hd.
Qed.

Lemma simulate_round_Raise i w e w' :
  simulate_round attacker ty rs i w = (Raise e, w') → dicts w' = dicts w.
Proof.
  unfold simulate_round, mbind, M_bind.
  destruct (policy ty attacker None w) as [[[]|e1] w1] eqn:Hp;
    apply policy_frame in Hp as [(Hd & _) _].
  - rewrite measure_net_eq.
    destruct (measure (graph_at w1 _)) as [m|e2]; [done|]. by intros [= _ <-].
  - by intros [= _ <-].
Qed.

Lemma for_range_app body i k1 k2 w :
  for_range body i (k1 + k2) w
  = (for_range body i k1;; for_range body (i + k1) k2) w.
Proof.
  revert i w. induction k1 as [|k1 IH]; intros i w; simpl.
  - unfold mbind, M_bind, mret, M_ret. by rewrite Nat.add_0_r.
  - unfold mbind, M_bind in *. destruct (body i w) as [[[]|e] w1]; [|done].
    rewrite IH. by replace (S i + k1)%nat with (i + S k1)%nat by lia.
Qed.

(** The writes of [k] successful rounds. *)
Lemma for_range_dict i k w w' :
  (rs < length (dicts w))%nat →
  for_range (simulate_round attacker ty rs) i k w = (Ok tt, w') →
  ∃ ms, length ms = k ∧
        dict_at w' rs = dict_sets (dict_at w rs) (zip (round_key <$> seq i k) ms).
Proof.
  revert i w. induction k as [|k IH]; intros i w Hrs; simpl.
  - intros [= <-]. by exists [].
  - intros ([] & w1 & (m & Hd)%simulate_round_Ok & Hrest)%bind_Ok.
    apply IH in Hrest as (ms & Hl & Hms); [|by rewrite Hd, length_insert].
    exists (m :: ms). split; [simpl; by f_equal|].
    rewrite Hms. unfold dict_at at 1. by rewrite Hd, dict_at_insert.
Qed.

Lemma simulate_upto_dict j w w' :
  (rs < length (dicts w))%nat → dict_at w rs = [] →
  simulate_upto attacker ty rs j w = (Ok tt, w') →
  ∃ m0 ms, measure (graph_at w (_network attacker)) = Ok m0 ∧ length ms = j ∧
           dict_at w' rs = dict_sets [(fmt 0, m0)] (zip (round_key <$> seq 0 j) ms).
Proof.
  intros Hrs Hnil. unfold simulate_upto.
  intros (m0 & w1 & H0 & ([] & w2 & Hset & Hloop)%bind_Ok)%bind_Ok.
  rewrite measure_net_eq in H0. injection H0 as H0 <-.
  injection Hset as <-.
  apply for_range_dict in Hloop as (ms & Hl & Hms); [|simpl; by rewrite length_insert].
  exists m0, ms. split; [done|]. split; [done|].
  rewrite Hms. unfold dict_at at 1. simpl. by rewrite dict_at_insert, Hnil.
Qed.

Lemma simulate_unfold iters w :
  py_int ((end_ - start) / step) = Ok (Z.of_nat iters) →
  simulate attacker ty rs w = simulate_upto attacker ty rs iters w.
Proof.
  intros H. unfold simulate, simulate_upto, lift, mbind at 1, M_bind at 1.
  by rewrite H, Nat2Z.id.
Qed.
End simulate.

Lemma iters_eq : py_int ((end_ - start) / step) = Ok 100.
Proof. vm_compute. reflexivity. Qed.

Lemma sim_keys_sorted :
  StronglySorted key_lt (fmt 0 :: (round_key <$> seq 0 100)).
Proof. refine (bool_decide_unpack _ _). vm_compute. exact I. Qed.

Lemma key_lt_irrefl a : ¬ key_lt a a.
Proof.
  unfold key_lt, String.ltb. pose proof (String.compare_antisym a a) as H.
  by destruct (String.compare a a).
Qed.

Lemma sorted_NoDup (l : list string) : StronglySorted key_lt l → NoDup l.
Proof.
  induction 1 as [|a l _ IH Hall]; constructor; [|done].
  intros Hin. rewrite Forall_forall in Hall.
  by apply (key_lt_irrefl a), Hall.
Qed.

(** C5: a run of [simulate] that completes, on a result dictionary that
    was empty, leaves [iters + 1] entries in it: one for each key it
    wrote, in the order written, which is strictly increasing from
    ["0.000"], so that no key was written twice; and the entry of
    ["0.000"] is the measurement of the network as it was at the start. *)
Theorem simulate_store attacker ty rs w w' :
  (rs < length (dicts w))%nat →
  dict_at w rs = [] →
  simulate attacker ty rs w = (Ok tt, w') →
  ∃ (iters : nat) (m0 : Measurement),
    py_int ((end_ - start) / step) = Ok (Z.of_nat iters) ∧
    measure (graph_at w (_network attacker)) = Ok m0 ∧
    length (dict_at w' rs) = (iters + 1)%nat ∧
    (dict_at w' rs).*1 = fmt 0 :: (round_key <$> seq 0 iters) ∧
    fmt 0 = "0.000" ∧
    dict_at w' rs !! 0%nat = Some ("0.000", m0) ∧
    NoDup (fmt 0 :: (round_key <$> seq 0 iters)) ∧
    StronglySorted key_lt (dict_at w' rs).*1.
Proof.
  intros Hrs Hnil Hsim. exists 100%nat.
  rewrite (simulate_unfold _ _ _ 100 _ iters_eq) in Hsim.
  apply simulate_upto_dict in Hsim as (m0 & ms & Hm0 & Hl & Hd); [|done..].
  exists m0. split; [apply iters_eq|]. split; [done|].
  pose proof sim_keys_sorted as Hsorted.
  pose proof (sorted_NoDup _ Hsorted) as Hnd.
  assert (length (round_key <$> seq 0 100) = 100%nat) as Hlen
    by by rewrite length_fmap, length_seq.
  assert (fmt 0 = "0.000") as Hfmt by (vm_compute; reflexivity).
  revert Hd Hsorted Hnd Hlen. generalize (round_key <$> seq 0 100). intros ks.
  intros Hd Hsorted Hnd Hlen.
  assert (dict_at w' rs = (fmt 0, m0) :: zip ks ms) as ->.
  { rewrite Hd. apply NoDup_cons in Hnd as [Hk Hnd].
    rewrite dict_sets_fresh; [done|done| |lia].
    intros k Hin [->|H]%elem_of_cons; [done|]. by apply elem_of_nil in H. }
  assert (((fmt 0, m0) :: zip ks ms).*1 = fmt 0 :: ks) as ->.
  { rewrite fmap_cons, fst_zip; [done|lia]. }
  split; [rewrite length_cons, length_zip; lia|].
  split; [done|]. split; [done|]. split; [by rewrite <- Hfmt|]. done.
Qed.

Lemma simulate_store_witness :
  ∃ (iters : nat) (m0 : Measurement),
    py_int ((end_ - start) / step) = Ok (Z.of_nat iters) ∧
    measure (graph_at w120 (_network a5)) = Ok m0 ∧
    length (dict_at (simulate a5 TargetedPath 0 w120).2 0) = (iters + 1)%nat ∧
    (dict_at (simulate a5 TargetedPath 0 w120).2 0).*1
    = fmt 0 :: (round_key <$> seq 0 iters) ∧
    fmt 0 = "0.000" ∧
    dict_at (simulate a5 TargetedPath 0 w120).2 0 !! 0%nat = Some ("0.000", m0) ∧
    NoDup (fmt 0 :: (round_key <$> seq 0 iters)) ∧
    StronglySorted key_lt (dict_at (simulate a5 TargetedPath 0 w120).2 0).*1.
Proof.
  apply (simulate_store a5 TargetedPath 0 w120).
  - simpl. lia.
  - reflexivity.
  - vm_compute. reflexivity.
Defined.

(** C7: a policy call that asks for more removals than the network has
    nodes raises; when this happens in a round of [simulate], the run
    raises the same exception and stops there, without another attempt,
    and the result dictionaries are left exactly as the rounds before had
    written them. *)
Theorem over_removal_aborts attacker ty rs (iters j : nat) w wj :
  py_int ((end_ - start) / step) = Ok (Z.of_nat iters) →
  (j < iters)%nat →
  simulate_upto attacker ty rs j w = (Ok tt, wj) →
  Z.of_nat (nx.number_of_nodes (graph_at wj (_network attacker))) < _n attacker →
  (∀ n w0,
     Z.of_nat (nx.number_of_nodes (graph_at w0 (_network attacker)))
     < default (_n attacker) n →
     ∃ e w1, policy ty attacker n w0 = (Raise e, w1)) ∧
  ∃ e w', policy ty attacker None wj = (Raise e, w') ∧
          simulate attacker ty rs w = (Raise e, w') ∧
          dicts w' = dicts wj.
Proof.
  intros Hiters Hj Hpre Hlt. split.
  { intros n w0 Hn. apply policy_over. unfold rounds_of. lia. }
  destruct (policy_over ty attacker None wj) as (e & w1 & Hp).
  { unfold rounds_of. simpl. lia. }
  exists e, w1. split; [done|].
  split; [|by apply policy_frame in Hp as [[? _] _]].
  rewrite (simulate_unfold _ _ _ iters _ Hiters).
  unfold simulate_upto in *.
  apply bind_Ok in Hpre as (m0 & w0 & H0 & Hpre). rewrite (bind_Ok_l _ _ _ _ _ H0).
  apply bind_Ok in Hpre as ([] & w0' & Hset & Hpre). rewrite (bind_Ok_l _ _ _ _ _ Hset).
  replace iters with (j + S (iters - j - 1))%nat by lia.
  rewrite for_range_app, (bind_Ok_l _ _ _ _ _ Hpre). simpl.
  apply bind_Raise_l. unfold simulate_round. by apply bind_Raise_l.
Qed.

Lemma over_removal_aborts_witness :
  let wj := (simulate_upto a3 Random 0 1 w3).2 in
  (∀ n w0,
     Z.of_nat (nx.number_of_nodes (graph_at w0 (_network a3))) < default (_n a3) n →
     ∃ e w1, policy Random a3 n w0 = (Raise e, w1)) ∧
  ∃ e w', policy Random a3 None wj = (Raise e, w') ∧
          simulate a3 Random 0 w3 = (Raise e, w') ∧
          dicts w' = dicts wj.
Proof.
  intros wj.
  apply (over_removal_aborts a3 Random 0 100 1 w3 wj).
  - vm_compute. reflexivity.
  - lia.
  - vm_compute. reflexivity.
  - vm_compute. reflexivity.
Defined.

(** ** Attackers and their working copies *)

Lemma NetworkAttacker_Ok network n metric w self w' :
  NetworkAttacker network n metric w = (Ok self, w') →
  _network self = length (graphs w) ∧ _n self = n ∧
  _metric self = match metric with
                 | None => GraphDegree
                 | Some m => Given m
                 end ∧
  graphs w' = graphs w ++ [graph_at w network].
Proof.
  unfold NetworkAttacker, net_copy, mbind, M_bind, load, alloc, nx.copy. simpl.
  intros [= <- <-]. simpl. by destruct metric.
Qed.

Lemma Attacks_frame self w w' :
  Attacks self w w' → same_graphs_but (_network self) w w'.
Proof.
  induction 1 as [|ty n w r w1 w2 Hp _ [IHl IHg]]; [by split|].
  apply policy_frame in Hp as [_ [Hl Hg]]. split; [congruence|].
  intros l' Hne. by rewrite IHg, Hg.
Qed.

(** C6: two attackers made from the same network work on copies of their
    own: whatever policy calls are made on the first, the network of the
    second and the source network stay as they were, so that a node the
    first has removed is still present in both. *)
Theorem attackers_isolated network n1 m1 n2 m2 w a w1 b w2 w3 X :
  NetworkAttacker network n1 m1 w = (Ok a, w1) →
  NetworkAttacker network n2 m2 w1 = (Ok b, w2) →
  Attacks a w2 w3 →
  X ∈ dom (graph_at w network) →
  X ∉ dom (graph_at w3 (_network a)) →
  X ∈ dom (graph_at w3 (_network b)) ∧ X ∈ dom (graph_at w3 network) ∧
  graph_at w3 (_network b) = graph_at w network ∧
  graph_at w3 network = graph_at w network.
Proof.
  intros (Ha & _ & _ & Hg1)%NetworkAttacker_Ok (Hb & _ & _ & Hg2)%NetworkAttacker_Ok
    [_ Hfr]%Attacks_frame HX Hgone.
  pose proof (graph_at_valid _ _ _ HX) as Hvalid.
  assert (graph_at w1 network = graph_at w network) as Hsrc1.
  { unfold graph_at. by rewrite Hg1, lookup_total_app_l. }
  assert (graph_at w3 (_network b) = graph_at w network) as Eb.
  { unfold graph_at at 1. rewrite list_lookup_total_alt, Hfr; [|rewrite Ha, Hb, Hg1, length_app; simpl; lia].
    rewrite Hg2, Hb, list_lookup_middle by done. simpl. done. }
  assert (graph_at w3 network = graph_at w network) as Es.
  { unfold graph_at at 1. rewrite list_lookup_total_alt, Hfr by lia.
    rewrite Hg2, Hg1, !lookup_app_l by (rewrite ?length_app; lia).
    unfold graph_at. by rewrite list_lookup_total_alt. }
  rewrite Eb, Es. done.
Qed.

Lemma attackers_isolated_witness :
  let w := mkWorld [g5] [[]] (λ i, i * 7 + 3)%nat 0 in
  let w1 := (NetworkAttacker 0 1 (Some nx.degree_iter) w).2 in
  let w2 := (NetworkAttacker 0 1 (Some nx.degree_iter) w1).2 in
  let w3 := (policy Targeted a5 (Some 2) w2).2 in
  3 ∈ dom (graph_at w3 2) ∧ 3 ∈ dom (graph_at w3 0) ∧
  graph_at w3 2 = graph_at w 0 ∧ graph_at w3 0 = graph_at w 0.
Proof.
  intros w w1 w2 w3.
  apply (attackers_isolated 0 1 (Some nx.degree_iter) 1 (Some nx.degree_iter)
           w a5 w1 (mkAttacker 2 1 (Given nx.degree_iter)) w2 w3 3).
  - reflexivity.
  - reflexivity.
  - apply Attacks_call with (ty := Targeted) (n := Some 2) (r := Ok tt) (w1 := w3);
      [vm_compute; reflexivity|apply Attacks_nil].
  - refine (bool_decide_unpack _ _). vm_compute. exact I.
  - refine (bool_decide_unpack _ _). vm_compute. exact I.
Defined.

(** ** The default metric *)

Lemma best_node_default self nodes w :
  _metric self = GraphDegree → _best_node self nodes w = (Raise TypeError, w).
Proof.
  intros Hm. unfold _best_node, mbind, M_bind, load, lift. simpl. by rewrite Hm.
Qed.

Lemma targeted_default self cnt w :
  _metric self = GraphDegree → (0 < rounds_of self cnt)%nat →
  targeted self cnt w = (Raise TypeError, w).
Proof.
  intros Hm Hpos. unfold targeted, _attack.
  change (Z.to_nat match cnt with Some n => n | None => _n self end)
    with (rounds_of self cnt).
  destruct (rounds_of self cnt) as [|k]; [lia|].
  simpl. unfold attack_round, stateless, mbind, M_bind.
  by rewrite (best_node_default _ _ _ Hm).
Qed.

(** C8: an attacker made without a metric holds [type(network).degree] as
    its metric, and that is not the degree-based metric the docstring of
    [__init__] announces: called by [_best_node] where there is a node to
    rank, it raises [TypeError].  So [targeted], asked for at least one
    removal on a network that has a node, removes no node, of maximum
    degree or other: it raises [TypeError] and leaves the store as it
    was. *)
Theorem default_metric_raises network n w self w1 :
  NetworkAttacker network n None w = (Ok self, w1) →
  (∀ nodes w0,
     nx.nbunch_iter (graph_at w0 (_network self)) nodes ≠ [] →
     _best_node self nodes w0 = (Raise TypeError, w0)) ∧
  (∀ cnt w0,
     0 < default n cnt →
     dom (graph_at w0 (_network self)) ≠ ∅ →
     targeted self cnt w0 = (Raise TypeError, w0)).
Proof.
  intros (_ & Hn & Hm & _)%NetworkAttacker_Ok. split.
  - intros nodes w0 _. by apply best_node_default.
  - intros cnt w0 Hpos _. apply targeted_default; [done|].
    unfold rounds_of. rewrite Hn. lia.
Qed.

Lemma default_metric_raises_witness :
  _best_node (mkAttacker 1 1 GraphDegree) (Some [2; 3]) w5a
  = (Raise TypeError, w5a) ∧
  targeted (mkAttacker 1 1 GraphDegree) None w5a = (Raise TypeError, w5a).
Proof.
  pose proof (default_metric_raises 0 1 w5 (mkAttacker 1 1 GraphDegree) w5a
                eq_refl) as [Hbest Htargeted].
  split.
  - apply Hbest. vm_compute. discriminate.
  - apply Htargeted; [simpl; lia|].
    refine (bool_decide_unpack _ _). vm_compute. exact I.
Defined.

(** * Further properties of the code *)

(** ** Removals and simple graphs *)

Lemma lookup_del_edges (g : Graph) (v : Z) (us : list Z) (x : Z) :
  foldr (λ u adj, alter (λ s, s ∖ {[v]}) u adj) g us !! x
  = if decide (x ∈ us) then (λ s, s ∖ {[v]}) <$> g !! x else g !! x.
Proof.
  induction us as [|u us IH]; cbn [foldr].
  - destruct (decide (x ∈ [])) as [H|_]; [by apply elem_of_nil in H|done].
  - destruct (decide (u = x)) as [->|Hne].
    + rewrite lookup_alter_eq, IH.
      destruct (decide (x ∈ x :: us)) as [_|H]; [|by destruct H; left].
      destruct (decide (x ∈ us)); [|done].
      destruct (g !! x) as [s|]; simpl; [|done]. f_equal. set_solver.
    + rewrite lookup_alter_ne, IH by done.
      destruct (decide (x ∈ us)) as [Hin|Hnin];
        destruct (decide (x ∈ u :: us)) as [Hin'|Hnin']; try done.
      * destruct Hnin'. by right.
      * by apply elem_of_cons in Hin' as [->|?].
Qed.

Lemma adj_remove_node (g g' : Graph) (v x : Z) :
  symmetric g → nx.remove_node g v = Ok g' →
  nx.adj g' x = if decide (x = v) then ∅ else nx.adj g x ∖ {[v]}.
Proof.
  intros Hsym. unfold nx.remove_node.
  destruct (g !! v) as [nbrs|] eqn:Ev; [|done]. intros [= <-].
  unfold nx.adj at 1. destruct (decide (x = v)) as [->|Hne].
  - by rewrite lookup_delete_eq.
  - rewrite lookup_delete_ne, lookup_del_edges by done.
    destruct (decide (x ∈ elements nbrs)) as [Hin|Hnin].
    + unfold nx.adj. destruct (g !! x); simpl; set_solver.
    + change (default ∅ (g !! x)) with (nx.adj g x).
      assert (v ∉ nx.adj g x); [|set_solver].
      intros Hv%Hsym. apply Hnin, elem_of_elements.
      unfold nx.adj in Hv. by rewrite Ev in Hv.
Qed.

Lemma remove_node_simple (g g' : Graph) (v : Z) :
  simple g → nx.remove_node g v = Ok g' → simple g'.
Proof.
  intros (Hsym & Hcl & Hlf) Hr.
  pose proof (λ x, adj_remove_node g g' v x Hsym Hr) as Hadj.
  apply remove_node_Ok in Hr as [Hv Hdom].
  split; [|split].
  - intros a b. rewrite !Hadj.
    destruct (decide (b = v)) as [->|Hb]; [set_solver|].
    destruct (decide (a = v)) as [->|Ha]; [set_solver|].
    intros [Hab _]%elem_of_difference. apply Hsym in Hab. set_solver.
  - intros a. rewrite Hadj, Hdom. destruct (decide (a = v)); [set_solver|].
    specialize (Hcl a). set_solver.
  - intros a. rewrite Hadj. destruct (decide (a = v)); [set_solver|].
    specialize (Hlf a). set_solver.
Qed.

Lemma remove_nodes_spec (g g' : Graph) (ts : list Z) :
  remove_nodes g ts = Ok g' →
  NoDup ts ∧ (∀ t, t ∈ ts → t ∈ dom g) ∧ dom g' = dom g ∖ list_to_set ts.
Proof.
  revert g. induction ts as [|t ts IH]; intros g; simpl.
  - intros [= <-]. split; [constructor|]. split; [by intros t ?%elem_of_nil|set_solver].
  - destruct (nx.remove_node g t) as [g1|e] eqn:Hr; [|done].
    apply remove_node_Ok in Hr as [Ht Hd].
    intros (Hnd & Hin & Hdom)%IH. rewrite Hd in Hin, Hdom. split; [|split].
    + constructor; [|done]. intros Hts%Hin. set_solver.
    + intros u [->|Hu%Hin]%elem_of_cons; [done|set_solver].
    + rewrite Hdom. set_solver.
Qed.

Section removals.
Context {S : Type} (self : Attacker) (choose : S → M (Z * S)).
Hypothesis choose_reads : ∀ s, reads_only (choose s).

Lemma Rounds_removals s w rs w' :
  Rounds self choose s w rs w' →
  remove_nodes (graph_at w (_network self)) (r_target <$> rs)
  = Ok (graph_at w' (_network self)).
Proof.
  induction 1 as [|s w t s' w1 w2 rs w3 Hc Hr HR IH]; [done|].
  destruct (round_graph self choose choose_reads _ _ _ _ _ _ Hc Hr) as [_ Hg].
  simpl. by rewrite Hg.
Qed.
End removals.

Lemma policy_removals_aux ty self n w w' :
  policy ty self n w = (Ok tt, w') →
  ∃ ts, length ts = rounds_of self n ∧
        remove_nodes (graph_at w (_network self)) ts = Ok (graph_at w' (_network self)).
Proof.
  destruct ty; simpl.
  - intros (rs & <- & HR)%random_Rounds. exists (r_target <$> rs).
    split; [by rewrite length_fmap|].
    eapply Rounds_removals; [|done]. eauto with reads.
  - intros (rs & <- & HR)%targeted_Rounds. exists (r_target <$> rs).
    split; [by rewrite length_fmap|].
    eapply Rounds_removals; [|done]. eauto with reads.
  - intros (st & w1 & rs & Hp%path_chooser_same & <- & HR)%random_path_Rounds.
    exists (r_target <$> rs). split; [by rewrite length_fmap|].
    rewrite <- (same_store_graph_at _ _ (_network self) Hp).
    eapply Rounds_removals; [|done]. eauto with reads.
  - intros (st & w1 & rs & Hp%path_chooser_same & <- & HR)%targeted_path_Rounds.
    exists (r_target <$> rs). split; [by rewrite length_fmap|].
    rewrite <- (same_store_graph_at _ _ (_network self) Hp).
    eapply Rounds_removals; [|done]. eauto with reads.
Qed.

(** X1: a successful call of a policy removes nodes that were all in the
    network, one after the other and no node twice; the network it leaves
    is the one these removals give. *)
Theorem policy_removals ty self n w w' :
  policy ty self n w = (Ok tt, w') →
  ∃ ts, length ts = rounds_of self n ∧
        remove_nodes (graph_at w (_network self)) ts = Ok (graph_at w' (_network self)) ∧
        NoDup ts ∧
        (∀ t, t ∈ ts → t ∈ dom (graph_at w (_network self))) ∧
        dom (graph_at w' (_network self))
        = dom (graph_at w (_network self)) ∖ list_to_set ts.
Proof.
  intros (ts & Hl & Hr)%policy_removals_aux. exists ts.
  split; [done|]. split; [done|]. by apply remove_nodes_spec.
Qed.

Lemma policy_removals_witness :
  ∃ ts, length ts = rounds_of a5 (Some 3) ∧
        remove_nodes (graph_at w5a 1) ts
        = Ok (graph_at (policy RandomPath a5 (Some 3) w5a).2 1) ∧
        NoDup ts ∧
        (∀ t, t ∈ ts → t ∈ dom (graph_at w5a 1)) ∧
        dom (graph_at (policy RandomPath a5 (Some 3) w5a).2 1)
        = dom (graph_at w5a 1) ∖ list_to_set ts.
Proof.
  apply (policy_removals RandomPath a5 (Some 3) w5a). vm_compute. reflexivity.
Defined.

(** ** When a policy call succeeds *)

Lemma net_remove_node_present l t w :
  t ∈ dom (graph_at w l) → ∃ w', net_remove_node l t w = (Ok tt, w').
Proof.
  intros [g' Hr]%remove_node_present.
  unfold net_remove_node, mbind, M_bind, load, lift, store. simpl.
  rewrite Hr. eauto.
Qed.

Lemma dom_empty_size (g : Graph) : dom g = ∅ ↔ nx.number_of_nodes g = 0%nat.
Proof.
  unfold nx.number_of_nodes. split.
  - intros ->. apply size_empty.
  - intros H. by apply leibniz_equiv, size_empty_inv.
Qed.

Section totality.
Context {S : Type} (self : Attacker) (choose : S → M (Z * S)).
Context (Inv : S → Graph → Prop) (e0 : Exn).
Hypothesis choose_reads : ∀ s, reads_only (choose s).
Hypothesis choose_total : ∀ s w,
  Inv s (graph_at w (_network self)) → dom (graph_at w (_network self)) ≠ ∅ →
  ∃ t s' w1, choose s w = (Ok (t, s'), w1) ∧ t ∈ dom (graph_at w (_network self)) ∧
             ∀ g', nx.remove_node (graph_at w (_network self)) t = Ok g' → Inv s' g'.
Hypothesis choose_empty : ∀ s w,
  Inv s (graph_at w (_network self)) → dom (graph_at w (_network self)) = ∅ →
  ∃ w1, choose s w = (Raise e0, w1).

Lemma round_total s w :
  Inv s (graph_at w (_network self)) → dom (graph_at w (_network self)) ≠ ∅ →
  ∃ s' w', attack_round self choose s w = (Ok s', w') ∧
           Inv s' (graph_at w' (_network self)) ∧
           (nx.number_of_nodes (graph_at w' (_network self)) + 1
            = nx.number_of_nodes (graph_at w (_network self)))%nat.
Proof.
  intros HI Hne. destruct (choose_total s w HI Hne) as (t & s' & w1 & Hc & Ht & Hnext).
  pose proof (choose_reads s w) as Hs. rewrite Hc in Hs. simpl in Hs.
  destruct (net_remove_node_present (_network self) t w1) as [w2 Hr].
  { by rewrite (same_store_graph_at _ _ _ Hs). }
  exists s', w2. split; [apply attack_round_Ok; eauto|].
  destruct (round_graph self choose choose_reads _ _ _ _ _ _ Hc Hr) as [_ Hg].
  split; [by apply Hnext|by apply (remove_node_size _ t)].
Qed.

Lemma attack_loop_total k s w :
  Inv s (graph_at w (_network self)) →
  (k ≤ nx.number_of_nodes (graph_at w (_network self)))%nat →
  ∃ w', attack_loop self choose k s w = (Ok tt, w').
Proof.
  revert s w. induction k as [|k IH]; intros s w HI Hk; simpl; [by eexists|].
  destruct (round_total s w HI) as (s' & w1 & Hr & HI' & Hsz).
  { intros H0%dom_empty_size. lia. }
  rewrite (bind_Ok_l _ _ _ _ _ Hr). apply IH; [done|lia].
Qed.

Lemma attack_loop_exhaust k s w :
  Inv s (graph_at w (_network self)) →
  (nx.number_of_nodes (graph_at w (_network self)) < k)%nat →
  ∃ w', attack_loop self choose k s w = (Raise e0, w') ∧
        dom (graph_at w' (_network self)) = ∅.
Proof.
  revert s w. induction k as [|k IH]; intros s w HI Hk; [lia|]. simpl.
  destruct (decide (dom (graph_at w (_network self)) = ∅)) as [He|Hne].
  - destruct (choose_empty s w HI He) as [w1 Hc].
    pose proof (choose_reads s w) as Hs. rewrite Hc in Hs. simpl in Hs.
    exists w1. split; [|by rewrite (same_store_graph_at _ _ _ Hs)].
    apply bind_Raise_l. unfold attack_round. by apply bind_Raise_l.
  - destruct (round_total s w HI Hne) as (s' & w1 & Hr & HI' & Hsz).
    rewrite (bind_Ok_l _ _ _ _ _ Hr). apply IH; [done|lia].
Qed.
End totality.

Lemma random_node_total self w :
  dom (graph_at w (_network self)) ≠ ∅ →
  ∃ t w1, _random_node self None w = (Ok t, w1) ∧ t ∈ dom (graph_at w (_network self)).
Proof.
  intros Hne. unfold _random_node, mbind, M_bind, load, choice. simpl.
  destruct (nx.nodes (graph_at w (_network self))) as [|x ns] eqn:Hn.
  - by apply nodes_nil in Hn.
  - eexists _, _. split; [done|]. apply elem_of_nodes. rewrite Hn. apply pick_elem.
Qed.

Lemma random_node_empty self w :
  dom (graph_at w (_network self)) = ∅ →
  _random_node self None w = (Raise IndexError, w).
Proof.
  intros He%nodes_nil. unfold _random_node, mbind, M_bind, load, choice. simpl.
  by rewrite He.
Qed.

Lemma choice_total (l : list Z) w :
  l ≠ [] → ∃ t w1, choice l w = (Ok t, w1) ∧ t ∈ l.
Proof.
  destruct l as [|x r]; [done|]. intros _. eexists _, _. split; [done|].
  apply pick_elem.
Qed.

Lemma best_node_total self nodes w :
  ranks_requested (_metric self) →
  nx.nbunch_iter (graph_at w (_network self)) nodes ≠ [] →
  ∃ t, _best_node self nodes w = (Ok t, w) ∧
       t ∈ nx.nbunch_iter (graph_at w (_network self)) nodes.
Proof.
  intros Hm Hne.
  destruct (Hm (graph_at w (_network self)) nodes) as (ranks & Hcall & Hranks).
  unfold _best_node, mbind, M_bind, load, lift. simpl. rewrite Hcall.
  destruct (py_max snd ranks) as [[t sc]|] eqn:Hmax.
  - exists t. split; [done|]. apply py_max_Some in Hmax as [Hin _].
    rewrite <- Hranks. apply list_elem_of_fmap. by exists (t, sc).
  - apply py_max_None in Hmax. destruct Hne. by rewrite <- Hranks, Hmax.
Qed.

Lemma best_node_empty self nodes w :
  ranks_requested (_metric self) →
  nx.nbunch_iter (graph_at w (_network self)) nodes = [] →
  _best_node self nodes w = (Raise ValueError, w).
Proof.
  intros Hm He.
  destruct (Hm (graph_at w (_network self)) nodes) as (ranks & Hcall & Hranks).
  unfold _best_node, mbind, M_bind, load, lift. simpl. rewrite Hcall.
  destruct (py_max snd ranks) as [[t sc]|] eqn:Hmax; [|done].
  apply py_max_Some in Hmax as [Hin _].
  assert (t ∈ ranks.*1) as Ht.
  { apply list_elem_of_fmap. by exists (t, sc). }
  rewrite Hranks, He in Ht. by apply elem_of_nil in Ht.
Qed.

Lemma nbunch_present (g : Graph) (c : list Z) :
  (∀ v, v ∈ c → v ∈ dom g) → nx.nbunch_iter g (Some c) = c.
Proof.
  intros H. unfold nx.nbunch_iter. induction c as [|v c IH]; [done|].
  rewrite filter_cons_True by (apply H; left). f_equal. apply IH.
  intros u Hu. apply H. by right.
Qed.

Lemma net_neighbors_present l t w :
  t ∈ dom (graph_at w l) →
  net_neighbors l t w = (Ok (elements (nx.adj (graph_at w l) t)), w).
Proof.
  intros [nbrs E]%elem_of_dom.
  unfold net_neighbors, mbind, M_bind, load, lift, nx.neighbors, nx.adj. simpl.
  by rewrite E.
Qed.

Lemma degree_ranks_requested : ranks_requested (Given nx.degree_iter).
Proof.
  intros g nodes. eexists. split; [done|].
  unfold nx.degree_iter. rewrite <- list_fmap_compose.
  apply list_fmap_id.
Qed.

Lemma random_chooser_total self s w :
  dom (graph_at w (_network self)) ≠ ∅ →
  ∃ t s' w1, random_chooser self s w = (Ok (t, s'), w1) ∧
             t ∈ dom (graph_at w (_network self)).
Proof.
  intros (t & w1 & Hrn & Ht)%random_node_total. exists t, tt, w1. split; [|done].
  unfold random_chooser, stateless. by rewrite (bind_Ok_l _ _ _ _ _ Hrn).
Qed.

Lemma targeted_chooser_total self s w :
  ranks_requested (_metric self) →
  dom (graph_at w (_network self)) ≠ ∅ →
  ∃ t s' w1, targeted_chooser self s w = (Ok (t, s'), w1) ∧
             t ∈ dom (graph_at w (_network self)).
Proof.
  intros Hm Hne. destruct (best_node_total self None w Hm) as (t & Hb & Ht).
  { simpl. by rewrite nodes_nil. }
  exists t, tt, w. split; [|by apply elem_of_nodes].
  unfold targeted_chooser, stateless. by rewrite (bind_Ok_l _ _ _ _ _ Hb).
Qed.

Lemma path_chooser_total ty self st w :
  is_path ty = true →
  policy_ready ty self (graph_at w (_network self)) →
  walk_ok st (graph_at w (_network self)) →
  dom (graph_at w (_network self)) ≠ ∅ →
  ∃ t st' w1, path_chooser_of ty self st w = (Ok (t, st'), w1) ∧
              t ∈ dom (graph_at w (_network self)) ∧
              ∀ g', nx.remove_node (graph_at w (_network self)) t = Ok g' →
                    walk_ok st' g'.
Proof.
  intros Hty Hready [Hsimple Hst] Hne.
  assert (∃ t w1, (match neighbors st with
                   | Some [] => _random_node self None
                   | Some (x :: c) =>
                       match ty with
                       | TargetedPath => _best_node self (Some (x :: c))
                       | _ => _random_node self (Some (x :: c))
                       end
                   | None => mret (target st)
                   end) w = (Ok t, w1) ∧ same_store w w1 ∧
                  t ∈ dom (graph_at w (_network self))) as (t & w1 & Hfirst & Hs & Ht).
  { destruct (neighbors st) as [[|x c]|].
    - destruct (random_node_total self w Hne) as (t & w1 & Hrn & Ht).
      exists t, w1. split; [done|]. split; [|done].
      pose proof (reads_only_random_node self None w) as H. by rewrite Hrn in H.
    - destruct ty; try done.
      + destruct (choice_total (x :: c) w) as (t & w1 & Hch & Ht); [done|].
        exists t, w1. split; [done|]. split; [|by apply Hst].
        pose proof (reads_only_choice (x :: c) w) as H. by rewrite Hch in H.
      + destruct Hready as [_ Hm].
        destruct (best_node_total self (Some (x :: c)) w Hm) as (t & Hb & Ht).
        { by rewrite nbunch_present. }
        rewrite nbunch_present in Ht by done.
        exists t, w. split; [done|]. split; [apply same_store_refl|by apply Hst].
    - exists (target st), w. split; [done|]. split; [apply same_store_refl|done]. }
  pose proof (same_store_graph_at _ _ (_network self) Hs) as Hg.
  exists t, (mkWalk t (Some (elements (nx.adj (graph_at w (_network self)) t)))), w1.
  split; [|split; [done|]].
  - assert (path_chooser_of ty self st w =
            (t' ← (match neighbors st with
                   | Some [] => _random_node self None
                   | Some (x :: c) =>
                       match ty with
                       | TargetedPath => _best_node self (Some (x :: c))
                       | _ => _random_node self (Some (x :: c))
                       end
                   | None => mret (target st)
                   end);
             nbrs' ← net_neighbors (_network self) t';
             mret (t', mkWalk t' (Some nbrs'))) w) as ->.
    { destruct ty; try done; simpl;
        unfold random_path_chooser, targeted_path_chooser, choose_target;
        by destruct (neighbors st) as [[|x c]|]. }
    rewrite (bind_Ok_l _ _ _ _ _ Hfirst).
    erewrite bind_Ok_l; [|apply net_neighbors_present; by rewrite Hg].
    by rewrite Hg.
  - intros g' Hr. destruct Hsimple as (Hsym & Hcl & Hlf).
    split; [by eapply remove_node_simple|]. simpl.
    apply remove_node_Ok in Hr as [_ ->].
    intros v Hv%elem_of_elements. specialize (Hcl t). specialize (Hlf t). set_solver.
Qed.

Lemma path_chooser_exhausted ty self st w :
  is_path ty = true →
  walk_ok st (graph_at w (_network self)) →
  dom (graph_at w (_network self)) = ∅ →
  ∃ w1, path_chooser_of ty self st w = (Raise IndexError, w1).
Proof.
  intros Hty [_ Hst] He.
  destruct (neighbors st) as [[|x c]|] eqn:Hn.
  - exists w. pose proof (random_node_empty self w He) as Hrn.
    destruct ty; try done; simpl;
      unfold random_path_chooser, targeted_path_chooser, choose_target;
      rewrite Hn; by apply bind_Raise_l.
  - assert (x ∈ dom (graph_at w (_network self))) as Hx by (apply Hst; left).
    rewrite He in Hx. set_solver.
  - rewrite He in Hst. set_solver.
Qed.

Lemma ready_after_removal ty self g g' t :
  policy_ready ty self g → nx.remove_node g t = Ok g' → policy_ready ty self g'.
Proof.
  intros Hready Hr. destruct ty; simpl in *; try done.
  - by eapply remove_node_simple.
  - destruct Hready. split; [by eapply remove_node_simple|done].
Qed.

Lemma path_policy_unfold ty self n w :
  is_path ty = true →
  policy ty self n w =
  (st ← _path_chooser self;
   attack_loop self (path_chooser_of ty self) (rounds_of self n) st) w.
Proof.
  destruct ty; try done; intros _; simpl;
    unfold random_path, targeted_path, mbind, M_bind;
    destruct (_path_chooser self w) as [[st|e] w1]; try done;
    by rewrite attack_unfold.
Qed.

Lemma path_chooser_start self w :
  dom (graph_at w (_network self)) ≠ ∅ →
  ∃ st w1, _path_chooser self w = (Ok st, w1) ∧ same_store w w1 ∧
           neighbors st = None ∧ target st ∈ dom (graph_at w (_network self)).
Proof.
  intros (t & w1 & Hrn & Ht)%random_node_total.
  exists (mkWalk t None), w1. unfold _path_chooser.
  rewrite (bind_Ok_l _ _ _ _ _ Hrn). split; [done|]. split; [|done].
  pose proof (reads_only_random_node self None w) as H. by rewrite Hrn in H.
Qed.

Lemma path_policy_empty ty self n w :
  is_path ty = true →
  dom (graph_at w (_network self)) = ∅ →
  policy ty self n w = (Raise IndexError, w).
Proof.
  intros Hty He. rewrite path_policy_unfold by done.
  apply bind_Raise_l. unfold _path_chooser. apply bind_Raise_l.
  by apply random_node_empty.
Qed.

Lemma simple_ready ty self g :
  is_path ty = true → policy_ready ty self g → simple g.
Proof. destruct ty; try done; simpl; tauto. Qed.

Lemma policy_total ty self n w :
  policy_ready ty self (graph_at w (_network self)) →
  (rounds_of self n ≤ nx.number_of_nodes (graph_at w (_network self)))%nat →
  (is_path ty = true → dom (graph_at w (_network self)) ≠ ∅) →
  ∃ w', policy ty self n w = (Ok tt, w').
Proof.
  intros Hready Hk Hstart.
  destruct (is_path ty) eqn:Hty.
  - rewrite path_policy_unfold by done.
    destruct (path_chooser_start self w (Hstart eq_refl)) as (st & w1 & Hpc & Hs & Hn & Ht).
    rewrite (bind_Ok_l _ _ _ _ _ Hpc).
    pose proof (same_store_graph_at _ _ (_network self) Hs) as Hg.
    apply (attack_loop_total self _ (λ st g, policy_ready ty self g ∧ walk_ok st g)).
    + destruct ty; try done; simpl; eauto with reads.
    + intros s0 w0 [Hr0 Hw0] Hne0.
      destruct (path_chooser_total ty self s0 w0 Hty Hr0 Hw0 Hne0)
        as (t & st' & w2 & Hc & Ht0 & Hnext).
      exists t, st', w2. split; [done|]. split; [done|].
      intros g' Hrem. split; [by eapply ready_after_removal|by apply Hnext].
    + rewrite Hg. split; [done|]. split; [by eapply simple_ready|]. by rewrite Hn.
    + by rewrite Hg.
  - destruct ty; try done; simpl.
    + unfold random. rewrite attack_unfold.
      apply (attack_loop_total self _ (λ _ _, True)); try done.
      * chooser_reads.
      * intros s0 w0 _ Hne0.
        destruct (random_chooser_total self s0 w0 Hne0) as (t & s' & w1 & Hc & Ht).
        by exists t, s', w1.
    + unfold targeted. rewrite attack_unfold.
      apply (attack_loop_total self _ (λ _ _, True)); try done.
      * chooser_reads.
      * intros s0 w0 _ Hne0.
        destruct (targeted_chooser_total self s0 w0 Hready Hne0) as (t & s' & w1 & Hc & Ht).
        by exists t, s', w1.
Qed.

Lemma policy_exhaust ty self n w :
  policy_ready ty self (graph_at w (_network self)) →
  (nx.number_of_nodes (graph_at w (_network self)) < rounds_of self n)%nat →
  ∃ w', policy ty self n w = (Raise (exhausted ty), w') ∧
        dom (graph_at w' (_network self)) = ∅.
Proof.
  intros Hready Hk.
  destruct (is_path ty) eqn:Hty.
  - assert (exhausted ty = IndexError) as -> by by destruct ty.
    destruct (decide (dom (graph_at w (_network self)) = ∅)) as [He|Hne].
    { exists w. split; [by apply path_policy_empty|done]. }
    rewrite path_policy_unfold by done.
    destruct (path_chooser_start self w Hne) as (st & w1 & Hpc & Hs & Hn & Ht).
    rewrite (bind_Ok_l _ _ _ _ _ Hpc).
    pose proof (same_store_graph_at _ _ (_network self) Hs) as Hg.
    apply (attack_loop_exhaust self _
             (λ st g, policy_ready ty self g ∧ walk_ok st g) IndexError).
    + destruct ty; try done; simpl; eauto with reads.
    + intros s0 w0 [Hr0 Hw0] Hne0.
      destruct (path_chooser_total ty self s0 w0 Hty Hr0 Hw0 Hne0)
        as (t & st' & w2 & Hc & Ht0 & Hnext).
      exists t, st', w2. split; [done|]. split; [done|].
      intros g' Hrem. split; [by eapply ready_after_removal|by apply Hnext].
    + intros s0 w0 [_ Hw0] He0. by apply path_chooser_exhausted.
    + rewrite Hg. split; [done|]. split; [by eapply simple_ready|]. by rewrite Hn.
    + by rewrite Hg.
  - destruct ty; try done; simpl.
    + unfold random. rewrite attack_unfold.
      apply (attack_loop_exhaust self _ (λ _ _, True) IndexError); try done.
      * chooser_reads.
      * intros s0 w0 _ Hne0.
        destruct (random_chooser_total self s0 w0 Hne0) as (t & s' & w1 & Hc & Ht).
        by exists t, s', w1.
      * intros s0 w0 _ He0. exists w0. unfold random_chooser, stateless.
        apply bind_Raise_l. by apply random_node_empty.
    + unfold targeted. rewrite attack_unfold.
      apply (attack_loop_exhaust self _ (λ _ _, True) ValueError); try done.
      * chooser_reads.
      * intros s0 w0 _ Hne0.
        destruct (targeted_chooser_total self s0 w0 Hready Hne0) as (t & s' & w1 & Hc & Ht).
        by exists t, s', w1.
      * intros s0 w0 _ He0. exists w0. unfold targeted_chooser, stateless.
        apply bind_Raise_l. apply best_node_empty; [done|]. simpl. by apply nodes_nil.
Qed.

(** A simple graph can be checked entry by entry of the adjacency. *)
Lemma simple_alt (g : Graph) :
  map_Forall (λ v s, (v ∉ s) ∧ set_Forall (λ u, u ∈ dom g ∧ v ∈ nx.adj g u) s) g →
  simple g.
Proof.
  intros H. split; [|split].
  - intros u v. unfold nx.adj at 1. destruct (g !! v) as [s|] eqn:E; [|set_solver].
    simpl. intros Hu. destruct (H v s E) as [_ F]. by destruct (F u Hu).
  - intros v u. unfold nx.adj. destruct (g !! v) as [s|] eqn:E; [|set_solver].
    simpl. intros Hu. destruct (H v s E) as [_ F]. by destruct (F u Hu).
  - intros v. unfold nx.adj. destruct (g !! v) as [s|] eqn:E; [|set_solver].
    simpl. by destruct (H v s E).
Qed.

Lemma simple_g5 : simple g5.
Proof. apply simple_alt. refine (bool_decide_unpack _ _). vm_compute. exact I. Qed.



(** X3: under the conditions of X2 (any network for [random]; a metric
    that ranks the requested nodes that are in the network, those and no
    other, for [targeted] and [targeted_path]; a simple graph for
    [random_path] and [targeted_path]), a policy call that asks for more
    removals than the network has nodes removes every node before it
    raises: the network is left empty, and the exception is the
    [ValueError] of [max] for [targeted] and the [IndexError] of
    [random.choice] for the other policies. *)
Theorem over_removal_empties ty self n w :
  policy_ready ty self (graph_at w (_network self)) →
  (nx.number_of_nodes (graph_at w (_network self)) < rounds_of self n)%nat →
  ∃ w', policy ty self n w = (Raise (exhausted ty), w') ∧
        dom (graph_at w' (_network self)) = ∅.
Proof. apply policy_exhaust. Qed.

Lemma over_removal_empties_witness :
  ∃ w', policy RandomPath a5 (Some 6) w5a = (Raise (exhausted RandomPath), w') ∧
        dom (graph_at w' (_network a5)) = ∅.
Proof.
  apply (over_removal_empties RandomPath a5 (Some 6) w5a).
  - exact simple_g5.
  - vm_compute. lia.
Defined.

(** ** A walk through a self-loop *)

Lemma net_neighbors_absent l t w :
  t ∉ dom (graph_at w l) → net_neighbors l t w = (Raise NetworkXError, w).
Proof.
  intros H%not_elem_of_dom.
  unfold net_neighbors, mbind, M_bind, load, lift, nx.neighbors. simpl.
  by rewrite H.
Qed.

Lemma pick_singleton {A} (r : nat) (x : A) : pick r x [] = x.
Proof. unfold pick. change (length [x]) with 1%nat. by rewrite Nat.mod_1_r. Qed.

Lemma path_first_round ty self t w :
  is_path ty = true →
  t ∈ dom (graph_at w (_network self)) →
  ∃ w2, attack_round self (path_chooser_of ty self) (mkWalk t None) w
        = (Ok (mkWalk t (Some (elements (nx.adj (graph_at w (_network self)) t)))), w2) ∧
        nx.remove_node (graph_at w (_network self)) t = Ok (graph_at w2 (_network self)).
Proof.
  intros Hty Ht.
  assert (path_chooser_of ty self (mkWalk t None) w
          = (Ok (t, mkWalk t (Some (elements (nx.adj (graph_at w (_network self)) t)))), w))
    as Hc.
  { destruct ty; try done; simpl;
      unfold random_path_chooser, targeted_path_chooser, choose_target; simpl;
      unfold mbind at 1, M_bind at 1; simpl;
      by rewrite (bind_Ok_l _ _ _ _ _ (net_neighbors_present _ _ _ Ht)). }
  destruct (net_remove_node_present _ _ _ Ht) as [w2 Hr].
  exists w2. split.
  - apply attack_round_Ok. eauto.
  - by apply net_remove_node_Ok in Hr as [? _].
Qed.

(** X4: a self-loop breaks the walk.  When the start node of a path
    policy has itself as only neighbour, the cache read before its removal
    holds just that node.  In the next round [random_path] draws it from
    the cache and asks the network for its neighbours: [neighbors] raises
    [NetworkXError], the node being gone, before any removal is tried.
    [targeted_path], when its metric ranks the requested nodes that are in
    the network, those and no other, finds nothing to rank, and [max]
    raises [ValueError].  Neither restarts from a fresh node, and the
    start node stays removed. *)
Theorem self_loop_breaks_walk self w t k :
  fresh_draw self w t →
  graph_at w (_network self) !! t = Some {[t]} →
  2 ≤ k →
  (∃ w', random_path self (Some k) w = (Raise NetworkXError, w') ∧
         nx.remove_node (graph_at w (_network self)) t
         = Ok (graph_at w' (_network self))) ∧
  (ranks_requested (_metric self) →
   ∃ w', targeted_path self (Some k) w = (Raise ValueError, w') ∧
         nx.remove_node (graph_at w (_network self)) t
         = Ok (graph_at w' (_network self))).
Proof.
  intros (x & ns & Hn & ->) Hloop Hk.
  set (t := pick (rand w (drawn w)) x ns) in *.
  assert (t ∈ dom (graph_at w (_network self))) as Ht by (apply elem_of_dom; eauto).
  assert (nx.adj (graph_at w (_network self)) t = {[t]}) as Hadj
    by (unfold nx.adj; by rewrite Hloop).
  assert (_path_chooser self w = (Ok (mkWalk t None), after_draw w)) as Hpc.
  { unfold _path_chooser, _random_node, mbind, M_bind, load, choice. simpl.
    by rewrite Hn. }
  assert (∃ j, rounds_of self (Some k) = S (S j)) as [j Hj].
  { exists (Z.to_nat k - 2)%nat. unfold rounds_of. simpl. lia. }
  assert (∀ ty, is_path ty = true →
            ∃ w2, policy ty self (Some k) w
                  = attack_loop self (path_chooser_of ty self) (S j)
                      (mkWalk t (Some [t])) w2 ∧
                  nx.remove_node (graph_at w (_network self)) t
                  = Ok (graph_at w2 (_network self))) as Hfirst.
  { intros ty Hty. rewrite path_policy_unfold, (bind_Ok_l _ _ _ _ _ Hpc), Hj by done.
    destruct (path_first_round ty self t (after_draw w) Hty Ht) as (w2 & Hr & Hg).
    exists w2. split; [|done].
    change (graph_at (after_draw w) (_network self))
      with (graph_at w (_network self)) in Hr.
    rewrite Hadj, elements_singleton in Hr.
    cbn [attack_loop]. by rewrite (bind_Ok_l _ _ _ _ _ Hr). }
  split.
  - destruct (Hfirst RandomPath eq_refl) as (w2 & Hp & Hg).
    pose proof (remove_node_Ok _ _ _ Hg) as [_ Hdom].
    exists (after_draw w2). split; [|done].
    simpl in Hp. rewrite Hp. cbn [attack_loop]. apply bind_Raise_l.
    unfold attack_round. apply bind_Raise_l.
    unfold path_chooser_of, random_path_chooser, choose_target. simpl.
    unfold mbind at 1, M_bind at 1. simpl. rewrite pick_singleton.
    apply bind_Raise_l, net_neighbors_absent.
    change (graph_at (after_draw w2) (_network self))
      with (graph_at w2 (_network self)).
    rewrite Hdom. set_solver.
  - intros Hm. destruct (Hfirst TargetedPath eq_refl) as (w2 & Hp & Hg).
    pose proof (remove_node_Ok _ _ _ Hg) as [_ Hdom].
    exists w2. split; [|done].
    simpl in Hp. rewrite Hp. cbn [attack_loop]. apply bind_Raise_l.
    unfold attack_round. apply bind_Raise_l.
    unfold path_chooser_of, targeted_path_chooser, choose_target. simpl.
    apply bind_Raise_l, best_node_empty; [done|].
    unfold nx.nbunch_iter. rewrite filter_cons_False; [done|].
    rewrite Hdom. set_solver.
Qed.

Lemma self_loop_breaks_walk_witness :
  (∃ w', random_path a_loop (Some 2) w_loop = (Raise NetworkXError, w') ∧
         nx.remove_node (graph_at w_loop (_network a_loop)) 1
         = Ok (graph_at w' (_network a_loop))) ∧
  (ranks_requested (_metric a_loop) →
   ∃ w', targeted_path a_loop (Some 2) w_loop = (Raise ValueError, w') ∧
         nx.remove_node (graph_at w_loop (_network a_loop)) 1
         = Ok (graph_at w' (_network a_loop))).
Proof.
  apply (self_loop_breaks_walk a_loop w_loop 1 2).
  - vm_compute. eexists _, _. split; reflexivity.
  - vm_compute. reflexivity.
  - lia.
Defined.

(** ** The components [measure] counts *)

Section search.
Context (g : Graph).
Implicit Types (seen level : gset Z) (v : Z).

Lemma bfs_grows fuel seen level : seen ⊆ nx.bfs g fuel seen level.
Proof.
  revert seen level. induction fuel as [|fuel IH]; intros seen level; [done|].
  rewrite bfs_S. destruct (decide (level = ∅)); [done|].
  etrans; [|apply IH]. set_solver.
Qed.

Lemma plain_bfs_source v : v ∈ nx.plain_bfs g v.
Proof. rewrite plain_bfs_first. apply bfs_grows. set_solver. Qed.

Lemma bfs_minimal (P : Z → Prop) fuel seen level :
  (∀ u x, P u → x ∈ nx.adj g u → P x) →
  (∀ u, u ∈ seen → P u) → (∀ u, u ∈ level → P u) →
  ∀ u, u ∈ nx.bfs g fuel seen level → P u.
Proof.
  intros HP. revert seen level.
  induction fuel as [|fuel IH]; intros seen level Hseen Hlevel; [done|].
  rewrite bfs_S. destruct (decide (level = ∅)); [done|]. apply IH.
  - intros u [?|[? _]%elem_of_difference]%elem_of_union; auto.
  - intros x (X & (u & -> & Hu)%list_elem_of_fmap & Hx)%elem_of_union_list.
    apply elem_of_elements, elem_of_difference in Hu as [Hu _]. eauto.
Qed.

Lemma bfs_closed fuel seen level :
  closed g → level ⊆ dom g → seen ⊆ dom g →
  (∀ u, u ∈ seen → nx.adj g u ⊆ seen ∪ level) →
  (size (dom g ∖ seen) + 2 ≤ fuel)%nat →
  nx.bfs g fuel seen level ⊆ dom g ∧ adj_closed g (nx.bfs g fuel seen level).
Proof.
  intros Hcl. revert seen level.
  induction fuel as [|fuel IH]; intros seen level Hlev Hseen Hfront Hsz; [lia|].
  rewrite bfs_S. destruct (decide (level = ∅)) as [->|Hne].
  { split; [done|]. intros u Hu. specialize (Hfront u Hu). set_solver. }
  destruct (decide (level ∖ seen = ∅)) as [Hnew|Hnew].
  - rewrite Hnew, elements_empty. simpl. rewrite bfs_nil.
    assert (seen ∪ ∅ = seen) as -> by set_solver.
    split; [done|]. intros u Hu. specialize (Hfront u Hu). set_solver.
  - apply IH.
    + by apply union_adj_subseteq.
    + clear -Hlev Hseen. set_solver.
    + intros u [Hu|Hu]%elem_of_union.
      * intros x Hx%(Hfront u Hu). clear -Hx.
        destruct (decide (x ∈ seen)); set_solver.
      * intros x Hx. apply elem_of_union_r, elem_of_union_list.
        exists (nx.adj g u). split; [|done].
        apply list_elem_of_fmap. exists u. split; [done|]. by apply elem_of_elements.
    + assert (size (dom g ∖ (seen ∪ level ∖ seen)) < size (dom g ∖ seen))%nat; [|lia].
      apply subset_size. apply set_choose_L in Hnew as [x Hx].
      clear -Hx Hlev. set_solver.
Qed.

Lemma plain_bfs_closed v :
  closed g → v ∈ dom g →
  nx.plain_bfs g v ⊆ dom g ∧ adj_closed g (nx.plain_bfs g v).
Proof.
  intros Hcl Hv. apply bfs_closed; [done|set_solver|set_solver|set_solver|].
  unfold nx.number_of_nodes. assert (dom g ∖ ∅ = dom g) as -> by set_solver. lia.
Qed.

Lemma plain_bfs_minimal (P : Z → Prop) v :
  (∀ u x, P u → x ∈ nx.adj g u → P x) → P v →
  ∀ u, u ∈ nx.plain_bfs g v → P u.
Proof.
  intros HP Hv. apply bfs_minimal; [done|set_solver|].
  by intros u ->%elem_of_singleton.
Qed.

(** The nodes found from [v] are those a path leads to. *)
Lemma plain_bfs_reach v u :
  closed g → v ∈ dom g → u ∈ nx.plain_bfs g v ↔ rtc (edge g) v u.
Proof.
  intros Hcl Hv. split.
  - apply (plain_bfs_minimal (λ u, rtc (edge g) v u)); [|done].
    intros a b Ha Hb. by eapply rtc_r.
  - destruct (plain_bfs_closed v Hcl Hv) as [_ Hclosed].
    revert u. apply rtc_ind_r; [apply plain_bfs_source|].
    intros a b _ Hab IH. by apply (Hclosed a).
Qed.

(** A search from a node outside a closed set stays outside of it. *)
Lemma plain_bfs_apart v (X : gset Z) :
  symmetric g → adj_closed g X → v ∉ X → nx.plain_bfs g v ## X.
Proof.
  intros Hsym HX Hv u Hu. revert u Hu.
  apply (plain_bfs_minimal (λ u, u ∈ X → False)); [|done].
  intros a b Ha Hb HbX. apply Ha. apply (HX b HbX). by apply Hsym.
Qed.

Lemma cc_step_grows acc v :
  v ∈ (nx.cc_step g acc v).1 ∧ acc.1 ⊆ (nx.cc_step g acc v).1 ∧
  ∃ extra, (nx.cc_step g acc v).2 = acc.2 ++ extra ∧ Forall (λ c, c ≠ ∅) extra.
Proof.
  unfold nx.cc_step. destruct (decide (v ∈ acc.1)); simpl.
  - split; [done|]. split; [done|]. exists []. by rewrite app_nil_r.
  - pose proof (plain_bfs_source v). split; [set_solver|]. split; [set_solver|].
    eexists. split; [done|]. constructor; [set_solver|constructor].
Qed.

Lemma cc_fold_grows l acc :
  (∀ v, v ∈ l → v ∈ (fold_left (nx.cc_step g) l acc).1) ∧
  acc.1 ⊆ (fold_left (nx.cc_step g) l acc).1 ∧
  ∃ extra, (fold_left (nx.cc_step g) l acc).2 = acc.2 ++ extra ∧
           Forall (λ c, c ≠ ∅) extra.
Proof.
  revert acc. induction l as [|v l IH]; intros acc; simpl.
  - split; [by intros v ?%elem_of_nil|]. split; [done|]. exists [].
    by rewrite app_nil_r.
  - destruct (cc_step_grows acc v) as (Hv & Hsub & e1 & He1 & Hne1).
    destruct (IH (nx.cc_step g acc v)) as (Hall & Hsub' & e2 & He2 & Hne2).
    split; [|split].
    + intros u [->|Hu]%elem_of_cons; [set_solver|by apply Hall].
    + set_solver.
    + exists (e1 ++ e2). split; [by rewrite He2, He1, app_assoc|].
      by apply Forall_app.
Qed.

Lemma cc_step_inv acc v :
  symmetric g → closed g → v ∈ dom g →
  cc_inv g acc → cc_inv g (nx.cc_step g acc v).
Proof.
  intros Hsym Hcl Hv (Hclosed & Hdom & Hunion & Hsize).
  unfold nx.cc_step. destruct (decide (v ∈ acc.1)) as [|Hnew]; [done|].
  destruct (plain_bfs_closed v Hcl Hv) as [Hsub Hc].
  pose proof (plain_bfs_apart v acc.1 Hsym Hclosed Hnew) as Hdisj.
  repeat split; simpl.
  - intros u [Hu|Hu]%elem_of_union.
    + specialize (Hclosed u Hu). set_solver.
    + specialize (Hc u Hu). set_solver.
  - set_solver.
  - rewrite union_list_app_L, <- Hunion. simpl. set_solver.
  - rewrite fmap_app, sum_list_with_app, <- Hsize, size_union by set_solver.
    simpl. lia.
Qed.

Lemma cc_fold_inv l acc :
  symmetric g → closed g → (∀ v, v ∈ l → v ∈ dom g) →
  cc_inv g acc → cc_inv g (fold_left (nx.cc_step g) l acc).
Proof.
  intros Hsym Hcl. revert acc. induction l as [|v l IH]; intros acc Hl Hinv; [done|].
  simpl. apply IH.
  - intros u Hu. apply Hl. by right.
  - apply cc_step_inv; [done..|apply Hl; left|done].
Qed.
End search.

Lemma cc_fold_union (g : Graph) l acc :
  acc.1 = ⋃ acc.2 →
  (fold_left (nx.cc_step g) l acc).1 = ⋃ (fold_left (nx.cc_step g) l acc).2.
Proof.
  revert acc. induction l as [|v l IH]; intros acc Hacc; [done|].
  simpl. apply IH. unfold nx.cc_step. destruct (decide (v ∈ acc.1)); [done|].
  simpl. rewrite union_list_app_L, <- Hacc. simpl. set_solver.
Qed.

Lemma cc_fold_union0 (g : Graph) l :
  (fold_left (nx.cc_step g) l (∅, [])).1 = ⋃ (fold_left (nx.cc_step g) l (∅, [])).2.
Proof. by apply cc_fold_union. Qed.

Lemma components_cover (g : Graph) :
  ⋃ nx.connected_components g = dom g →
  ∀ v, v ∈ dom g → ∃ c, c ∈ nx.connected_components g ∧ v ∈ c.
Proof. intros H v Hv. apply elem_of_union_list. by rewrite H. Qed.

Lemma components_nonempty (g : Graph) :
  Forall (λ c, c ≠ ∅) (nx.connected_components g) ∧
  (dom g ≠ ∅ → nx.connected_components g ≠ []).
Proof.
  unfold nx.connected_components.
  destruct (cc_fold_grows g (nx.nodes g) (∅, [])) as (Hall & _ & extra & He & Hne).
  pose proof (cc_fold_union0 g (nx.nodes g)) as Hu.
  simpl in He. rewrite He in *. split; [done|].
  intros Hdom ->. apply Hdom, set_eq. intros v.
  split; [|set_solver]. intros Hv%elem_of_nodes%Hall. by rewrite Hu in Hv.
Qed.

Lemma components_partition (g : Graph) :
  symmetric g → closed g →
  ⋃ nx.connected_components g = dom g ∧
  nx.number_of_nodes g = sum_list (size <$> nx.connected_components g).
Proof.
  intros Hsym Hcl. unfold nx.connected_components, nx.number_of_nodes.
  destruct (cc_fold_grows g (nx.nodes g) (∅, [])) as (Hall & _).
  destruct (cc_fold_inv g (nx.nodes g) (∅, []) Hsym Hcl) as (_ & Hsub & Hu & Hsz).
  { intros v. apply elem_of_nodes. }
  { repeat split; simpl; [by intros u ?%not_elem_of_empty|set_solver]. }
  assert ((fold_left (nx.cc_step g) (nx.nodes g) (∅, [])).1 = dom g) as Hdom.
  { apply set_eq. intros v. split; [apply Hsub|]. intros Hv%elem_of_nodes. by apply Hall. }
  split; [by rewrite <- Hu|by rewrite <- Hsz, Hdom].
Qed.

Lemma sum_list_le_max (l : list nat) (m : nat) :
  (∀ x, x ∈ l → (x ≤ m)%nat) → (sum_list l ≤ length l * m)%nat.
Proof.
  induction l as [|a l IH]; intros H; simpl; [lia|].
  pose proof (H a (list_elem_of_here _ _)).
  assert (sum_list l ≤ length l * m)%nat; [|lia].
  apply IH. intros x Hx. apply H. by right.
Qed.

Lemma sum_list_ge (l : list nat) (x : nat) :
  x ∈ l → (∀ y, y ∈ l → (1 ≤ y)%nat) → (x + length l ≤ sum_list l + 1)%nat.
Proof.
  intros Hx Hpos.
  assert (length l ≤ sum_list l)%nat as Hlen.
  { clear Hx. induction l as [|a l IH]; simpl; [lia|].
    pose proof (Hpos a (list_elem_of_here _ _)).
    assert (length l ≤ sum_list l)%nat; [|lia].
    apply IH. intros y Hy. apply Hpos. by right. }
  clear Hlen. induction l as [|a l IH]; [by apply elem_of_nil in Hx|].
  simpl. apply elem_of_cons in Hx as [->|Hx].
  - assert (length l ≤ sum_list l)%nat; [|lia].
    clear IH. induction l as [|b l IH]; simpl; [lia|].
    pose proof (Hpos b (list_elem_of_further _ _ _ (list_elem_of_here _ _))).
    assert (length l ≤ sum_list l)%nat; [|lia].
    apply IH. intros y [->|Hy]%elem_of_cons; apply Hpos; [left|right; by right].
  - pose proof (Hpos a (list_elem_of_here _ _)).
    assert (x + length l ≤ sum_list l + 1)%nat; [|lia].
    apply IH; [done|]. intros y Hy. apply Hpos. by right.
Qed.

Lemma measure_Ok (g : Graph) (c s : nat) :
  measure g = Ok (c, s) →
  ∃ gc, gc ∈ nx.connected_components g ∧
        c = length (nx.connected_components g) ∧ s = size gc ∧
        ∀ c', c' ∈ nx.connected_components g → (size c' ≤ s)%nat.
Proof.
  unfold measure. destruct (py_max _ _) as [gc|] eqn:Hmax; [|done].
  intros [= <- <-]. apply py_max_Some in Hmax as [Hin Hall].
  exists gc. split; [done|]. split; [done|]. split; [done|].
  intros c' Hc'. specialize (Hall c' Hc'). lia.
Qed.

Lemma measure_Raise (g : Graph) (e : Exn) :
  measure g = Raise e → e = ValueError ∧ dom g = ∅.
Proof.
  unfold measure. destruct (py_max _ _) as [gc|] eqn:Hmax; [done|].
  intros [= <-]. split; [done|]. apply py_max_None in Hmax.
  destruct (decide (dom g = ∅)) as [|Hne]; [done|].
  by destruct (proj2 (components_nonempty g) Hne).
Qed.

(** X5: [measure] fails on the empty network only, with the [ValueError]
    of [max]; on any other network, however its adjacency looks, it
    returns a count of at least one component and a largest component of
    at least one node. *)
Theorem measure_fails_iff_empty (g : Graph) :
  (∀ e, measure g = Raise e ↔ e = ValueError ∧ dom g = ∅) ∧
  (∀ c s, measure g = Ok (c, s) → (1 ≤ c)%nat ∧ (1 ≤ s)%nat).
Proof.
  split.
  - intros e. split; [apply measure_Raise|]. intros [-> He]. by apply measure_empty.
  - intros c s (gc & Hin & -> & -> & _)%measure_Ok.
    destruct (components_nonempty g) as [Hne _]. split.
    + destruct (nx.connected_components g); [by apply elem_of_nil in Hin|simpl; lia].
    + rewrite Forall_forall in Hne. specialize (Hne gc Hin).
      assert (size gc ≠ 0%nat); [|lia]. intros H0%size_empty_inv. by apply leibniz_equiv in H0.
Qed.

(** X6: on a network whose adjacency is symmetric and closed, the
    components [measure] counts split the nodes: with [N] nodes, a count
    [c] and a largest component of [s] nodes, [c ≤ N], [s ≤ N],
    [N ≤ c * s] and [c + s ≤ N + 1]. *)
Theorem measure_bounds (g : Graph) (c s : nat) :
  symmetric g → closed g →
  measure g = Ok (c, s) →
  (1 ≤ c ≤ nx.number_of_nodes g)%nat ∧ (1 ≤ s ≤ nx.number_of_nodes g)%nat ∧
  (nx.number_of_nodes g ≤ c * s)%nat ∧ (c + s ≤ nx.number_of_nodes g + 1)%nat.
Proof.
  intros Hsym Hcl (gc & Hin & -> & -> & Hmax)%measure_Ok.
  destruct (components_partition g Hsym Hcl) as [_ HN].
  destruct (components_nonempty g) as [Hne _]. rewrite Forall_forall in Hne.
  set (cs := nx.connected_components g) in *.
  assert (∀ y, y ∈ size <$> cs → (1 ≤ y)%nat) as Hpos.
  { intros y (c' & -> & Hc')%list_elem_of_fmap. specialize (Hne c' Hc').
    assert (size c' ≠ 0%nat); [|lia]. intros H0%size_empty_inv.
    by apply leibniz_equiv in H0. }
  assert (size gc ∈ size <$> cs) as Hgc by (apply list_elem_of_fmap; eauto).
  pose proof (sum_list_ge _ _ Hgc Hpos) as Hge.
  pose proof (sum_list_le_max (size <$> cs) (size gc)) as Hle.
  rewrite length_fmap in Hge, Hle.
  assert (sum_list (size <$> cs) ≤ length cs * size gc)%nat as Hle'.
  { apply Hle. intros y (c' & -> & Hc')%list_elem_of_fmap. by apply Hmax. }
  pose proof (Hpos _ Hgc).
  assert (1 ≤ length cs)%nat.
  { destruct cs; [by apply elem_of_nil in Hin|simpl; lia]. }
  rewrite HN. lia.
Qed.

Lemma measure_bounds_witness :
  (1 ≤ 1 ≤ nx.number_of_nodes g5)%nat ∧ (1 ≤ 5 ≤ nx.number_of_nodes g5)%nat ∧
  (nx.number_of_nodes g5 ≤ 1 * 5)%nat ∧ (1 + 5 ≤ nx.number_of_nodes g5 + 1)%nat.
Proof.
  destruct simple_g5 as (Hsym & Hcl & _).
  apply (measure_bounds g5 1 5 Hsym Hcl). vm_compute. reflexivity.
Defined.

Lemma rtc_edge_sym (g : Graph) (u v : Z) :
  symmetric g → rtc (edge g) u v → rtc (edge g) v u.
Proof.
  intros Hsym. induction 1 as [|a b c Hab _ IH]; [done|].
  eapply rtc_r; [done|]. by apply Hsym.
Qed.

Lemma cc_single (g : Graph) (v : Z) (l : list Z) :
  nx.nodes g = v :: l → nx.plain_bfs g v = dom g →
  nx.connected_components g = [dom g].
Proof.
  intros Hn Hbfs. unfold nx.connected_components. rewrite Hn. simpl.
  unfold nx.cc_step at 2. simpl. rewrite decide_False by set_solver.
  rewrite Hbfs, cc_skip; simpl; [done|].
  intros u Hu. apply elem_of_union_r, elem_of_nodes. rewrite Hn. by right.
Qed.

Lemma cc_first (g : Graph) (v : Z) (l : list Z) :
  nx.nodes g = v :: l →
  ∃ extra, nx.connected_components g = nx.plain_bfs g v :: extra.
Proof.
  intros Hn. unfold nx.connected_components. rewrite Hn. simpl.
  destruct (cc_fold_grows g l (nx.cc_step g (∅, []) v)) as (_ & _ & extra & He & _).
  exists extra. rewrite He. unfold nx.cc_step. by rewrite decide_False by set_solver.
Qed.

(** X7: on a non-empty network whose adjacency is symmetric and closed,
    [measure] returns one component, of all the nodes, exactly when every
    node can be reached from every other one. *)
Theorem measure_connected (g : Graph) :
  symmetric g → closed g → dom g ≠ ∅ →
  connected g ↔ measure g = Ok (1%nat, nx.number_of_nodes g).
Proof.
  intros Hsym Hcl Hne.
  destruct (nx.nodes g) as [|v0 l] eqn:Hn; [by apply nodes_nil in Hn|].
  assert (v0 ∈ dom g) as Hv0 by (apply elem_of_nodes; rewrite Hn; left).
  split.
  - intros Hconn. unfold measure. rewrite (cc_single g v0 l Hn); [done|].
    apply set_eq. intros u. split.
    + by apply plain_bfs_closed.
    + intros Hu. apply plain_bfs_reach; [done..|]. by apply Hconn.
  - intros (gc & _ & Hlen & _)%measure_Ok.
    destruct (cc_first g v0 l Hn) as [extra He].
    destruct (components_partition g Hsym Hcl) as [Hcover _].
    rewrite He in Hlen, Hcover. destruct extra; [|done]. simpl in Hcover.
    assert (∀ u, u ∈ dom g → rtc (edge g) v0 u) as Hreach.
    { intros u Hu. apply plain_bfs_reach; [done..|]. rewrite <- Hcover in Hu.
      set_solver. }
    intros u v Hu Hv. etrans; [|by apply Hreach].
    apply rtc_edge_sym; [done|]. by apply Hreach.
Qed.

Lemma measure_connected_witness :
  connected g5 ↔ measure g5 = Ok (1%nat, nx.number_of_nodes g5).
Proof.
  destruct simple_g5 as (Hsym & Hcl & _).
  apply (measure_connected g5 Hsym Hcl).
  refine (bool_decide_unpack _ _). vm_compute. exact I.
Defined.

(** ** What a run of [simulate] does to the store *)

Lemma wrote_only_refl l d w : wrote_only l d w w.
Proof. by repeat split. Qed.

Lemma wrote_only_trans l d w1 w2 w3 :
  wrote_only l d w1 w2 → wrote_only l d w2 w3 → wrote_only l d w1 w3.
Proof.
  intros ((Hl1 & Hg1) & Hd1 & He1 & Hr1) ((Hl2 & Hg2) & Hd2 & He2 & Hr2).
  repeat split; try congruence.
  - intros l' Hne. by rewrite Hg2, Hg1.
  - intros d' Hne. by rewrite He2, He1.
Qed.

Lemma policy_wrote_only ty self n d w r w' :
  policy ty self n w = (r, w') → wrote_only (_network self) d w w'.
Proof.
  intros [[Hd Hr] Hg]%policy_frame. split; [done|]. by rewrite Hd.
Qed.

Lemma setitem_wrote_only l d k v w :
  wrote_only l d w (setitem d k v w).2.
Proof.
  repeat split; simpl; [apply length_insert|].
  intros d' Hne. by apply list_lookup_insert_ne.
Qed.

Section simulate_frame.
Context (attacker : Attacker) (ty : AttackType) (rs : nat).

Lemma simulate_round_wrote_only i w r w' :
  simulate_round attacker ty rs i w = (r, w') →
  wrote_only (_network attacker) rs w w'.
Proof.
  unfold simulate_round, mbind, M_bind.
  destruct (policy ty attacker None w) as [[[]|e] w1] eqn:Hp;
    apply (policy_wrote_only _ _ _ rs) in Hp.
  - rewrite measure_net_eq.
    destruct (measure (graph_at w1 _)) as [m|e]; intros [= _ <-]; [|done].
    eapply wrote_only_trans; [done|]. apply setitem_wrote_only.
  - by intros [= _ <-].
Qed.

Lemma for_range_wrote_only i k w r w' :
  for_range (simulate_round attacker ty rs) i k w = (r, w') →
  wrote_only (_network attacker) rs w w'.
Proof.
  revert i w. induction k as [|k IH]; intros i w; simpl.
  - intros [= _ <-]. apply wrote_only_refl.
  - unfold mbind, M_bind.
    destruct (simulate_round attacker ty rs i w) as [[[]|e] w1] eqn:Hr;
      apply simulate_round_wrote_only in Hr.
    + intros H%IH. by eapply wrote_only_trans.
    + by intros [= _ <-].
Qed.

Lemma simulate_wrote_only w r w' :
  simulate attacker ty rs w = (r, w') →
  wrote_only (_network attacker) rs w w'.
Proof.
  unfold simulate, mbind, M_bind, lift. rewrite iters_eq, measure_net_eq.
  destruct (measure (graph_at w _)) as [m|e]; [|by intros [= _ <-]; apply wrote_only_refl].
  intros H%for_range_wrote_only.
  eapply wrote_only_trans; [|done]. apply setitem_wrote_only.
Qed.
End simulate_frame.

(** X8: a run of [simulate], whether it completes or raises, writes
    nothing but the attacker's own working network and its own result
    dictionary: every other graph and every other dictionary of the store
    is as it was, and no object is created. *)
Theorem simulate_writes_own attacker ty rs w r w' :
  simulate attacker ty rs w = (r, w') →
  length (graphs w') = length (graphs w) ∧
  length (dicts w') = length (dicts w) ∧
  (∀ l, l ≠ _network attacker → graphs w' !! l = graphs w !! l) ∧
  (∀ d, d ≠ rs → dicts w' !! d = dicts w !! d).
Proof.
  intros ((Hl & Hg) & Hd & He & _)%simulate_wrote_only. done.
Qed.

Lemma simulate_writes_own_witness :
  length (graphs (simulate a3 Random 0 w3).2) = length (graphs w3) ∧
  length (dicts (simulate a3 Random 0 w3).2) = length (dicts w3) ∧
  (∀ l, l ≠ _network a3 → graphs (simulate a3 Random 0 w3).2 !! l = graphs w3 !! l) ∧
  (∀ d, d ≠ 0%nat → dicts (simulate a3 Random 0 w3).2 !! d = dicts w3 !! d).
Proof.
  apply (simulate_writes_own a3 Random 0 w3 (simulate a3 Random 0 w3).1).
  by destruct (simulate a3 Random 0 w3).
Defined.

(** ** The robustness curve *)

Lemma measure_nonempty (g : Graph) : dom g ≠ ∅ → ∃ m, measure g = Ok m.
Proof.
  intros Hne. destruct (measure g) as [m|e] eqn:Hm; [by eexists|].
  by apply measure_Raise in Hm as [_ ?].
Qed.

Lemma ready_after_removals ty self g g' ts :
  policy_ready ty self g → remove_nodes g ts = Ok g' → policy_ready ty self g'.
Proof.
  revert g. induction ts as [|t ts IH]; intros g Hready; simpl.
  - by intros [= <-].
  - destruct (nx.remove_node g t) as [g1|e] eqn:Hr; [|done].
    apply IH. by eapply ready_after_removal.
Qed.

Lemma ready_after_policy ty self n w w' :
  policy_ready ty self (graph_at w (_network self)) →
  policy ty self n w = (Ok tt, w') →
  policy_ready ty self (graph_at w' (_network self)).
Proof.
  intros Hready (ts & _ & Hr)%policy_removals_aux. by eapply ready_after_removals.
Qed.

Section curve.
Context (attacker : Attacker) (ty : AttackType) (rs : nat).
Local Abbreviation l := (_network attacker).
Local Abbreviation n := (rounds_of attacker None).

Lemma simulate_round_steps i w w' :
  simulate_round attacker ty rs i w = (Ok tt, w') ↔
  ∃ w1 m, policy ty attacker None w = (Ok tt, w1) ∧
          measure (graph_at w1 l) = Ok m ∧
          w' = (setitem rs (round_key i) m w1).2.
Proof.
  unfold simulate_round. rewrite bind_Ok. split.
  - intros ([] & w1 & Hp & (m & w2 & Hm & Hset)%bind_Ok).
    rewrite measure_net_eq in Hm. injection Hm as Hm <-. injection Hset as <-.
    by exists w1, m.
  - intros (w1 & m & Hp & Hm & ->). exists tt, w1. split; [done|].
    apply bind_Ok. exists m, w1. by rewrite measure_net_eq, Hm.
Qed.

Lemma for_range_curve i k w w' :
  for_range (simulate_round attacker ty rs) i k w = (Ok tt, w') →
  ∃ gms : list (Graph * Measurement),
    length gms = k ∧
    ((rs < length (dicts w))%nat →
     dict_at w' rs = dict_sets (dict_at w rs) (zip (round_key <$> seq i k) gms.*2)) ∧
    (∀ j g m, gms !! j = Some (g, m) →
       measure g = Ok m ∧
       (nx.number_of_nodes g + S j * n = nx.number_of_nodes (graph_at w l))%nat ∧
       dom g ⊆ dom (graph_at w l)) ∧
    graph_at w' l = default (graph_at w l) (fst <$> last gms) ∧
    (∀ j a b, (graph_at w l :: gms.*1) !! j = Some a →
              (graph_at w l :: gms.*1) !! S j = Some b →
              ∃ ts, remove_nodes a ts = Ok b).
Proof.
  revert i w. induction k as [|k IH]; intros i w; simpl.
  - intros [= <-]. exists []. by repeat split.
  - intros ([] & w2 & (w1 & m & Hp & Hm & ->)%simulate_round_steps & Hrest)%bind_Ok.
    apply IH in Hrest as (gms & Hlen & Hdict & Hcurve & Hlast & Hchain).
    change (graph_at (setitem rs (round_key i) m w1).2 l) with (graph_at w1 l) in *.
    pose proof (policy_frame _ _ _ _ _ _ Hp) as [[Hd _] _].
    pose proof (policy_removals_aux _ _ _ _ _ Hp) as (ts & _ & Hts).
    apply policy_nodes in Hp as [Hsub Hnodes].
    exists ((graph_at w1 l, m) :: gms). split; [simpl; by f_equal|].
    split; [|split; [|split]]; cycle 3.
    { intros [|j] a b; [|apply Hchain].
      intros [= <-] [= <-]. by exists ts. }
    + intros Hrs. rewrite Hdict by (simpl; by rewrite length_insert, Hd).
      simpl. unfold dict_at at 1. simpl. rewrite dict_at_insert by by rewrite Hd.
      unfold dict_at. by rewrite Hd.
    + intros [|j] g m'; simpl.
      * intros [= <- <-]. split; [done|]. split; [lia|done].
      * intros (Hm' & Hn' & Hsub')%Hcurve. split; [done|]. split; [lia|set_solver].
    + rewrite Hlast. destruct gms as [|gm gms]; [done|].
      rewrite last_cons_cons. destruct (last (gm :: gms)) eqn:E; [done|].
      by apply last_None in E.
Qed.

Lemma for_range_total i k w :
  policy_ready ty attacker (graph_at w l) →
  (k * n < nx.number_of_nodes (graph_at w l))%nat →
  ∃ w', for_range (simulate_round attacker ty rs) i k w = (Ok tt, w').
Proof.
  revert i w. induction k as [|k IH]; intros i w Hready Hk; simpl; [by eexists|].
  destruct (policy_total ty attacker None w Hready) as [w1 Hp].
  { lia. }
  { intros _ H0%dom_empty_size. lia. }
  pose proof (ready_after_policy _ _ _ _ _ Hready Hp) as Hready1.
  pose proof (policy_nodes _ _ _ _ _ Hp) as [_ Hnodes].
  destruct (measure_nonempty (graph_at w1 l)) as [m Hm].
  { intros H0%dom_empty_size. lia. }
  destruct (IH (S i) (setitem rs (round_key i) m w1).2) as [w' Hrest].
  { done. }
  { change (graph_at (setitem rs (round_key i) m w1).2 l) with (graph_at w1 l). lia. }
  exists w'. apply bind_Ok. eexists tt, _. split; [|done].
  apply simulate_round_steps. by exists w1, m.
Qed.
End curve.

Lemma iters_100 (iters : nat) :
  py_int ((end_ - start) / step) = Ok (Z.of_nat iters) → iters = 100%nat.
Proof. rewrite iters_eq. intros [= H]. lia. Qed.


Lemma simulate_upto_steps attacker ty rs j w w' :
  simulate_upto attacker ty rs j w = (Ok tt, w') ↔
  ∃ m0, measure (graph_at w (_network attacker)) = Ok m0 ∧
        for_range (simulate_round attacker ty rs) 0 j (setitem rs (fmt 0) m0 w).2
        = (Ok tt, w').
Proof.
  unfold simulate_upto. rewrite bind_Ok. split.
  - intros (m0 & w0 & H0 & ([] & w1 & Hset & Hloop)%bind_Ok).
    rewrite measure_net_eq in H0. injection H0 as H0 <-. injection Hset as <-.
    by exists m0.
  - intros (m0 & Hm0 & Hloop). exists m0, w. rewrite measure_net_eq, Hm0.
    split; [done|]. apply bind_Ok. by eexists tt, _.
Qed.

(** The entries a completed run leaves in an empty dictionary: the
    measurement of the network as it was, then one for each round, of the
    network the round's removals left. *)
Lemma simulate_entries attacker ty rs (iters : nat) w w' :
  py_int ((end_ - start) / step) = Ok (Z.of_nat iters) →
  (rs < length (dicts w))%nat →
  dict_at w rs = [] →
  simulate attacker ty rs w = (Ok tt, w') →
  ∃ (m0 : Measurement) (gms : list (Graph * Measurement)),
    iters = 100%nat ∧ length gms = 100%nat ∧
    measure (graph_at w (_network attacker)) = Ok m0 ∧
    dict_at w' rs = (fmt 0, m0) :: zip (round_key <$> seq 0 100) gms.*2 ∧
    (∀ j g m, gms !! j = Some (g, m) →
       measure g = Ok m ∧
       (nx.number_of_nodes g + S j * rounds_of attacker None
        = nx.number_of_nodes (graph_at w (_network attacker)))%nat ∧
       dom g ⊆ dom (graph_at w (_network attacker))) ∧
    graph_at w' (_network attacker)
    = default (graph_at w (_network attacker)) (fst <$> last gms) ∧
    (∀ j a b, (graph_at w (_network attacker) :: gms.*1) !! j = Some a →
              (graph_at w (_network attacker) :: gms.*1) !! S j = Some b →
              ∃ ts, remove_nodes a ts = Ok b).
Proof.
  intros Hiters Hrs Hnil Hsim.
  pose proof (iters_100 _ Hiters) as ->.
  rewrite (simulate_unfold _ _ _ 100 _ Hiters) in Hsim.
  apply simulate_upto_steps in Hsim as (m0 & Hm0 & Hloop).
  apply for_range_curve in Hloop as (gms & Hlen & Hdict & Hcurve & Hlast & Hchain).
  change (graph_at (setitem rs (fmt 0) m0 w).2 (_network attacker))
    with (graph_at w (_network attacker)) in *.
  assert (dict_at w' rs
          = dict_sets [(fmt 0, m0)] (zip (round_key <$> seq 0 100) gms.*2)) as Hd'.
  { rewrite Hdict by (simpl; by rewrite length_insert).
    f_equal. unfold dict_at, setitem. cbn [snd dicts].
    rewrite list_lookup_total_insert_eq by done.
    fold (dict_at w rs). by rewrite Hnil. }
  clear Hdict.
  pose proof (sorted_NoDup _ sim_keys_sorted) as Hnd.
  apply NoDup_cons in Hnd as [Hk Hnd].
  assert (length (round_key <$> seq 0 100) = 100%nat) as Hlk
    by by rewrite length_fmap, length_seq.
  rewrite dict_sets_fresh in Hd'; [|done| |by rewrite length_fmap, Hlk].
  2:{ intros k Hin [->|H]%elem_of_cons; [done|]. by apply elem_of_nil in H. }
  exists m0, gms. do 3 (split; [done|]). split; [exact Hd'|].
  split; [exact Hcurve|]. split; [exact Hlast|exact Hchain].
Qed.

Lemma entries_lookup (m0 : Measurement) (gms : list (Graph * Measurement))
    (g0 : Graph) (i : nat) (g : Graph) (m : Measurement) :
  length gms = 100%nat →
  ((g0, m0) :: gms) !! i = Some (g, m) →
  ((fmt 0, m0) :: zip (round_key <$> seq 0 100) gms.*2) !! i = Some (curve_key i, m).
Proof.
  intros Hlen. destruct i as [|j]; [by intros [= _ <-]|].
  intros Hgm.
  change (zip (round_key <$> seq 0 100) gms.*2 !! j = Some (round_key j, m)).
  change (gms !! j = Some (g, m)) in Hgm.
  pose proof (lookup_lt_Some _ _ _ Hgm) as Hj.
  apply lookup_zip_with_Some. exists (round_key j), m.
  split; [done|]. split.
  - rewrite list_lookup_fmap, lookup_seq_lt by lia. done.
  - by rewrite list_lookup_fmap, Hgm.
Qed.

(** X9: the curve a completed run leaves in an empty dictionary has, at
    each index [i] from 0 to [iters], under the key of the fraction
    [i * step], the measurement of a network of exactly [N - i * n] nodes,
    all of them nodes of the network at the start: the first entry
    measures the network as it was, the last one the network as the run
    leaves it. *)
Theorem simulate_curve attacker ty rs (iters : nat) w w' :
  py_int ((end_ - start) / step) = Ok (Z.of_nat iters) →
  (rs < length (dicts w))%nat →
  dict_at w rs = [] →
  simulate attacker ty rs w = (Ok tt, w') →
  ∀ i, (i ≤ iters)%nat →
    ∃ g m, dict_at w' rs !! i = Some (curve_key i, m) ∧
           measure g = Ok m ∧
           (nx.number_of_nodes g + i * rounds_of attacker None
            = nx.number_of_nodes (graph_at w (_network attacker)))%nat ∧
           dom g ⊆ dom (graph_at w (_network attacker)) ∧
           (i = 0%nat → g = graph_at w (_network attacker)) ∧
           (i = iters → g = graph_at w' (_network attacker)).
Proof.
  intros Hiters Hrs Hnil Hsim i Hi.
  destruct (simulate_entries _ _ _ _ _ _ Hiters Hrs Hnil Hsim)
    as (m0 & gms & -> & Hlen & Hm0 & Hd' & Hcurve & Hlast & _).
  rewrite Hd'. destruct i as [|j].
  - exists (graph_at w (_network attacker)), m0. repeat split; (done || lia).
  - assert (j < length gms)%nat as Hj by lia.
    apply lookup_lt_is_Some in Hj as [[g m] Hgm].
    destruct (Hcurve j g m Hgm) as (Hm & Hn & Hsub).
    exists g, m. split; [|split; [done|split; [done|split; [done|split; [done|]]]]].
    + by apply (entries_lookup m0 gms (graph_at w (_network attacker)) (S j) g m).
    + intros [= ->]. rewrite Hlast, last_lookup, Hlen. simpl. by rewrite Hgm.
Qed.

Lemma simulate_curve_witness :
  ∃ g m, dict_at (simulate a5 TargetedPath 0 w120).2 0 !! 100%nat
         = Some (curve_key 100, m) ∧
         measure g = Ok m ∧
         (nx.number_of_nodes g + 100 * rounds_of a5 None
          = nx.number_of_nodes (graph_at w120 (_network a5)))%nat ∧
         dom g ⊆ dom (graph_at w120 (_network a5)) ∧
         (100%nat = 0%nat → g = graph_at w120 (_network a5)) ∧
         (100%nat = 100%nat →
          g = graph_at (simulate a5 TargetedPath 0 w120).2 (_network a5)).
Proof.
  refine (simulate_curve a5 TargetedPath 0 100 w120
            (simulate a5 TargetedPath 0 w120).2 _ _ _ _ 100%nat _).
  - vm_compute. reflexivity.
  - simpl. lia.
  - reflexivity.
  - vm_compute. reflexivity.
  - lia.
Defined.

Lemma simulate_total attacker ty rs (iters : nat) w :
  py_int ((end_ - start) / step) = Ok (Z.of_nat iters) →
  policy_ready ty attacker (graph_at w (_network attacker)) →
  0 ≤ _n attacker →
  Z.of_nat iters * _n attacker
  < Z.of_nat (nx.number_of_nodes (graph_at w (_network attacker))) →
  ∃ w', simulate attacker ty rs w = (Ok tt, w').
Proof.
  intros Hiters Hready Hn Hlt.
  assert (Z.of_nat (rounds_of attacker None) = _n attacker) as Hrounds
    by (unfold rounds_of; simpl; lia).
  pose proof (iters_100 _ Hiters) as ->.
  rewrite (simulate_unfold _ _ _ 100 _ Hiters).
  destruct (measure_nonempty (graph_at w (_network attacker))) as [m0 Hm0].
  { intros H0%dom_empty_size. lia. }
  destruct (for_range_total attacker ty rs 0 100 (setitem rs (fmt 0) m0 w).2)
    as [w' Hloop]; [done| |].
  { change (graph_at (setitem rs (fmt 0) m0 w).2 (_network attacker))
      with (graph_at w (_network attacker)). lia. }
  exists w'. apply simulate_upto_steps. by exists m0.
Qed.




(** ** The main program's count *)

Lemma checks_from_spec fuel k0 :
  checks_from fuel k0 = true →
  ∀ k, k0 ≤ k < k0 + Z.of_nat fuel → attack_size_check k = true.
Proof.
  revert k0. induction fuel as [|fuel IH]; intros k0; [lia|]. simpl.
  destruct (attack_size_check k0) eqn:Hk0; [|done]. intros H k Hk.
  destruct (decide (k = k0)) as [->|Hne]; [done|]. apply (IH (k0 + 1)); [done|lia].
Qed.

Lemma checks_upto : checks_from (Z.to_nat 100001) 0 = true.
Proof. vm_compute. reflexivity. Qed.

Lemma attack_size_spec (g : Graph) :
  Z.of_nat (nx.number_of_nodes g) ≤ 100000 →
  ∃ n, attack_size g = Ok n ∧
       n = round_half_even (Z.of_nat (nx.number_of_nodes g)) 1000 ∧ 0 ≤ n ∧
       (dom g ≠ ∅ → 100 * n < Z.of_nat (nx.number_of_nodes g)).
Proof.
  intros HN.
  pose proof (checks_from_spec _ _ checks_upto (Z.of_nat (nx.number_of_nodes g)))
    as Hc.
  specialize (Hc ltac:(lia)). unfold attack_size_check in Hc.
  unfold attack_size, py_float.
  destruct (py_round _) as [n|e]; [|done]. exists n. split; [done|].
  apply andb_prop in Hc as [[Hn H0%Z.leb_le]%andb_prop Hlt].
  apply Z.eqb_eq in Hn. split; [done|]. split; [done|].
  intros Hne. apply orb_prop in Hlt as [Hz%Z.eqb_eq|Hlt%Z.ltb_lt]; [|done].
  destruct Hne. apply dom_empty_size. lia.
Qed.

(** X11: for a network of at most 100000 nodes, the count the main
    program derives, [int(round(len(network) * step))] on floats, is the
    number of nodes divided by 1000 and rounded to the nearest integer,
    ties to even; it is not negative, and a hundred times it is less than
    the number of nodes of a network that is not empty. *)
Theorem attack_size_bounded (g : Graph) :
  Z.of_nat (nx.number_of_nodes g) ≤ 100000 →
  ∃ n, attack_size g = Ok n ∧
       n = round_half_even (Z.of_nat (nx.number_of_nodes g)) 1000 ∧ 0 ≤ n ∧
       (dom g ≠ ∅ → 100 * n < Z.of_nat (nx.number_of_nodes g)).
Proof. apply attack_size_spec. Qed.

Lemma attack_size_bounded_witness :
  ∃ n, attack_size (path_graph 600) = Ok n ∧
       n = round_half_even (Z.of_nat (nx.number_of_nodes (path_graph 600))) 1000 ∧
       0 ≤ n ∧
       (dom (path_graph 600) ≠ ∅ →
        100 * n < Z.of_nat (nx.number_of_nodes (path_graph 600))).
Proof.
  apply (attack_size_bounded (path_graph 600)). vm_compute. congruence.
Defined.

(** ** Calls that rank no node *)

Lemma attack_loop_ext {S} (a a' : Attacker) (c c' : S → M (Z * S)) k s w :
  _network a' = _network a → (∀ s w, c' s w = c s w) →
  attack_loop a' c' k s w = attack_loop a c k s w.
Proof.
  intros Hnet Hc. revert s w. induction k as [|k IH]; intros s w; [done|].
  simpl. unfold attack_round, mbind, M_bind. rewrite Hc, Hnet.
  destruct (c s w) as [[[t s']|e] w1]; [|done].
  destruct (net_remove_node (_network a) t w1) as [[[]|e] w2]; [|done].
  apply IH.
Qed.

Lemma policy_unranked ty a a' n w :
  _network a' = _network a → _n a' = _n a →
  unranked ty (rounds_of a n) →
  policy ty a' n w = policy ty a n w.
Proof.
  destruct a as [l k m], a' as [l' k' m']. simpl. intros -> -> Hun.
  destruct ty; simpl.
  - unfold random, _attack. by apply attack_loop_ext.
  - unfold targeted, _attack. unfold rounds_of in Hun.
    destruct n as [n|]; simpl in *; by rewrite Hun.
  - unfold random_path, _attack, mbind, M_bind.
    change (_path_chooser (mkAttacker l k m') w)
      with (_path_chooser (mkAttacker l k m) w).
    destruct (_path_chooser _ w) as [[st|e] w1]; [|done].
    by apply attack_loop_ext.
  - unfold targeted_path, _attack, mbind, M_bind.
    change (_path_chooser (mkAttacker l k m') w)
      with (_path_chooser (mkAttacker l k m) w).
    destruct (_path_chooser _ w) as [[st|e] w1] eqn:Hpc; [|done].
    assert (neighbors st = None) as Hst.
    { unfold _path_chooser in Hpc.
      by apply bind_Ok in Hpc as (t & w0 & _ & [= <- _]). }
    unfold rounds_of in Hun.
    destruct n as [n|]; simpl in *;
      (destruct (Z.to_nat _) as [|[|j]]; [done| |lia]);
      simpl; unfold attack_round, choose_target, mbind, M_bind; by rewrite Hst.
Qed.

(** X18: the metric plays no part in a call in which no node is ranked:
    a call of [random] or of [random_path], a call of [targeted] that
    makes no round and a call of [targeted_path] that makes at most one.
    Two attackers on the same working network, with the same count,
    then do the same, whatever metric each one holds: the call returns
    or raises alike and leaves the same store. *)
Theorem metric_unused ty a a' n w :
  _network a' = _network a → _n a' = _n a →
  unranked ty (rounds_of a n) →
  policy ty a' n w = policy ty a n w.
Proof. apply policy_unranked. Qed.

Lemma metric_unused_witness :
  policy TargetedPath (mkAttacker 1 1 GraphDegree) None w5a
  = policy TargetedPath a5 None w5a.
Proof.
  apply (metric_unused TargetedPath a5 (mkAttacker 1 1 GraphDegree) None w5a).
  - reflexivity.
  - reflexivity.
  - vm_compute. lia.
Defined.

(** ** The run the main program starts *)

Lemma for_range_ext (body body' : nat → M unit) i k w :
  (∀ i w, body' i w = body i w) → for_range body' i k w = for_range body i k w.
Proof.
  intros Hb. revert i w. induction k as [|k IH]; intros i w; [done|].
  simpl. unfold mbind, M_bind. rewrite Hb.
  destruct (body i w) as [[[]|e] w1]; [|done]. apply IH.
Qed.

Lemma simulate_unranked ty a a' rs w :
  _network a' = _network a → _n a' = _n a →
  unranked ty (rounds_of a None) →
  simulate a' ty rs w = simulate a ty rs w.
Proof.
  intros Hnet Hn Hun. unfold simulate, mbind, M_bind. rewrite Hnet.
  destruct (lift _ w) as [[iters|e] w0]; [|done].
  destruct (measure_net _ w0) as [[m|e] w1]; [|done].
  destruct (setitem rs (fmt 0) m w1) as [[[]|e] w2]; [|done].
  apply for_range_ext. intros i w3. unfold simulate_round, mbind, M_bind.
  by rewrite (policy_unranked ty a a' None w3), Hnet.
Qed.

Lemma NetworkAttacker_graph network n metric w self w' :
  (network < length (graphs w))%nat →
  NetworkAttacker network n metric w = (Ok self, w') →
  graph_at w' (_network self) = graph_at w network.
Proof.
  intros Hvalid (Hl & _ & _ & Hg)%NetworkAttacker_Ok.
  unfold graph_at at 1. rewrite Hg, Hl, list_lookup_total_middle; done.
Qed.

Lemma simulate_first_raise attacker ty rs w m0 e w' :
  measure (graph_at w (_network attacker)) = Ok m0 →
  policy ty attacker None (setitem rs (fmt 0) m0 w).2 = (Raise e, w') →
  simulate attacker ty rs w = (Raise e, w').
Proof.
  intros Hm0 Hp. rewrite (simulate_unfold _ _ _ 100 _ iters_eq).
  unfold simulate_upto.
  rewrite (bind_Ok_l _ _ _ m0 w) by (by rewrite measure_net_eq, Hm0).
  rewrite (bind_Ok_l _ _ _ tt (setitem rs (fmt 0) m0 w).2) by done.
  simpl. apply bind_Raise_l. unfold simulate_round. by apply bind_Raise_l.
Qed.

Lemma targeted_path_default self cnt w t :
  _metric self = GraphDegree →
  (2 ≤ rounds_of self cnt)%nat →
  fresh_draw self w t →
  nx.adj (graph_at w (_network self)) t ≠ ∅ →
  ∃ w', targeted_path self cnt w = (Raise TypeError, w') ∧
        nx.remove_node (graph_at w (_network self)) t
        = Ok (graph_at w' (_network self)) ∧
        dicts w' = dicts w.
Proof.
  intros Hm Hk (x & ns & Hn & ->) Hadj.
  set (t := pick (rand w (drawn w)) x ns) in *.
  assert (t ∈ dom (graph_at w (_network self))) as Ht.
  { apply elem_of_nodes. rewrite Hn. apply pick_elem. }
  assert (_path_chooser self w = (Ok (mkWalk t None), after_draw w)) as Hpc.
  { unfold _path_chooser, _random_node, mbind, M_bind, load, choice. simpl.
    by rewrite Hn. }
  destruct (rounds_of self cnt) as [|[|j]] eqn:Hj; [lia|lia|].
  destruct (path_first_round TargetedPath self t (after_draw w) eq_refl Ht)
    as (w2 & Hr & Hg).
  change (graph_at (after_draw w) (_network self))
    with (graph_at w (_network self)) in Hr, Hg.
  exists w2. split; [|split; [done|]].
  - change (targeted_path self cnt w) with (policy TargetedPath self cnt w).
    rewrite path_policy_unfold, (bind_Ok_l _ _ _ _ _ Hpc), Hj by done.
    cbn [attack_loop]. rewrite (bind_Ok_l _ _ _ _ _ Hr).
    cbn [attack_loop]. apply bind_Raise_l.
    unfold attack_round. apply bind_Raise_l.
    unfold path_chooser_of, targeted_path_chooser, choose_target. simpl.
    apply bind_Raise_l.
    destruct (elements (nx.adj (graph_at w (_network self)) t)) as [|y c] eqn:He.
    { apply elements_empty_inv in He. by apply leibniz_equiv in He. }
    by apply best_node_default.
  - apply attack_round_Ok in Hr as (t' & w1' & Hc & Hrem).
    apply net_remove_node_frame in Hrem as [[Hd _] _].
    assert (dicts w1' = dicts (after_draw w)) as Hd'.
    { pose proof (reads_targeted_path_chooser self (mkWalk t None) (after_draw w)) as H.
      change (path_chooser_of TargetedPath self) with (targeted_path_chooser self) in Hc.
      rewrite Hc in H. by destruct H as (_ & ? & _). }
    by rewrite Hd, Hd'.
Qed.

(** X12: the run the main program starts for an attack type, [simulate]
    on the attacker it makes with the count [n] it derives and without a
    metric, on a simple network of 1 to 100000 nodes.  The run completes
    when no node is ranked in it: for [random] and [random_path], for
    [targeted] when [n] is 0 and for [targeted_path] when [n] is at most
    1.  For [targeted] with [n ≥ 1] the first call raises [TypeError]
    before any removal, and the run ends with it, the dictionary holding
    the entry of the start only.  So does the run for [targeted_path]
    with [n ≥ 2] on a network where every node has a neighbour, after the
    removal of the start node drawn. *)
Theorem driver_run network w n attacker w1 rs :
  simple (graph_at w network) →
  dom (graph_at w network) ≠ ∅ →
  Z.of_nat (nx.number_of_nodes (graph_at w network)) ≤ 100000 →
  attack_size (graph_at w network) = Ok n →
  NetworkAttacker network n None w = (Ok attacker, w1) →
  (∀ ty, unranked ty (Z.to_nat n) →
         ∃ w', simulate attacker ty rs w1 = (Ok tt, w')) ∧
  (1 ≤ n →
   ∃ m0, measure (graph_at w network) = Ok m0 ∧
         simulate attacker Targeted rs w1
         = (Raise TypeError, (setitem rs (fmt 0) m0 w1).2)) ∧
  (2 ≤ n →
   (∀ v, v ∈ dom (graph_at w network) → nx.adj (graph_at w network) v ≠ ∅) →
   ∃ t m0 w',
     fresh_draw attacker w1 t ∧
     measure (graph_at w network) = Ok m0 ∧
     simulate attacker TargetedPath rs w1 = (Raise TypeError, w') ∧
     nx.remove_node (graph_at w network) t = Ok (graph_at w' (_network attacker)) ∧
     dicts w' = dicts (setitem rs (fmt 0) m0 w1).2).
Proof.
  intros Hsimple Hne HN Hsize Hmk.
  destruct (attack_size_spec _ HN) as (n' & Hn' & _ & H0 & Hlt).
  rewrite Hsize in Hn'. injection Hn' as <-. specialize (Hlt Hne).
  assert (network < length (graphs w))%nat as Hvalid.
  { apply set_choose_L in Hne as [x Hx]. by eapply graph_at_valid. }
  pose proof (NetworkAttacker_graph _ _ _ _ _ _ Hvalid Hmk) as Hg.
  apply NetworkAttacker_Ok in Hmk as (_ & Hn & Hm & _).
  destruct (measure_nonempty _ Hne) as [m0 Hm0].
  assert (rounds_of attacker None = Z.to_nat n) as Hrounds
    by (unfold rounds_of; simpl; by rewrite Hn).
  split; [|split].
  - intros ty Hun.
    set (given := mkAttacker (_network attacker) (_n attacker) (Given nx.degree_iter)).
    rewrite (simulate_unranked ty given attacker rs w1 eq_refl eq_refl)
      by (unfold rounds_of; simpl; by rewrite Hn).
    apply (simulate_total given ty rs 100); simpl; rewrite ?Hg, ?Hn.
    + apply iters_eq.
    + destruct ty; simpl; auto using degree_ranks_requested.
    + done.
    + lia.
  - intros H1. exists m0. split; [done|].
    apply (simulate_first_raise attacker Targeted rs w1 m0); [by rewrite Hg|].
    apply targeted_default; [done|]. rewrite Hrounds. lia.
  - intros H2 Hadj.
    destruct (nx.nodes (graph_at w network)) as [|x ns] eqn:Hnodes.
    { by apply nodes_nil in Hnodes. }
    set (t := pick (rand w1 (drawn w1)) x ns).
    assert (fresh_draw attacker w1 t) as Hfresh.
    { exists x, ns. by rewrite Hg. }
    assert (t ∈ dom (graph_at w network)) as Ht.
    { apply elem_of_nodes. rewrite Hnodes. apply pick_elem. }
    destruct (targeted_path_default attacker None (setitem rs (fmt 0) m0 w1).2 t)
      as (w' & Hp & Hrem & Hd).
    + done.
    + rewrite Hrounds. lia.
    + done.
    + change (graph_at (setitem rs (fmt 0) m0 w1).2 (_network attacker))
        with (graph_at w1 (_network attacker)). rewrite Hg. by apply Hadj.
    + exists t, m0, w'. split; [done|]. split; [done|].
      change (graph_at (setitem rs (fmt 0) m0 w1).2 (_network attacker))
        with (graph_at w1 (_network attacker)) in Hrem. rewrite Hg in Hrem.
      split; [|done].
      apply (simulate_first_raise attacker TargetedPath rs w1 m0); [by rewrite Hg|done].
Qed.

Lemma driver_run_witness :
  ∃ m0, measure (graph_at w600 0) = Ok m0 ∧
        simulate (mkAttacker 1 1 GraphDegree) Targeted 0
          (NetworkAttacker 0 1 None w600).2
        = (Raise TypeError,
           (setitem 0 (fmt 0) m0 (NetworkAttacker 0 1 None w600).2).2).
Proof.
  refine (proj1 (proj2 (driver_run 0 w600 1 (mkAttacker 1 1 GraphDegree)
                          (NetworkAttacker 0 1 None w600).2 0 _ _ _ _ _)) _).
  - apply simple_alt. refine (bool_decide_unpack _ _). vm_compute. exact I.
  - refine (bool_decide_unpack _ _). vm_compute. exact I.
  - vm_compute. congruence.
  - vm_compute. reflexivity.
  - reflexivity.
  - lia.
Defined.

(** ** Reading the topology files *)

Lemma ValueError_dec (e : Exn) : {e = ValueError} + {e ≠ ValueError}.
Proof. destruct e; (by left) || (by right). Qed.

Section read_data_facts.
Context {G T : Type} (strptime : string → Res T) (reader : string → Res G).

Lemma read_files_cons root f fs :
  data_reader.read_files strptime reader root (f :: fs)
  = match strptime f with
    | Ok timestamp =>
        match reader (data_reader.path_join root f) with
        | Ok graph =>
            ((graph, timestamp) :: (data_reader.read_files strptime reader root fs).1,
             (data_reader.read_files strptime reader root fs).2)
        | Raise ValueError => data_reader.read_files strptime reader root fs
        | Raise e => ([], Some e)
        end
    | Raise ValueError => data_reader.read_files strptime reader root fs
    | Raise e => ([], Some e)
    end.
Proof.
  simpl. destruct (strptime f) as [t|e]; [|done].
  destruct (reader _) as [g|e]; [|done].
  by destruct (data_reader.read_files strptime reader root fs).
Qed.

(** What one file does to the loop: it yields a pair, is passed over, or
    ends the loop with an exception that is not [ValueError]. *)
Lemma file_cases root f :
  (∃ p, file_pair strptime reader root f = Some p ∧
        ∀ fs, data_reader.read_files strptime reader root (f :: fs)
              = (p :: (data_reader.read_files strptime reader root fs).1,
                 (data_reader.read_files strptime reader root fs).2)) ∨
  (file_pair strptime reader root f = None ∧
   (∀ e, file_raises strptime reader root f e → e = ValueError) ∧
   ∀ fs, data_reader.read_files strptime reader root (f :: fs)
         = data_reader.read_files strptime reader root fs) ∨
  (∃ e, file_pair strptime reader root f = None ∧ e ≠ ValueError ∧
        file_raises strptime reader root f e ∧
        ∀ fs, data_reader.read_files strptime reader root (f :: fs) = ([], Some e)).
Proof.
  unfold file_pair, file_raises. setoid_rewrite read_files_cons.
  destruct (strptime f) as [t|e] eqn:Hf.
  - destruct (reader (data_reader.path_join root f)) as [g|e] eqn:Hr.
    + left. by exists (g, t).
    + right. destruct (ValueError_dec e) as [->|Hne].
      * left. split; [done|]. split; [|done].
        by intros e [?|[_ [= <-]]].
      * right. exists e. split; [done|]. split; [done|].
        split; [right; split; [by exists t|done]|]. intros fs. by destruct e.
  - right. destruct (ValueError_dec e) as [->|Hne].
    + left. split; [done|]. split; [|done].
      by intros e [[= <-]|[[? ?] _]].
    + right. exists e. split; [done|]. split; [done|].
      split; [by left|]. intros fs. by destruct e.
Qed.

Lemma read_files_spec root filenames :
  (∀ e, (data_reader.read_files strptime reader root filenames).2 = Some e →
     e ≠ ValueError ∧
     ∃ filename, filename ∈ filenames ∧
                 file_raises strptime reader root filename e) ∧
  (∀ p, p ∈ (data_reader.read_files strptime reader root filenames).1 →
     ∃ filename, filename ∈ filenames ∧
                 file_pair strptime reader root filename = Some p) ∧
  ((∀ filename e, filename ∈ filenames →
      file_raises strptime reader root filename e → e = ValueError) →
   data_reader.read_files strptime reader root filenames
   = (omap (file_pair strptime reader root) filenames, None)).
Proof.
  induction filenames as [|f fs (IH1 & IH2 & IH3)].
  { split; [done|]. split; [by intros p ?%elem_of_nil|done]. }
  assert (∀ e, (e ≠ ValueError ∧
                ∃ filename, filename ∈ fs ∧
                  file_raises strptime reader root filename e) →
               e ≠ ValueError ∧
               ∃ filename, filename ∈ f :: fs ∧
                  file_raises strptime reader root filename e) as Hlater.
  { intros e (Hne & f' & Hf' & Hr'). split; [done|]. exists f'.
    split; [by right|done]. }
  assert (∀ p, (∃ filename, filename ∈ fs ∧
                  file_pair strptime reader root filename = Some p) →
               ∃ filename, filename ∈ f :: fs ∧
                  file_pair strptime reader root filename = Some p) as Hlater'.
  { intros p (f' & Hf' & Hp). exists f'. split; [by right|done]. }
  assert ((∀ filename e, filename ∈ f :: fs →
             file_raises strptime reader root filename e → e = ValueError) →
          data_reader.read_files strptime reader root fs
          = (omap (file_pair strptime reader root) fs, None)) as IH3'.
  { intros Hv. apply IH3. intros f' e Hf'. apply Hv. by right. }
  cbn [omap list_omap].
  destruct (file_cases root f)
    as [(p & Hp & ->)|[(Hp & Hve & ->)|(e & Hp & Hne & He & ->)]]; rewrite Hp.
  - simpl. split; [auto|]. split.
    + intros q [->|Hq]%elem_of_cons; [|auto]. exists f. split; [left|done].
    + intros Hv. by rewrite (IH3' Hv).
  - split; [auto|]. split; [auto|]. done.
  - simpl. split; [|split].
    + intros e' [= <-]. split; [done|]. exists f. split; [left|done].
    + by intros q ?%elem_of_nil.
    + intros Hv. destruct Hne. apply (Hv f); [left|done].
Qed.

Lemma read_walk_spec walk raised :
  (∀ e, (data_reader.read_walk strptime reader walk raised).2 = Some e →
     raised = Some e ∨
     (e ≠ ValueError ∧
      ∃ root filenames filename,
        (root, filenames) ∈ walk ∧ filename ∈ filenames ∧
        file_raises strptime reader root filename e)) ∧
  (∀ p, p ∈ (data_reader.read_walk strptime reader walk raised).1 →
     ∃ root filenames filename,
       (root, filenames) ∈ walk ∧ filename ∈ filenames ∧
       file_pair strptime reader root filename = Some p) ∧
  ((∀ root filenames filename e,
      (root, filenames) ∈ walk → filename ∈ filenames →
      file_raises strptime reader root filename e → e = ValueError) →
   data_reader.read_walk strptime reader walk raised
   = (walk ≫= (λ d, omap (file_pair strptime reader d.1) d.2), raised)).
Proof.
  induction walk as [|[root fs] walk (IH1 & IH2 & IH3)]; simpl.
  { split; [by left|]. split; [by intros p ?%elem_of_nil|done]. }
  destruct (read_files_spec root fs) as (H1 & H2 & H3).
  assert ((∀ root0 filenames filename e,
             (root0, filenames) ∈ (root, fs) :: walk → filename ∈ filenames →
             file_raises strptime reader root0 filename e → e = ValueError) →
          data_reader.read_files strptime reader root fs
          = (omap (file_pair strptime reader root) fs, None) ∧
          data_reader.read_walk strptime reader walk raised
          = (walk ≫= (λ d, omap (file_pair strptime reader d.1) d.2), raised))
    as Hboth.
  { intros Hv. split.
    - apply H3. intros f e Hf. apply (Hv root fs f e); [left|done].
    - apply IH3. intros r' fs' f' e Hin. apply Hv. by right. }
  destruct (data_reader.read_files strptime reader root fs) as [ys [e|]] eqn:Hfs;
    simpl in *.
  - split; [|split].
    + intros e' [= <-]. right. destruct (H1 e eq_refl) as (Hne & f & Hf & Hr).
      split; [done|]. exists root, fs, f. split; [left|done].
    + intros p (f & Hf & Hp)%H2. exists root, fs, f. split; [left|done].
    + intros Hv. by destruct (Hboth Hv) as [? _].
  - destruct (data_reader.read_walk strptime reader walk raised) as [zs e'] eqn:Hw.
    simpl in *. split; [|split].
    + intros e Heq. destruct (IH1 e Heq) as [?|(Hne & r' & fs' & f' & Hin & Hf' & Hr')];
        [by left|].
      right. split; [done|]. exists r', fs', f'. split; [by right|done].
    + intros p [(f & Hf & Hp)%H2|Hp]%elem_of_app.
      * exists root, fs, f. split; [left|done].
      * destruct (IH2 p Hp) as (r' & fs' & f' & Hin & Hf' & Hp').
        exists r', fs', f'. split; [by right|done].
    + intros Hv. destruct (Hboth Hv) as [[= ->] [= -> ->]]. done.
Qed.
End read_data_facts.

(** X14: what [read_data] passes over and what ends it.  A file on which
    [strptime] or the reader raises [ValueError] is passed over.  An
    exception that ends [read_data] is the one that ended [os.walk], which
    is not inside the [try], or one other than [ValueError] that
    [strptime] or the reader raised on a file of the walk: so a
    [ValueError] comes out of [read_data] only when [os.walk] itself
    raises it.  Every pair yielded comes from a file of the walk whose
    name parsed and that the reader read; and when [ValueError] is the
    only exception raised on the files of the walk, [read_data] yields the
    pairs of all such files, in the order of the walk, and ends as the
    walk ends. *)
Theorem read_data_skips {G T : Type} (strptime : string → Res T)
    (reader : string → Res G)
    (os_walk : string → list (string * list string) * option Exn)
    (dirname : string) :
  (∀ e, (data_reader.read_data strptime reader os_walk dirname).2 = Some e →
     (os_walk dirname).2 = Some e ∨
     (e ≠ ValueError ∧
      ∃ root filenames filename,
        (root, filenames) ∈ (os_walk dirname).1 ∧ filename ∈ filenames ∧
        file_raises strptime reader root filename e)) ∧
  ((data_reader.read_data strptime reader os_walk dirname).2 = Some ValueError →
   (os_walk dirname).2 = Some ValueError) ∧
  (∀ p, p ∈ (data_reader.read_data strptime reader os_walk dirname).1 →
     ∃ root filenames filename,
       (root, filenames) ∈ (os_walk dirname).1 ∧ filename ∈ filenames ∧
       file_pair strptime reader root filename = Some p) ∧
  ((∀ root filenames filename e,
      (root, filenames) ∈ (os_walk dirname).1 → filename ∈ filenames →
      file_raises strptime reader root filename e → e = ValueError) →
   data_reader.read_data strptime reader os_walk dirname
   = ((os_walk dirname).1 ≫= (λ d, omap (file_pair strptime reader d.1) d.2),
      (os_walk dirname).2)).
Proof.
  unfold data_reader.read_data.
  destruct (read_walk_spec strptime reader (os_walk dirname).1 (os_walk dirname).2)
    as (H1 & H2 & H3).
  split; [done|]. split; [|done].
  intros He. by destruct (H1 _ He) as [?|[? _]].
Qed.

(** ** The calls of [random.choice] *)

Lemma net_neighbors_same l t w nbrs w' :
  net_neighbors l t w = (Ok nbrs, w') → w' = w.
Proof. by intros (-> & _)%net_neighbors_Ok. Qed.

Section draws.
Context {S : Type} (self : Attacker) (choose : S → M (Z * S)).
Context (Inv : S → Prop) (lo hi : nat).
Hypothesis choose_draws : ∀ s w t s' w1,
  Inv s → choose s w = (Ok (t, s'), w1) →
  Inv s' ∧ (drawn w + lo ≤ drawn w1 ≤ drawn w + hi)%nat.

Lemma Rounds_draws s w rs w' :
  Inv s → Rounds self choose s w rs w' →
  (drawn w + length rs * lo ≤ drawn w' ≤ drawn w + length rs * hi)%nat.
Proof.
  intros HI HR. induction HR as [|s w t s' w1 w2 rs w3 Hc Hr HR IH]; simpl; [lia|].
  destruct (choose_draws _ _ _ _ _ HI Hc) as [HI' Hd].
  apply net_remove_node_Ok in Hr as (_ & _ & _ & Hr).
  specialize (IH HI'). lia.
Qed.
End draws.

Lemma random_chooser_draws self s w t s' w1 :
  random_chooser self s w = (Ok (t, s'), w1) → drawn w1 = S (drawn w).
Proof.
  unfold random_chooser, stateless.
  intros (t' & w0 & (x & r & _ & _ & _ & Hd)%random_node_Ok & [= _ _ <-])%bind_Ok.
  done.
Qed.

Lemma targeted_chooser_draws self s w t s' w1 :
  targeted_chooser self s w = (Ok (t, s'), w1) → drawn w1 = drawn w.
Proof.
  unfold targeted_chooser, stateless.
  intros (t' & w0 & (-> & _)%best_node_Ok & [= _ _ <-])%bind_Ok. done.
Qed.

Lemma path_chooser_draws ty self st w t st' w1 :
  is_path ty = true →
  path_chooser_of ty self st w = (Ok (t, st'), w1) →
  neighbors st' ≠ None ∧
  match neighbors st with
  | None => drawn w1 = drawn w
  | Some [] => drawn w1 = S (drawn w)
  | Some (_ :: _) =>
      drawn w1 = (if ty is TargetedPath then drawn w else S (drawn w))
  end.
Proof.
  intros Hty Hc.
  assert (∃ w0, (match neighbors st with
                 | Some [] => _random_node self None
                 | Some (x :: c) =>
                     match ty with
                     | TargetedPath => _best_node self (Some (x :: c))
                     | _ => _random_node self (Some (x :: c))
                     end
                 | None => mret (target st)
                 end) w = (Ok t, w0) ∧ w1 = w0 ∧ neighbors st' ≠ None)
    as (w0 & Hfirst & -> & Hn).
  { destruct ty; try done; simpl in Hc;
      unfold random_path_chooser, targeted_path_chooser, choose_target in Hc;
      apply bind_Ok in Hc as (t' & w0 & Hfirst & Hrest);
      apply bind_Ok in Hrest as (nbrs & w0' & ->%net_neighbors_same & [= <- <- <-]);
      exists w0; (split; [|done]);
      by destruct (neighbors st) as [[|x c]|]. }
  split; [done|].
  destruct (neighbors st) as [[|x c]|].
  - by apply random_node_Ok in Hfirst as (_ & _ & _ & _ & _ & ->).
  - destruct ty; try done.
    + by apply random_node_Ok in Hfirst as (_ & _ & _ & _ & _ & ->).
    + by apply best_node_Ok in Hfirst as (-> & _).
  - by injection Hfirst as _ <-.
Qed.

Lemma path_start_draws self w st w1 :
  _path_chooser self w = (Ok st, w1) →
  neighbors st = None ∧ drawn w1 = S (drawn w).
Proof.
  unfold _path_chooser.
  intros (t & w0 & (_ & _ & _ & _ & _ & Hd)%random_node_Ok & [= <- <-])%bind_Ok.
  done.
Qed.

Lemma path_Rounds_draws ty self st w1 rs w' :
  is_path ty = true →
  neighbors st = None →
  Rounds self (path_chooser_of ty self) st w1 rs w' →
  (drawn w1 + (if ty is TargetedPath then 0 else length rs - 1) ≤ drawn w'
   ≤ drawn w1 + (length rs - 1))%nat.
Proof.
  intros Hty Hst HR. inversion HR as [|s w t s' w2 w3 rs' w4 Hc Hr HR']; subst.
  { simpl. destruct ty; lia. }
  destruct (path_chooser_draws _ _ _ _ _ _ _ Hty Hc) as [Hn Hd].
  rewrite Hst in Hd.
  apply net_remove_node_Ok in Hr as (_ & _ & _ & Hr).
  pose proof (Rounds_draws self (path_chooser_of ty self)
                (λ s, neighbors s ≠ None)
                (if ty is TargetedPath then 0 else 1)%nat 1%nat) as HD.
  specialize (HD) with (2 := Hn) (3 := HR').
  simpl. rewrite Nat.sub_0_r.
  assert ((drawn w3 + length rs' * (if ty is TargetedPath then 0 else 1)
           ≤ drawn w' ≤ drawn w3 + length rs' * 1)%nat) as H.
  { apply HD. intros s0 w0 t0 s0' w0' Hs0 Hc0.
    destruct (path_chooser_draws _ _ _ _ _ _ _ Hty Hc0) as [Hn0 Hd0].
    split; [done|].
    destruct (neighbors s0) as [[|x c]|]; [| |done]; destruct ty; try done; lia. }
  destruct ty; try done; lia.
Qed.

(** X15: how often a successful call of a policy calls [random.choice].
    [targeted] never does; [random] does once for each node it removes;
    [random_path] once for the start node and once for each node after
    the first; [targeted_path] once for the start node and at most once
    for each node after the first (when the walk restarts).  The numbers
    still to come are those that were, less the ones drawn. *)
Theorem policy_draws ty self n w w' :
  policy ty self n w = (Ok tt, w') →
  rand w' = rand w ∧
  match ty with
  | Targeted => drawn w' = drawn w
  | Random => drawn w' = (drawn w + rounds_of self n)%nat
  | RandomPath => drawn w' = (drawn w + 1 + (rounds_of self n - 1))%nat
  | TargetedPath =>
      (drawn w + 1 ≤ drawn w' ≤ drawn w + 1 + (rounds_of self n - 1))%nat
  end.
Proof.
  intros Hp. split; [by apply policy_frame in Hp as [[_ ?] _]|].
  destruct ty; simpl in Hp.
  - apply random_Rounds in Hp as (rs & <- & HR).
    pose proof (Rounds_draws self (random_chooser self) (λ _, True) 1 1) as HD.
    specialize HD with (2 := I) (3 := HR).
    assert ((drawn w + length rs * 1 ≤ drawn w' ≤ drawn w + length rs * 1)%nat);
      [|lia].
    apply HD. intros s0 w0 t0 s0' w0' _ ->%random_chooser_draws. lia.
  - apply targeted_Rounds in Hp as (rs & _ & HR).
    pose proof (Rounds_draws self (targeted_chooser self) (λ _, True) 0 0) as HD.
    specialize HD with (2 := I) (3 := HR).
    assert ((drawn w + length rs * 0 ≤ drawn w' ≤ drawn w + length rs * 0)%nat);
      [|lia].
    apply HD. intros s0 w0 t0 s0' w0' _ ->%targeted_chooser_draws. lia.
  - apply random_path_Rounds in Hp as (st & w1 & rs & [Hst Hd]%path_start_draws & <- & HR).
    pose proof (path_Rounds_draws RandomPath self st w1 rs w' eq_refl Hst HR).
    simpl in *. lia.
  - apply targeted_path_Rounds in Hp as (st & w1 & rs & [Hst Hd]%path_start_draws & <- & HR).
    pose proof (path_Rounds_draws TargetedPath self st w1 rs w' eq_refl Hst HR).
    simpl in *. lia.
Qed.

Lemma policy_draws_witness :
  rand (policy RandomPath a5 (Some 3) w5a).2 = rand w5a ∧
  drawn (policy RandomPath a5 (Some 3) w5a).2
  = (drawn w5a + 1 + (rounds_of a5 (Some 3%Z) - 1))%nat.
Proof.
  apply (policy_draws RandomPath a5 (Some 3) w5a). vm_compute. reflexivity.
Defined.

(** ** The largest component under attack *)

Lemma subgraph_refl (g : Graph) : subgraph g g.
Proof. by split. Qed.

Lemma subgraph_trans (g1 g2 g3 : Graph) :
  subgraph g1 g2 → subgraph g2 g3 → subgraph g1 g3.
Proof.
  intros [Hd1 Ha1] [Hd2 Ha2]. split; [by etrans|].
  intros u. etrans; [apply Ha1|apply Ha2].
Qed.

Lemma remove_node_undirected (g g' : Graph) (v : Z) :
  symmetric g → closed g → nx.remove_node g v = Ok g' →
  symmetric g' ∧ closed g' ∧ subgraph g' g.
Proof.
  intros Hsym Hcl Hr.
  pose proof (λ x, adj_remove_node g g' v x Hsym Hr) as Hadj.
  apply remove_node_Ok in Hr as [Hv Hdom].
  split; [|split; [|split]].
  - intros a b. rewrite !Hadj.
    destruct (decide (b = v)) as [->|Hb]; [set_solver|].
    destruct (decide (a = v)) as [->|Ha]; [set_solver|].
    intros [Hab _]%elem_of_difference. apply Hsym in Hab. set_solver.
  - intros a. rewrite Hadj, Hdom. destruct (decide (a = v)); [set_solver|].
    specialize (Hcl a). set_solver.
  - set_solver.
  - intros a. rewrite Hadj. destruct (decide (a = v)); set_solver.
Qed.

Lemma remove_nodes_undirected (g g' : Graph) (ts : list Z) :
  symmetric g → closed g → remove_nodes g ts = Ok g' →
  symmetric g' ∧ closed g' ∧ subgraph g' g.
Proof.
  revert g. induction ts as [|t ts IH]; intros g Hsym Hcl; simpl.
  - intros [= <-]. split; [done|]. split; [done|]. apply subgraph_refl.
  - destruct (nx.remove_node g t) as [g1|e] eqn:Hr; [|done].
    destruct (remove_node_undirected _ _ _ Hsym Hcl Hr) as (Hs1 & Hc1 & Hsub1).
    intros Hrest. destruct (IH g1 Hs1 Hc1 Hrest) as (Hs & Hc & Hsub).
    split; [done|]. split; [done|]. by eapply subgraph_trans.
Qed.

(** Every component found is the search from one of the nodes. *)
Lemma cc_fold_bfs (g : Graph) (l : list Z) (acc : gset Z * list (gset Z)) :
  (∀ v, v ∈ l → v ∈ dom g) →
  Forall (λ c, ∃ v, v ∈ dom g ∧ c = nx.plain_bfs g v) acc.2 →
  Forall (λ c, ∃ v, v ∈ dom g ∧ c = nx.plain_bfs g v)
         (fold_left (nx.cc_step g) l acc).2.
Proof.
  revert acc. induction l as [|v l IH]; intros acc Hl Hacc; [done|].
  simpl. apply IH; [intros u Hu; apply Hl; by right|].
  unfold nx.cc_step. destruct (decide (v ∈ acc.1)); [done|]. simpl.
  apply Forall_app. split; [done|]. apply Forall_singleton.
  exists v. split; [apply Hl; left|done].
Qed.

Lemma components_are_bfs (g : Graph) (c : gset Z) :
  c ∈ nx.connected_components g → ∃ v, v ∈ dom g ∧ c = nx.plain_bfs g v.
Proof.
  intros Hc.
  assert (Forall (λ c, ∃ v, v ∈ dom g ∧ c = nx.plain_bfs g v)
                 (nx.connected_components g)) as H.
  { apply cc_fold_bfs; [|by constructor]. intros v Hv. by apply elem_of_nodes. }
  by apply (proj1 (Forall_forall _ _) H).
Qed.

Lemma giant_subgraph (g g' : Graph) (c s c' s' : nat) :
  symmetric g → closed g → subgraph g' g →
  measure g = Ok (c, s) → measure g' = Ok (c', s') → (s' ≤ s)%nat.
Proof.
  intros Hsym Hcl [Hdom Hadj] (gc & Hin & -> & -> & Hmax)%measure_Ok
    (gc' & Hin' & -> & -> & _)%measure_Ok.
  apply components_are_bfs in Hin' as (v & Hv & ->).
  destruct (components_partition g Hsym Hcl) as [Hcover _].
  destruct (components_cover g Hcover v (Hdom v Hv)) as (c0 & Hc0 & Hvc0).
  etrans; [|apply Hmax, Hc0]. apply subseteq_size.
  pose proof Hc0 as (u & Hu & ->)%components_are_bfs.
  destruct (plain_bfs_closed g u Hcl Hu) as [_ Hclosed].
  intros x. apply (plain_bfs_minimal g' (λ x, x ∈ nx.plain_bfs g u)); [|done].
  intros a b Ha Hb. apply (Hclosed a Ha). by apply Hadj.
Qed.

(** X16: an attack on an undirected network leaves an undirected network,
    with some of its nodes and some of its edges, and the largest
    component [measure] finds afterwards is no larger than the one it
    found before. *)
Theorem attack_shrinks_giant ty self n w w' (c s c' s' : nat) :
  symmetric (graph_at w (_network self)) →
  closed (graph_at w (_network self)) →
  policy ty self n w = (Ok tt, w') →
  measure (graph_at w (_network self)) = Ok (c, s) →
  measure (graph_at w' (_network self)) = Ok (c', s') →
  symmetric (graph_at w' (_network self)) ∧
  closed (graph_at w' (_network self)) ∧
  subgraph (graph_at w' (_network self)) (graph_at w (_network self)) ∧
  (s' ≤ s)%nat.
Proof.
  intros Hsym Hcl (ts & _ & Hr)%policy_removals_aux Hm Hm'.
  destruct (remove_nodes_undirected _ _ _ Hsym Hcl Hr) as (Hs & Hc & Hsub).
  split; [done|]. split; [done|]. split; [done|].
  exact (giant_subgraph _ _ _ _ _ _ Hsym Hcl Hsub Hm Hm').
Qed.

Lemma attack_shrinks_giant_witness :
  symmetric (graph_at (policy Targeted a5 (Some 2) w5a).2 (_network a5)) ∧
  closed (graph_at (policy Targeted a5 (Some 2) w5a).2 (_network a5)) ∧
  subgraph (graph_at (policy Targeted a5 (Some 2) w5a).2 (_network a5))
           (graph_at w5a (_network a5)) ∧
  (2 ≤ 5)%nat.
Proof.
  destruct simple_g5 as (Hsym & Hcl & _).
  apply (attack_shrinks_giant Targeted a5 (Some 2) w5a _ 1 5 2 2 Hsym Hcl);
    vm_compute; reflexivity.
Defined.

(** ** The curve never rises *)

Lemma chain_undirected (gs : list Graph) (g0 : Graph) :
  (∀ j a b, gs !! j = Some a → gs !! S j = Some b →
            ∃ ts, remove_nodes a ts = Ok b) →
  gs !! 0%nat = Some g0 → symmetric g0 → closed g0 →
  ∀ i a, gs !! i = Some a → symmetric a ∧ closed a.
Proof.
  intros Hchain H0 Hsym Hcl i. induction i as [|i IH]; intros a Ha.
  - rewrite H0 in Ha. by injection Ha as <-.
  - assert (i < length gs)%nat as Hi by (apply lookup_lt_Some in Ha; lia).
    apply lookup_lt_is_Some in Hi as [b Hb].
    destruct (IH b Hb) as [Hsb Hcb].
    destruct (Hchain i b a Hb Ha) as [ts Hts].
    by destruct (remove_nodes_undirected _ _ _ Hsb Hcb Hts) as (? & ? & _).
Qed.

Lemma chain_subgraph (gs : list Graph) (g0 : Graph) :
  (∀ j a b, gs !! j = Some a → gs !! S j = Some b →
            ∃ ts, remove_nodes a ts = Ok b) →
  gs !! 0%nat = Some g0 → symmetric g0 → closed g0 →
  ∀ d i a b, gs !! i = Some a → gs !! (i + d)%nat = Some b → subgraph b a.
Proof.
  intros Hchain H0 Hsym Hcl d. induction d as [|d IH]; intros i a b Ha Hb.
  - rewrite Nat.add_0_r, Ha in Hb. injection Hb as <-. apply subgraph_refl.
  - rewrite Nat.add_succ_r in Hb.
    assert (i + d < length gs)%nat as Hi by (apply lookup_lt_Some in Hb; lia).
    apply lookup_lt_is_Some in Hi as [c Hc].
    destruct (chain_undirected gs g0 Hchain H0 Hsym Hcl _ _ Hc) as [Hsc Hcc].
    destruct (Hchain _ c b Hc Hb) as [ts Hts].
    destruct (remove_nodes_undirected _ _ _ Hsc Hcc Hts) as (_ & _ & Hsub).
    eapply subgraph_trans; [exact Hsub|]. by eapply IH.
Qed.

(** X17: the curve of a completed run on an undirected network never
    rises: of two entries of the dictionary, the later one records a
    largest component that is no larger. *)
Theorem simulate_curve_decreasing attacker ty rs (iters : nat) w w' :
  py_int ((end_ - start) / step) = Ok (Z.of_nat iters) →
  (rs < length (dicts w))%nat →
  dict_at w rs = [] →
  symmetric (graph_at w (_network attacker)) →
  closed (graph_at w (_network attacker)) →
  simulate attacker ty rs w = (Ok tt, w') →
  ∀ i j, (i ≤ j)%nat → (j ≤ iters)%nat →
    ∃ m m' : Measurement,
      dict_at w' rs !! i = Some (curve_key i, m) ∧
      dict_at w' rs !! j = Some (curve_key j, m') ∧
      (m'.2 ≤ m.2)%nat.
Proof.
  intros Hiters Hrs Hnil Hsym Hcl Hsim i j Hij Hj.
  destruct (simulate_entries _ _ _ _ _ _ Hiters Hrs Hnil Hsim)
    as (m0 & gms & -> & Hlen & Hm0 & Hd' & Hcurve & _ & Hchain).
  set (g0 := graph_at w (_network attacker)) in *.
  assert (∀ k, (k ≤ 100)%nat →
            ∃ g m, ((g0, m0) :: gms) !! k = Some (g, m) ∧ measure g = Ok m)
    as Hall.
  { intros [|k] Hk; [by exists g0, m0|].
    assert (k < length gms)%nat as Hlt by lia.
    apply lookup_lt_is_Some in Hlt as [[g m] Hgm].
    exists g, m. split; [done|]. by destruct (Hcurve k g m Hgm). }
  destruct (Hall i) as (gi & mi & Hi & Hmi); [lia|].
  destruct (Hall j) as (gj & mj & Hgj & Hmj); [lia|].
  exists mi, mj. rewrite Hd'.
  split; [by eapply entries_lookup|]. split; [by eapply entries_lookup|].
  assert ((g0 :: gms.*1) !! i = Some gi) as Hgi'.
  { change (((g0, m0) :: gms).*1 !! i = Some gi). by rewrite list_lookup_fmap, Hi. }
  assert ((g0 :: gms.*1) !! (i + (j - i))%nat = Some gj) as Hgj'.
  { replace (i + (j - i))%nat with j by lia.
    change (((g0, m0) :: gms).*1 !! j = Some gj). by rewrite list_lookup_fmap, Hgj. }
  destruct (chain_undirected _ g0 Hchain eq_refl Hsym Hcl _ _ Hgi') as [Hsi Hci].
  pose proof (chain_subgraph _ g0 Hchain eq_refl Hsym Hcl _ _ _ _ Hgi' Hgj') as Hsub.
  destruct mi as [ci si], mj as [cj sj]. simpl.
  exact (giant_subgraph _ _ _ _ _ _ Hsi Hci Hsub Hmi Hmj).
Qed.

Lemma simulate_curve_decreasing_witness :
  ∃ m m' : Measurement,
    dict_at (simulate a5 Random 0 w120).2 0 !! 3%nat = Some (curve_key 3, m) ∧
    dict_at (simulate a5 Random 0 w120).2 0 !! 100%nat = Some (curve_key 100, m') ∧
    (m'.2 ≤ m.2)%nat.
Proof.
  assert (simple (graph_at w120 (_network a5))) as (Hsym & Hcl & _).
  { apply simple_alt. refine (bool_decide_unpack _ _). vm_compute. exact I. }
  refine (simulate_curve_decreasing a5 Random 0 100 w120
            (simulate a5 Random 0 w120).2 _ _ _ Hsym Hcl _ 3%nat 100%nat _ _).
  - vm_compute. reflexivity.
  - simpl. lia.
  - reflexivity.
  - vm_compute. reflexivity.
  - lia.
  - lia.
Defined.
